(** * BFS user file-system API (fs.c): byte-range read, write and seek

    A shallow embedding of [fsRead], [fsSeek], [fsSize], [fsTell] and
    [fsWrite] of [src/fs.c], over a model of the services of [bfs.h] and
    [bio.h] that the file calls but does not define. *)

From Stdlib Require Import ZArith List Lia Bool.
From Stdlib Require Import Init.Byte Strings.String.
From stdpp Require Import base tactics option list gmap.

Local Open Scope Z_scope.

(** ** Machine integers

    [i32] values are integers of [Z]; every arithmetic operation of the
    source is followed by the two's-complement wrap-around of 32 bits. *)

Definition INT_MAX : Z := 2147483647.
Definition INT_MIN : Z := -2147483648.

Definition wrap32 (z : Z) : Z := (z + 2147483648) mod 4294967296 - 2147483648.

Definition add32 (a b : Z) : Z := wrap32 (a + b).
Definition sub32 (a b : Z) : Z := wrap32 (a - b).
(** C's [/] and [%] truncate towards zero. *)
Definition quot32 (a b : Z) : Z := wrap32 (Z.quot a b).
Definition rem32 (a b : Z) : Z := wrap32 (Z.rem a b).

(** ** Bytes and buffers *)

Abbreviation byte := Byte.byte.

(** [i8 b[n] = {0}]. *)
Definition zeros (n : Z) : list byte := replicate (Z.to_nat n) x00.

(** The byte at index [i] of a buffer. *)
Definition nthZ (l : list byte) (i : Z) : byte := nth (Z.to_nat i) l x00.

(** [memcpy(dst + doff, src + soff, n)] on buffers held as lists. *)
Definition memcpy (dst : list byte) (doff : Z) (src : list byte) (soff n : Z)
  : list byte :=
  take (Z.to_nat doff) dst
    ++ take (Z.to_nat n) (drop (Z.to_nat soff) src)
    ++ drop (Z.to_nat doff + Z.to_nat n) dst.

(** ** State of the file system *)

(** The error codes of [bfs.h] raised in [fs.c], and the one of the block
    allocator. *)
Inductive errcode : Set :=
| ENEGNUMB
| EBADCURS
| EBADWHENCE
| EDISKFULL.

(** One whole-block transfer of the block store [bio.h]. *)
Inductive bio_op : Set :=
| BioRead (dbn : Z)
| BioWrite (dbn : Z).

Global Instance bio_op_eq_dec : EqDecision bio_op.
Proof. solve_decision. Defined.

Record Inode : Type := mkInode {
  i_size : Z;            (* the file size in bytes *)
  i_map : gmap Z Z       (* file block number -> disk block number *)
}.

Record state : Type := mkState {
  g_oft : Z -> Z;             (* cursor of the open-file-table entry of an inode *)
  inodes : Z -> Inode;        (* inode table *)
  disk : Z -> list byte;      (* contents of every disk block *)
  freelist : list Z;          (* free disk blocks *)
  biolog : list bio_op        (* block transfers made so far, oldest first *)
}.

Definition upd {A : Type} (f : Z -> A) (k : Z) (v : A) : Z -> A :=
  fun x => if Z.eq_dec x k then v else f x.

Definition set_curs (inum c : Z) (s : state) : state :=
  mkState (upd (g_oft s) inum c) (inodes s) (disk s) (freelist s) (biolog s).

Definition set_inode (inum : Z) (i : Inode) (s : state) : state :=
  mkState (g_oft s) (upd (inodes s) inum i) (disk s) (freelist s) (biolog s).

Definition set_block (dbn : Z) (b : list byte) (s : state) : state :=
  mkState (g_oft s) (inodes s) (upd (disk s) dbn b) (freelist s) (biolog s).

Definition set_freelist (l : list Z) (s : state) : state :=
  mkState (g_oft s) (inodes s) (disk s) l (biolog s).

Definition log_op (o : bio_op) (s : state) : state :=
  mkState (g_oft s) (inodes s) (disk s) (freelist s) (biolog s ++ [o]).

(** ** Calls that return, abort, or run out of fuel

    [FATAL(e)] aborts the process: the call ends with the error code and the
    state reached so far.  [Diverge] is the answer of a loop whose fuel ran
    out. *)

Inductive outcome (A : Type) : Type :=
| Ok (a : A) (s : state)
| Fatal (e : errcode) (s : state)
| Diverge.

Arguments Ok {A} a s.
Arguments Fatal {A} e s.
Arguments Diverge {A}.

Definition M (A : Type) : Type := state -> outcome A.

Definition ret {A : Type} (a : A) : M A := fun s => Ok a s.

Definition bind {A B : Type} (m : M A) (k : A -> M B) : M B :=
  fun s =>
    match m s with
    | Ok a s' => k a s'
    | Fatal e s' => Fatal e s'
    | Diverge => Diverge
    end.

(** Modelled from the spec: the macro [FATAL] of [bfs.h], missing from the
    sources; the failure is fatal to the caller and nothing is undone. *)
Definition FATAL {A : Type} (e : errcode) : M A := fun s => Fatal e s.

Notation "'let!' x ':=' c1 'in' c2" := (bind c1 (fun x => c2))
  (at level 10, x name, c1 at level 100, c2 at level 200).
Notation "'let!' ' p ':=' c1 'in' c2" :=
  (bind c1 (fun x => match x with p => c2 end))
  (at level 10, p pattern, c1 at level 100, c2 at level 200).
Notation "'do!' c1 'in' c2" := (bind c1 (fun _ => c2))
  (at level 10, c1 at level 100, c2 at level 200).

(** ** The services of [bfs.h] and [bio.h] *)

(** [whence] values of [stdio.h]. *)
Definition SEEK_SET : Z := 0.
Definition SEEK_CUR : Z := 1.
Definition SEEK_END : Z := 2.

(** Modelled from the spec: [bfsTell] (getCursor), missing from the sources;
    the cursor of the open-file-table entry bound to the handle's inode. *)
Definition bfsTell (bfsFdToInum : Z -> Z) (fd : Z) : M Z :=
  fun s => Ok (g_oft s (bfsFdToInum fd)) s.

(** Modelled from the spec: [bfsSetCursor] (setCursor), missing from the
    sources; it stores the cursor in the entry bound to the inode. *)
Definition bfsSetCursor (inum c : Z) : M unit :=
  fun s => Ok tt (set_curs inum c s).

(** Modelled from the spec: [bfsFindOFTE], missing from the sources; the
    open-file table binds one entry to every open inode, and the table of
    the model is indexed by the inode number. *)
Definition bfsFindOFTE (inum : Z) : M Z := ret inum.

(** [g_oft[ofte].curs], read and assigned in place. *)
Definition g_oft_curs (ofte : Z) : M Z :=
  fun s => Ok (g_oft s ofte) s.

Definition g_oft_set_curs (ofte c : Z) : M unit :=
  fun s => Ok tt (set_curs ofte c s).

(** Modelled from the spec: [bfsGetSize] (getSize), missing from the
    sources. *)
Definition bfsGetSize (inum : Z) : M Z :=
  fun s => Ok (i_size (inodes s inum)) s.

(** Modelled from the spec: [bfsSetSize] (setSize), missing from the
    sources. *)
Definition bfsSetSize (inum sz : Z) : M unit :=
  fun s => Ok tt (set_inode inum (mkInode sz (i_map (inodes s inum))) s).

(** Modelled from the spec: [bfsFbnToDbn] (resolveOrNone), missing from the
    sources; lookup only, never allocates.  [None] stands for the sentinel
    [ENODBN]. *)
Definition bfsFbnToDbn (inum fbn : Z) : M (option Z) :=
  fun s => Ok (i_map (inodes s inum) !! fbn) s.

(** Modelled from the spec: [bfsAllocBlock] (allocate), missing from the
    sources; it takes a free disk block, binds it to the logical position and
    fails fatally when storage is exhausted.  The contents of the block are
    left as they are on the disk. *)
Definition bfsAllocBlock (inum fbn : Z) : M Z :=
  fun s =>
    match freelist s with
    | [] => Fatal EDISKFULL s
    | dbn :: rest =>
        let i := inodes s inum in
        Ok dbn (set_freelist rest
                  (set_inode inum (mkInode (i_size i) (<[fbn := dbn]> (i_map i))) s))
    end.

(** Modelled from the spec: [bfsExtend] (extend), missing from the sources;
    the block map can address every logical block and allocation happens
    lazily per block in [bfsAllocBlock], so the call changes nothing. *)
Definition bfsExtend (inum fbn : Z) : M unit :=
  fun s => Ok tt s.

(** Modelled from the spec: [bfsExtend] (extend) in its eager form, the one
    that the comment at the call in [fsWrite] describes ("allocate new blocks
    as needed"): every logical block up to [fbn] that is not bound yet is
    bound to a free block, whose contents are left as they are on the
    disk. *)
Fixpoint extend_blocks (n : nat) (inum f : Z) : M unit :=
  match n with
  | O => ret tt
  | S n' =>
      let! dbn0 := bfsFbnToDbn inum f in
      do! (match dbn0 with
           | None => do! bfsAllocBlock inum f in ret tt
           | Some _ => ret tt
           end) in
      extend_blocks n' inum (f + 1)
  end.

Definition bfsExtend_eager (inum fbn : Z) : M unit :=
  extend_blocks (Z.to_nat (fbn + 1)) inum 0.

(** Modelled from the spec: [bioRead] (readBlock), missing from the sources;
    a whole-block transfer from the block store. *)
Definition bioRead (dbn : Z) : M (list byte) :=
  fun s => Ok (disk s dbn) (log_op (BioRead dbn) s).

(** Modelled from the spec: [bioWrite] (writeBlock), missing from the
    sources; a whole-block transfer to the block store. *)
Definition bioWrite (dbn : Z) (b : list byte) : M unit :=
  fun s => Ok tt (log_op (BioWrite dbn) (set_block dbn b s)).

Section FS.

(** The block size of [bfs.h] and the map from file descriptors to inode
    numbers, both missing from the sources. *)
Variable BYTESPERBLOCK : Z.
Variable bfsFdToInum : Z -> Z.

(** *** fsSize, fsTell *)

Definition fsSize (fd : Z) : M Z :=
  let inum := bfsFdToInum fd in
  bfsGetSize inum.

Definition fsTell (fd : Z) : M Z := bfsTell bfsFdToInum fd.

(** *** fsRead *)

(** The [while (bytesRead < bytesToRead)] loop of [fsRead]. *)
Fixpoint read_loop (fuel : nat) (inum bytesToRead : Z)
    (bytesRead fbn offset : Z) (buf : list byte) : M (Z * list byte) :=
  if bytesRead <? bytesToRead then
    match fuel with
    | O => fun _ => Diverge
    | S fuel' =>
        let! dbn := bfsFbnToDbn inum fbn in
        let! blockBuf :=
          match dbn with
          | Some d => bioRead d
          | None => ret (zeros BYTESPERBLOCK)
          end in
        let blockBytesToRead := sub32 BYTESPERBLOCK offset in
        let blockBytesToRead :=
          if bytesToRead <? add32 bytesRead blockBytesToRead
          then sub32 bytesToRead bytesRead
          else blockBytesToRead in
        let buf := memcpy buf bytesRead blockBuf offset blockBytesToRead in
        read_loop fuel' inum bytesToRead
          (add32 bytesRead blockBytesToRead) (add32 fbn 1) 0 buf
    end
  else ret (bytesRead, buf).

Definition fsRead (fd numb : Z) (buf : list byte) : M (Z * list byte) :=
  if numb <=? 0 then FATAL ENEGNUMB else
  let inum := bfsFdToInum fd in
  let! cursor := bfsTell bfsFdToInum fd in
  let! size := bfsGetSize inum in
  let bytesToRead :=
    if size <? add32 cursor numb then sub32 size cursor else numb in
  if bytesToRead <=? 0 then ret (0, buf) else
  let fbn := quot32 cursor BYTESPERBLOCK in
  let offset := rem32 cursor BYTESPERBLOCK in
  let! '(bytesRead, buf) :=
    read_loop (Z.to_nat bytesToRead) inum bytesToRead 0 fbn offset buf in
  do! bfsSetCursor inum (add32 cursor bytesRead) in
  ret (bytesRead, buf).

(** *** fsSeek *)

Definition fsSeek (fd offset whence : Z) : M Z :=
  if offset <? 0 then FATAL EBADCURS else
  let inum := bfsFdToInum fd in
  let! ofte := bfsFindOFTE inum in
  if whence =? SEEK_SET then
    do! g_oft_set_curs ofte offset in
    ret 0
  else if whence =? SEEK_CUR then
    let! curs := g_oft_curs ofte in
    do! g_oft_set_curs ofte (add32 curs offset) in
    ret 0
  else if whence =? SEEK_END then
    let! end_ := fsSize fd in
    do! g_oft_set_curs ofte (add32 end_ offset) in
    ret 0
  else FATAL EBADWHENCE.

(** *** fsWrite *)

(** The [while (gapStart < cursor)] loop of [fsWrite]. *)
Fixpoint gap_loop (fuel : nat) (inum cursor gapStart : Z) : M unit :=
  if gapStart <? cursor then
    match fuel with
    | O => fun _ => Diverge
    | S fuel' =>
        let fbn := quot32 gapStart BYTESPERBLOCK in
        let! dbn0 := bfsFbnToDbn inum fbn in
        let! dbn :=
          match dbn0 with
          | None => bfsAllocBlock inum fbn
          | Some d => ret d
          end in
        let zeroBlock := zeros BYTESPERBLOCK in
        do! bioWrite dbn zeroBlock in
        gap_loop fuel' inum cursor (add32 gapStart BYTESPERBLOCK)
    end
  else ret tt.

(** The [while (bytesWritten < numb)] loop of [fsWrite]. *)
Fixpoint write_loop (fuel : nat) (inum numb : Z) (buf : list byte)
    (bytesWritten fbn offset : Z) : M Z :=
  if bytesWritten <? numb then
    match fuel with
    | O => fun _ => Diverge
    | S fuel' =>
        let blockBuf := zeros BYTESPERBLOCK in
        let! dbn0 := bfsFbnToDbn inum fbn in
        let! '(dbn, blockBuf) :=
          match dbn0 with
          | None =>
              let! dbn := bfsAllocBlock inum fbn in
              ret (dbn, blockBuf)
          | Some d =>
              if negb (offset =? 0)
                 || (sub32 numb bytesWritten <? BYTESPERBLOCK)
              then
                let! b := bioRead d in
                ret (d, b)
              else ret (d, blockBuf)
          end in
        let blockBytesToWrite := sub32 BYTESPERBLOCK offset in
        let blockBytesToWrite :=
          if numb <? add32 bytesWritten blockBytesToWrite
          then sub32 numb bytesWritten
          else blockBytesToWrite in
        let blockBuf :=
          memcpy blockBuf offset buf bytesWritten blockBytesToWrite in
        do! bioWrite dbn blockBuf in
        write_loop fuel' inum numb buf
          (add32 bytesWritten blockBytesToWrite) (add32 fbn 1) 0
    end
  else ret bytesWritten.

Definition fsWrite (fd numb : Z) (buf : list byte) : M Z :=
  if numb <=? 0 then FATAL ENEGNUMB else
  let inum := bfsFdToInum fd in
  let! cursor := bfsTell bfsFdToInum fd in
  let! size := bfsGetSize inum in
  do! (if size <? add32 cursor numb then
         let newFbn := quot32 (sub32 (add32 cursor numb) 1) BYTESPERBLOCK in
         do! bfsExtend inum newFbn in
         do! (if size <? cursor then
                let gapStart := size in
                gap_loop (Z.to_nat (cursor - size)) inum cursor gapStart
              else ret tt) in
         bfsSetSize inum (add32 cursor numb)
       else ret tt) in
  let fbn := quot32 cursor BYTESPERBLOCK in
  let offset := rem32 cursor BYTESPERBLOCK in
  let! bytesWritten :=
    write_loop (Z.to_nat numb) inum numb buf 0 fbn offset in
  do! bfsSetCursor inum (add32 cursor bytesWritten) in
  ret 0.

(** [fsWrite] with the [extend] operation of the block service as a
    parameter; [fsWrite] is the instance for [bfsExtend]. *)
Definition fsWrite_with (extend : Z -> Z -> M unit) (fd numb : Z)
    (buf : list byte) : M Z :=
  if numb <=? 0 then FATAL ENEGNUMB else
  let inum := bfsFdToInum fd in
  let! cursor := bfsTell bfsFdToInum fd in
  let! size := bfsGetSize inum in
  do! (if size <? add32 cursor numb then
         let newFbn := quot32 (sub32 (add32 cursor numb) 1) BYTESPERBLOCK in
         do! extend inum newFbn in
         do! (if size <? cursor then
                let gapStart := size in
                gap_loop (Z.to_nat (cursor - size)) inum cursor gapStart
              else ret tt) in
         bfsSetSize inum (add32 cursor numb)
       else ret tt) in
  let fbn := quot32 cursor BYTESPERBLOCK in
  let offset := rem32 cursor BYTESPERBLOCK in
  let! bytesWritten :=
    write_loop (Z.to_nat numb) inum numb buf 0 fbn offset in
  do! bfsSetCursor inum (add32 cursor bytesWritten) in
  ret 0.

(** ** What the claims speak about *)

(** The byte stored at byte position [p] of the file of inode [inum]: the
    byte of the disk block bound to logical block [p / BYTESPERBLOCK], or
    zero in an unallocated block. *)
Definition byte_at (s : state) (inum p : Z) : byte :=
  match i_map (inodes s inum) !! (p / BYTESPERBLOCK) with
  | Some d => nthZ (disk s d) (p mod BYTESPERBLOCK)
  | None => x00
  end.

(** The block map of a file is sound: no disk block is bound to two logical
    blocks, no bound block is free, no block is free twice, and every disk
    block holds [BYTESPERBLOCK] bytes. *)
Record blocks_ok (s : state) (inum : Z) : Prop := mk_blocks_ok {
  bo_inj : forall f1 f2 d,
      i_map (inodes s inum) !! f1 = Some d ->
      i_map (inodes s inum) !! f2 = Some d -> f1 = f2;
  bo_free : forall f d,
      i_map (inodes s inum) !! f = Some d -> d ∉ freelist s;
  bo_nodup : NoDup (freelist s);
  bo_disk : forall d, length (disk s d) = Z.to_nat BYTESPERBLOCK
}.

(** A well-formed file: cursor and size are non-negative [i32] values and
    the block map is sound. *)
Record wf_file (s : state) (inum : Z) : Prop := mk_wf_file {
  wf_curs : 0 <= g_oft s inum <= INT_MAX;
  wf_size : 0 <= i_size (inodes s inum) <= INT_MAX;
  wf_blocks : blocks_ok s inum
}.

(** [s'] is reached from [s] by block allocations and the transfers [ops]:
    cursors and the file size are those of [s], and the bindings of [s] are
    kept. *)
Record extends (inum : Z) (s s' : state) (ops : list bio_op) : Prop :=
  mk_extends {
  ex_oft : g_oft s' = g_oft s;
  ex_size : i_size (inodes s' inum) = i_size (inodes s inum);
  ex_mono : forall f d,
      i_map (inodes s inum) !! f = Some d ->
      i_map (inodes s' inum) !! f = Some d;
  ex_log : biolog s' = biolog s ++ ops
}.

(** The blocks that the gap fill of a write at cursor [C] zeroes in a file
    of size [S]: the blocks of the positions [S], [S + BYTESPERBLOCK], ...
    below [C]. *)
Definition gap_filled (S C p : Z) : bool :=
  (S / BYTESPERBLOCK <=? p / BYTESPERBLOCK)
  && (S + (p / BYTESPERBLOCK - S / BYTESPERBLOCK) * BYTESPERBLOCK <? C).

(** No [i32] value computed by a read or write of [numb] bytes at the cursor
    leaves the range of [i32] (signed overflow is undefined in C). *)
Definition no_overflow (s : state) (fd numb : Z) : Prop :=
  g_oft s (bfsFdToInum fd) + numb + BYTESPERBLOCK <= INT_MAX.

(** The free list holds a block for every logical block that a write of
    [numb] bytes at the cursor can touch. *)
Definition enough_free (s : state) (fd numb : Z) : Prop :=
  g_oft s (bfsFdToInum fd) + numb + 3 * BYTESPERBLOCK
  <= BYTESPERBLOCK * Z.of_nat (length (freelist s)).

(** The state in which a call ended, if it ended. *)
Definition final_state {A : Type} (o : outcome A) : option state :=
  match o with
  | Ok _ s' => Some s'
  | Fatal _ s' => Some s'
  | Diverge => None
  end.

(** A call that ended left the cursors and the size of the file alone. *)
Definition keeps_size {A : Type} (inum : Z) (s : state) (o : outcome A)
  : Prop :=
  match final_state o with
  | Some s' =>
      g_oft s' = g_oft s /\ i_size (inodes s' inum) = i_size (inodes s inum)
  | None => True
  end.

(** The cursor that a seek asks for, as an integer. *)
Definition seek_target (s : state) (fd offset whence : Z) : Z :=
  if whence =? SEEK_SET then offset
  else if whence =? SEEK_CUR then g_oft s (bfsFdToInum fd) + offset
  else i_size (inodes s (bfsFdToInum fd)) + offset.

(** The cursor that a seek in one of the three modes computes and stores:
    the [i32] value, with the wrap-around of the addition. *)
Definition seek_cursor (s : state) (fd offset whence : Z) : Z :=
  if whence =? SEEK_SET then offset
  else if whence =? SEEK_CUR then add32 (g_oft s (bfsFdToInum fd)) offset
  else add32 (i_size (inodes s (bfsFdToInum fd))) offset.

(** The hole-filling invariant: every position below the file size that is
    not among the written positions [W] holds a zero byte, and every written
    position lies below the file size. *)
Definition hole_inv (W : Z -> Prop) (s : state) (inum : Z) : Prop :=
  (forall p, 0 <= p < i_size (inodes s inum) -> ~ W p ->
             byte_at s inum p = x00)
  /\ (forall p, W p -> 0 <= p < i_size (inodes s inum)).

(** No logical block that starts at or beyond the file size is bound to a
    disk block. *)
Definition bound_below_size (s : state) (inum : Z) : Prop :=
  forall f d, i_map (inodes s inum) !! f = Some d ->
              f * BYTESPERBLOCK < i_size (inodes s inum).

(** What a successful [fsWrite] of [numb] bytes of [buf] leaves behind. *)
Definition fsWrite_post (fd numb : Z) (buf : list byte) (s s' : state)
    (opsg opsw : list bio_op) : Prop :=
  let inum := bfsFdToInum fd in
  let C := g_oft s inum in
  let S := i_size (inodes s inum) in
  wf_file s' inum
  /\ g_oft s' inum = C + numb
  /\ i_size (inodes s' inum) = Z.max S (C + numb)
  /\ (forall f d, i_map (inodes s inum) !! f = Some d ->
                  i_map (inodes s' inum) !! f = Some d)
  /\ biolog s' = biolog s ++ opsg ++ opsw
  /\ NoDup opsg
  /\ Forall (fun o => exists d, o = BioWrite d) opsg
  /\ NoDup opsw
  /\ (forall p, byte_at s' inum p =
                if (C <=? p) && (p <? C + numb) then nthZ buf (p - C)
                else if (S <? C) && gap_filled S C p then x00
                else byte_at s inum p).

(** The calls of a session on one handle. *)
Inductive fs_call : Type :=
| CallRead (numb : Z) (buf : list byte)
| CallSeek (offset whence : Z)
| CallWrite (numb : Z) (buf : list byte).

Definition run_call (fd : Z) (c : fs_call) : M unit :=
  match c with
  | CallRead numb buf => do! fsRead fd numb buf in ret tt
  | CallSeek offset whence => do! fsSeek fd offset whence in ret tt
  | CallWrite numb buf => do! fsWrite fd numb buf in ret tt
  end.

(** The arithmetic of the call stays within [i32] and its buffer holds the
    bytes asked for. *)
Definition call_in_range (s : state) (fd : Z) (c : fs_call) : Prop :=
  match c with
  | CallRead numb buf =>
      0 < numb /\ no_overflow s fd numb /\ numb <= Z.of_nat (length buf)
  | CallSeek offset whence => seek_target s fd offset whence <= INT_MAX
  | CallWrite numb buf =>
      0 < numb /\ no_overflow s fd numb /\ numb <= Z.of_nat (length buf)
  end.

(** The positions written so far, after one more call. *)
Definition written_by (s : state) (fd : Z) (c : fs_call) (W : Z -> Prop)
  : Z -> Prop :=
  match c with
  | CallWrite numb _ =>
      fun p => W p \/ g_oft s (bfsFdToInum fd) <= p
                      < g_oft s (bfsFdToInum fd) + numb
  | _ => W
  end.

(** A sequence of successful calls from one state to another, with the
    written positions before and after. *)
Inductive runs (fd : Z)
  : (Z -> Prop) -> state -> (Z -> Prop) -> state -> Prop :=
| runs_done W s : runs fd W s W s
| runs_call W s c s1 W' s' :
    call_in_range s fd c ->
    run_call fd c s = Ok tt s1 ->
    runs fd (written_by s fd c W) s1 W' s' ->
    runs fd W s W' s'.

(** The file has no hole: every logical block that holds a position below
    the file size is bound to a disk block. *)
Definition blocks_dense (s : state) (inum : Z) : Prop :=
  forall f, 0 <= f -> f * BYTESPERBLOCK < i_size (inodes s inum) ->
            is_Some (i_map (inodes s inum) !! f).

(** A disk block that is foreign to the file: bound to none of its logical
    blocks and not on the free list. *)
Definition foreign_block (s : state) (inum d : Z) : Prop :=
  (forall f, i_map (inodes s inum) !! f <> Some d) /\ d ∉ freelist s.

(** [s'] differs from [s] in the file of [inum] only: the other inodes and
    cursors are those of [s], and the blocks foreign to the file stay
    foreign and keep their contents. *)
Definition own_frame (inum : Z) (s s' : state) : Prop :=
  (forall j, j <> inum -> inodes s' j = inodes s j /\ g_oft s' j = g_oft s j)
  /\ (forall d, foreign_block s inum d ->
                foreign_block s' inum d /\ disk s' d = disk s d).

(** The transfers that a call added to the log. *)
Definition add_log (ops : list bio_op) (s : state) : state :=
  mkState (g_oft s) (inodes s) (disk s) (freelist s) (biolog s ++ ops).

(** How often a block was read from, and written to, the block store. *)
Definition reads_of (d : Z) (ops : list bio_op) : nat :=
  count_occ bio_op_eq_dec ops (BioRead d).
Definition writes_of (d : Z) (ops : list bio_op) : nat :=
  count_occ bio_op_eq_dec ops (BioWrite d).

End FS.

(** ** A disk with one file

    Blocks of 512 bytes, file descriptors that are the inode numbers, and
    the file of inode 3. *)

Definition ex_digits : list byte := list_byte_of_string "0123456789".
Definition ex_letters : list byte := list_byte_of_string "ABCDE".

(** The file just created: empty, cursor 0, eight free blocks. *)
Definition ex_blank : state :=
  mkState (fun _ => 0) (fun _ => mkInode 0 ∅) (fun _ => zeros 512)
          [100; 101; 102; 103; 104; 105; 106; 107] [].

(** The file after [fsWrite(fd, 10, "0123456789")] and
    [fsSeek(fd, 1000, SEEK_SET)]: ten bytes in block 100, cursor 1000. *)
Definition ex_file : state :=
  mkState (upd (fun _ => 0) 3 1000)
          (upd (fun _ => mkInode 0 ∅) 3 (mkInode 10 {[0 := 100]}))
          (upd (fun _ => zeros 512) 100 (ex_digits ++ zeros 502))
          [101; 102; 103; 104; 105; 106; 107] [BioWrite 100].

(** The same file with the cursor at 4, six bytes before its end. *)
Definition ex_read : state := set_curs 3 4 ex_file.

(** The same file, cursor at 4, when no block is free. *)
Definition ex_full : state := set_freelist [] ex_read.

(** The disk with a second file, inode 5: five bytes in block 200. *)
Definition ex_two : state :=
  mkState (g_oft ex_file)
          (upd (inodes ex_file) 5 (mkInode 5 {[0 := 200]}))
          (upd (disk ex_file) 200 (ex_letters ++ zeros 507))
          (freelist ex_file) (biolog ex_file).

(** A file of 500 bytes, all zero, with the cursor at 1025, whose third
    logical block is bound already, to a disk block that holds the byte
    0x77 throughout: what an extension that binds blocks before they are
    written leaves behind. *)
Definition ex_stale : state :=
  mkState (upd (fun _ => 0) 3 1025)
          (upd (fun _ => mkInode 0 ∅) 3
               (mkInode 500 (<[0 := 100]> {[2 := 102]})))
          (upd (fun _ => zeros 512) 102 (replicate 512 x77))
          [101; 103; 104] [].

(** An empty file on a disk that was in use before: every block, the free
    ones too, holds the byte 0x77 throughout. *)
Definition ex_dirty : state :=
  mkState (fun _ => 0) (fun _ => mkInode 0 ∅) (fun _ => replicate 512 x77)
          [100; 101; 102; 103; 104; 105; 106; 107] [].

(** A file of ten bytes with the cursor at its end, whose block holds the
    byte 0x77 from the size on. *)
Definition ex_tail : state :=
  mkState (upd (fun _ => 0) 3 10)
          (upd (fun _ => mkInode 0 ∅) 3 (mkInode 10 {[0 := 100]}))
          (upd (fun _ => zeros 512) 100 (ex_digits ++ replicate 502 x77))
          [101; 102; 103; 104; 105; 106; 107] [BioWrite 100].

(** The positions of the ten bytes. *)
Definition ex_written : Z -> Prop := fun p => 0 <= p < 10.

(** On the example disk the file descriptor is the inode number. *)
Definition ex_inum (fd : Z) : Z := fd.

(** Nothing was written yet. *)
Definition ex_unwritten : Z -> Prop := fun _ => False.

(** * Properties *)

(** ** Machine arithmetic *)

Lemma wrap32_id z : INT_MIN <= z <= INT_MAX -> wrap32 z = z.
Proof.
  unfold INT_MIN, INT_MAX, wrap32. intros H.
  rewrite Z.mod_small by lia. lia.
Qed.

Lemma add32_id a b : INT_MIN <= a + b <= INT_MAX -> add32 a b = a + b.
Proof. apply wrap32_id. Qed.

Lemma sub32_id a b : INT_MIN <= a - b <= INT_MAX -> sub32 a b = a - b.
Proof. apply wrap32_id. Qed.

(** Past [INT_MAX] the sum of two [i32] values wraps around. *)
Lemma add32_wrap a b :
  INT_MAX < a + b <= 2 * INT_MAX -> add32 a b = a + b - 4294967296.
Proof.
  unfold INT_MAX, add32, wrap32. intros H.
  assert ((a + b + 2147483648) mod 4294967296 = a + b - 2147483648) as ->
    by (symmetry; apply (Z.mod_unique _ _ 1); lia).
  lia.
Qed.

Lemma quot32_id a b :
  0 <= a <= INT_MAX -> 0 < b -> quot32 a b = a / b.
Proof.
  intros Ha Hb. unfold quot32.
  rewrite Z.quot_div_nonneg by lia.
  apply wrap32_id.
  assert (0 <= a / b) by (apply Z.div_pos; lia).
  assert (a / b <= a) by (apply Z.div_le_upper_bound; nia).
  unfold INT_MIN. lia.
Qed.

Lemma rem32_id a b :
  0 <= a <= INT_MAX -> 0 < b -> rem32 a b = a mod b.
Proof.
  intros Ha Hb. unfold rem32.
  rewrite Z.rem_mod_nonneg by lia.
  apply wrap32_id.
  pose proof (Z.mod_pos_bound a b Hb).
  assert (a mod b <= a) by (apply Z.mod_le; lia).
  unfold INT_MIN. lia.
Qed.

(** Block number and offset of a byte position. *)
Lemma block_div f r b : 0 < b -> 0 <= r < b -> (f * b + r) / b = f.
Proof.
  intros Hb Hr. symmetry. apply (Z.div_unique_pos _ _ _ r); lia.
Qed.

Lemma block_mod f r b : 0 < b -> 0 <= r < b -> (f * b + r) mod b = r.
Proof.
  intros Hb Hr. symmetry. apply (Z.mod_unique_pos _ _ f r); lia.
Qed.

Lemma block_split p b : 0 < b -> p = (p / b) * b + p mod b /\ 0 <= p mod b < b.
Proof.
  intros Hb. split.
  - rewrite (Z.div_mod p b) at 1 by lia. lia.
  - apply Z.mod_pos_bound; lia.
Qed.

(** ** Buffers *)

Lemma nthZ_lookup l i : nthZ l i = default x00 (l !! Z.to_nat i).
Proof. unfold nthZ. apply nth_lookup. Qed.

Lemma nthZ_zeros n i : nthZ (zeros n) i = x00.
Proof.
  rewrite nthZ_lookup. unfold zeros.
  destruct (replicate (Z.to_nat n) x00 !! Z.to_nat i) eqn:E; [|done].
  apply lookup_replicate in E as [-> _]. done.
Qed.

Lemma length_zeros n : length (zeros n) = Z.to_nat n.
Proof. apply length_replicate. Qed.

Lemma memcpy_length dst doff src soff n :
  0 <= doff -> 0 <= soff -> 0 <= n ->
  doff + n <= Z.of_nat (length dst) -> soff + n <= Z.of_nat (length src) ->
  length (memcpy dst doff src soff n) = length dst.
Proof.
  intros. unfold memcpy.
  rewrite !length_app, !length_take, !length_drop. lia.
Qed.

Lemma nthZ_memcpy dst doff src soff n i :
  0 <= doff -> 0 <= soff -> 0 <= n ->
  doff + n <= Z.of_nat (length dst) -> soff + n <= Z.of_nat (length src) ->
  0 <= i ->
  nthZ (memcpy dst doff src soff n) i =
  if (doff <=? i) && (i <? doff + n)
  then nthZ src (soff + (i - doff)) else nthZ dst i.
Proof.
  intros Hd Hs Hn Hld Hls Hi. rewrite !nthZ_lookup. unfold memcpy.
  destruct (Z.leb_spec doff i) as [H1|H1]; simpl.
  - rewrite lookup_app_r by (rewrite length_take; lia).
    rewrite length_take.
    destruct (Z.ltb_spec i (doff + n)) as [H2|H2].
    + rewrite lookup_app_l by (rewrite length_take, length_drop; lia).
      rewrite lookup_take_lt by lia. rewrite lookup_drop.
      do 2 f_equal. lia.
    + rewrite lookup_app_r by (rewrite length_take, length_drop; lia).
      rewrite length_take, length_drop, lookup_drop.
      do 2 f_equal. lia.
  - rewrite lookup_app_l by (rewrite length_take; lia).
    rewrite lookup_take_lt by lia. done.
Qed.

(** ** States *)

Lemma upd_same {A} (f : Z -> A) k v : upd f k v k = v.
Proof. unfold upd. destruct (Z.eq_dec k k); congruence. Qed.

Lemma upd_other {A} (f : Z -> A) k v x : x <> k -> upd f k v x = f x.
Proof. unfold upd. destruct (Z.eq_dec x k); congruence. Qed.

Lemma add_log_nil s : add_log [] s = s.
Proof. destruct s. unfold add_log. simpl. by rewrite app_nil_r. Qed.

Lemma add_log_log_op o s : log_op o s = add_log [o] s.
Proof. reflexivity. Qed.

Lemma add_log_app ops1 ops2 s :
  add_log ops2 (add_log ops1 s) = add_log (ops1 ++ ops2) s.
Proof. unfold add_log. simpl. by rewrite app_assoc. Qed.

Section FSProofs.

Variable BYTESPERBLOCK : Z.
Variable bfsFdToInum : Z -> Z.
Hypothesis BPB_pos : 0 < BYTESPERBLOCK.

Local Abbreviation B := BYTESPERBLOCK.

(** The bytes that one loop iteration moves: the rest of the block, cut at
    the end of the request. *)
Lemma span_id total done off :
  0 <= off < B -> 0 <= done < total -> total + B <= INT_MAX ->
  (if total <? add32 done (sub32 B off)
   then sub32 total done else sub32 B off)
  = Z.min (B - off) (total - done).
Proof.
  intros Ho Hd Hm. unfold INT_MAX in Hm.
  rewrite (sub32_id B off) by (unfold INT_MIN, INT_MAX; lia).
  rewrite add32_id by (unfold INT_MIN, INT_MAX; lia).
  rewrite (sub32_id total) by (unfold INT_MIN, INT_MAX; lia).
  destruct (Z.ltb_spec total (done + (B - off))); lia.
Qed.

Lemma byte_at_add_log ops s inum p :
  byte_at B (add_log ops s) inum p = byte_at B s inum p.
Proof. reflexivity. Qed.

Lemma byte_at_block s inum f r :
  0 <= r < B ->
  byte_at B s inum (f * B + r) =
  match i_map (inodes s inum) !! f with
  | Some d => nthZ (disk s d) r
  | None => x00
  end.
Proof.
  intros Hr. unfold byte_at.
  rewrite block_div, block_mod by lia. done.
Qed.

(** *** fsSeek *)

Lemma fsSeek_unfold fd offset whence s :
  let inum := bfsFdToInum fd in
  fsSeek bfsFdToInum fd offset whence s =
  if offset <? 0 then Fatal EBADCURS s
  else if whence =? SEEK_SET then Ok 0 (set_curs inum offset s)
  else if whence =? SEEK_CUR
       then Ok 0 (set_curs inum (add32 (g_oft s inum) offset) s)
  else if whence =? SEEK_END
       then Ok 0 (set_curs inum (add32 (i_size (inodes s inum)) offset) s)
  else Fatal EBADWHENCE s.
Proof.
  intros inum. unfold fsSeek. fold inum.
  destruct (offset <? 0); [done|].
  unfold bind at 1, bfsFindOFTE, ret at 1.
  destruct (whence =? SEEK_SET); [done|].
  destruct (whence =? SEEK_CUR); [done|].
  destruct (whence =? SEEK_END); done.
Qed.

(** *** The read loop *)

Lemma read_loop_spec fuel : forall inum N n fbn off buf s,
  0 <= n <= N -> 0 <= fbn -> 0 <= off < B ->
  fbn + (N - n) < INT_MAX ->
  N + B <= INT_MAX ->
  N <= Z.of_nat (length buf) ->
  (forall d, length (disk s d) = Z.to_nat B) ->
  (forall f1 f2 d,
      i_map (inodes s inum) !! f1 = Some d ->
      i_map (inodes s inum) !! f2 = Some d -> f1 = f2) ->
  (Z.to_nat (N - n) <= fuel)%nat ->
  exists buf' ops,
    read_loop B fuel inum N n fbn off buf s = Ok (N, buf') (add_log ops s)
    /\ length buf' = length buf
    /\ (forall i, 0 <= i < Z.of_nat (length buf) ->
          nthZ buf' i =
          if (n <=? i) && (i <? N)
          then byte_at B s inum (fbn * B + off + (i - n))
          else nthZ buf i)
    /\ NoDup ops
    /\ Forall (fun o => exists f d,
                 fbn <= f /\ i_map (inodes s inum) !! f = Some d
                 /\ o = BioRead d) ops.
Proof.
  induction fuel as [|fuel IH];
    intros inum N n fbn off buf s Hn Hf Ho Hmax HN Hbuf Hdisk Hinj Hfuel.
  - assert (n = N) as -> by lia.
    exists buf, []. simpl. rewrite Z.ltb_irrefl, add_log_nil.
    repeat split; auto using NoDup_nil_2.
    intros i Hi. destruct (Z.leb_spec N i), (Z.ltb_spec i N); simpl; auto; lia.
  - simpl read_loop. destruct (Z.ltb_spec n N) as [Hlt|Hge].
    2:{ assert (n = N) as -> by lia.
        exists buf, []. unfold ret. rewrite add_log_nil.
        repeat split; auto using NoDup_nil_2.
        intros i Hi.
        destruct (Z.leb_spec N i), (Z.ltb_spec i N); simpl; auto; lia. }
    rewrite span_id by lia.
    set (len := Z.min (B - off) (N - n)).
    assert (Hlen : 0 < len <= B - off /\ len <= N - n) by (unfold len; lia).
    rewrite (add32_id n len) by (unfold INT_MIN, INT_MAX in *; lia).
    rewrite (add32_id fbn 1) by (unfold INT_MIN, INT_MAX in *; lia).
    unfold bind at 1. unfold bfsFbnToDbn at 1.
    set (blk := match i_map (inodes s inum) !! fbn with
                | Some d => disk s d | None => zeros B end).
    set (ops1 := match i_map (inodes s inum) !! fbn with
                 | Some d => [BioRead d] | None => [] end).
    assert (Hblk : length blk = Z.to_nat B).
    { unfold blk. destruct (_ !! fbn); [apply Hdisk | apply length_zeros]. }
    assert (Hlenbuf1 :
              length (memcpy buf n blk off len) = length buf)
      by (apply memcpy_length; lia).
    destruct (IH inum N (n + len) (fbn + 1) 0
                (memcpy buf n blk off len) (add_log ops1 s))
      as (buf' & ops & Hrun & Hlen' & Hbytes & Hnd & Hall);
      [lia | lia | lia | lia | lia | lia | exact Hdisk | exact Hinj | lia |].
    exists buf', (ops1 ++ ops).
    assert (Hstep :
      bind (match i_map (inodes s inum) !! fbn with
            | Some d => bioRead d | None => ret (zeros B) end)
        (fun blockBuf =>
           read_loop B fuel inum N (n + len) (fbn + 1) 0
             (memcpy buf n blockBuf off len)) s
      = Ok (N, buf') (add_log (ops1 ++ ops) s)).
    { unfold bind, blk, ops1 in *.
      destruct (i_map (inodes s inum) !! fbn) as [d|];
        unfold bioRead, ret; rewrite ?add_log_log_op, ?add_log_nil in *;
        rewrite Hrun, ?add_log_app; done. }
    split; [exact Hstep|].
    split; [congruence|].
    split; [|split].
    + intros i Hi. rewrite Hbytes by lia.
      rewrite byte_at_add_log.
      rewrite nthZ_memcpy by lia.
      destruct (Z.leb_spec (n + len) i), (Z.ltb_spec i N),
        (Z.leb_spec n i), (Z.ltb_spec i (n + len)); simpl; try lia; auto.
      * f_equal. unfold len in *. lia.
      * replace (fbn * B + off + (i - n)) with (fbn * B + (off + (i - n)))
          by lia.
        rewrite byte_at_block by lia. unfold blk.
        destruct (_ !! fbn); [done | apply nthZ_zeros].
    + apply NoDup_app. split; [|split]; auto.
      * unfold ops1. destruct (_ !! fbn); [apply NoDup_singleton | apply NoDup_nil_2].
      * intros o Ho1 Ho2. unfold ops1 in Ho1.
        destruct (i_map (inodes s inum) !! fbn) as [d|] eqn:E;
          [|by apply elem_of_nil in Ho1].
        apply list_elem_of_singleton in Ho1 as ->.
        rewrite Forall_forall in Hall.
        destruct (Hall _ Ho2) as (f & d' & Hf' & Hm & Heq).
        inversion Heq; subst d'. simpl in Hm.
        specialize (Hinj _ _ _ E Hm). lia.
    + apply Forall_app. split.
      * unfold ops1. destruct (i_map (inodes s inum) !! fbn) as [d|] eqn:E;
          [|constructor].
        repeat constructor. exists fbn, d. repeat split; auto; lia.
      * eapply Forall_impl; [exact Hall|].
        intros o (f & d & Hf' & Hm & Heq). exists f, d.
        repeat split; auto; lia.
Qed.

(** *** fsRead *)

Lemma fsRead_spec fd numb buf s :
  let inum := bfsFdToInum fd in
  let C := g_oft s inum in
  let n := Z.max 0 (Z.min numb (i_size (inodes s inum) - C)) in
  wf_file B s inum -> 0 < numb -> no_overflow B bfsFdToInum s fd numb ->
  numb <= Z.of_nat (length buf) ->
  exists buf' ops,
    fsRead B bfsFdToInum fd numb buf s =
      Ok (n, buf')
         (if n =? 0 then s else set_curs inum (C + n) (add_log ops s))
    /\ length buf' = length buf
    /\ (forall i, 0 <= i < Z.of_nat (length buf) ->
          nthZ buf' i =
          if i <? n then byte_at B s inum (C + i) else nthZ buf i)
    /\ (n = 0 -> ops = [])
    /\ NoDup ops
    /\ Forall (fun o => exists f d,
                 i_map (inodes s inum) !! f = Some d /\ o = BioRead d) ops.
Proof.
  intros inum C n Hwf Hnumb Hov Hbuf.
  destruct Hwf as [Hc Hs [Hinj _ _ Hdisk]]. fold C in Hc.
  unfold no_overflow in Hov. fold inum C in Hov.
  unfold fsRead. fold inum.
  destruct (Z.leb_spec numb 0) as [?|_]; [lia|].
  unfold bind at 1, bfsTell at 1. fold inum C.
  unfold bind at 1, bfsGetSize at 1.
  set (S := i_size (inodes s inum)) in *.
  rewrite (add32_id C numb) by (unfold INT_MIN, INT_MAX in *; lia).
  rewrite (sub32_id S C) by (unfold INT_MIN, INT_MAX in *; lia).
  set (bytesToRead := if S <? C + numb then S - C else numb).
  assert (Hbtr : bytesToRead = Z.min numb (S - C))
    by (unfold bytesToRead; destruct (Z.ltb_spec S (C + numb)); lia).
  destruct (Z.leb_spec bytesToRead 0) as [Hle|Hgt].
  - assert (n = 0) as -> by (unfold n; lia).
    exists buf, []. simpl. repeat split; auto using NoDup_nil_2.
    intros i Hi. destruct (Z.ltb_spec i 0); [lia | done].
  - assert (Hn : n = bytesToRead) by (unfold n; lia).
    rewrite quot32_id, rem32_id by lia.
    destruct (block_split C B BPB_pos) as [HC Hoff].
    assert (0 <= C / B <= C).
    { split; [apply Z.div_pos; lia|]. apply Z.div_le_upper_bound; nia. }
    destruct (read_loop_spec (Z.to_nat bytesToRead) inum bytesToRead 0
                (C / B) (C mod B) buf s)
      as (buf' & ops & Hrun & Hlen & Hbytes & Hnd & Hall);
      [lia | lia | lia | unfold INT_MAX in *; lia | unfold INT_MAX in *; lia
      | lia | exact Hdisk | exact Hinj | lia |].
    exists buf', ops. unfold bind at 1. rewrite Hrun.
    unfold bind, bfsSetCursor, ret.
    rewrite add32_id by (unfold INT_MIN, INT_MAX in *; lia).
    rewrite Hn. destruct (Z.eqb_spec bytesToRead 0) as [?|_]; [lia|].
    split; [done|]. split; [done|]. split; [|split; [lia|split; [done|]]].
    + intros i Hi. rewrite Hbytes by lia.
      destruct (Z.leb_spec 0 i), (Z.ltb_spec i bytesToRead); simpl;
        try lia; auto.
      f_equal. lia.
    + eapply Forall_impl; [exact Hall|].
      intros o (f & d & _ & Hm & Heq). eauto.
Qed.

(** *** Allocation and block writes *)

Lemma extends_refl inum s : extends inum s s [].
Proof. split; auto. by rewrite app_nil_r. Qed.

Lemma extends_trans inum s1 s2 s3 ops1 ops2 :
  extends inum s1 s2 ops1 -> extends inum s2 s3 ops2 ->
  extends inum s1 s3 (ops1 ++ ops2).
Proof.
  intros [Ho1 Hs1 Hm1 Hl1] [Ho2 Hs2 Hm2 Hl2]. split.
  - congruence.
  - congruence.
  - auto.
  - rewrite Hl2, Hl1. by rewrite app_assoc.
Qed.

Lemma blocks_ok_log_op o s inum :
  blocks_ok B s inum -> blocks_ok B (log_op o s) inum.
Proof. intros [H1 H2 H3 H4]. split; auto. Qed.

Lemma extends_log_op inum o s : extends inum s (log_op o s) [o].
Proof. split; auto. Qed.

Lemma bfsAllocBlock_spec inum fbn s :
  blocks_ok B s inum ->
  i_map (inodes s inum) !! fbn = None ->
  0 < Z.of_nat (length (freelist s)) ->
  exists d s1,
    bfsAllocBlock inum fbn s = Ok d s1
    /\ blocks_ok B s1 inum
    /\ extends inum s s1 []
    /\ i_map (inodes s1 inum) !! fbn = Some d
    /\ Z.of_nat (length (freelist s)) = Z.of_nat (length (freelist s1)) + 1
    /\ (forall p, p / B <> fbn -> byte_at B s1 inum p = byte_at B s inum p).
Proof.
  intros [Hinj Hfree Hnd Hdisk] Hnone Hlen. unfold bfsAllocBlock.
  destruct (freelist s) as [|d rest] eqn:Efl; [simpl in Hlen; lia|].
  apply NoDup_cons in Hnd as [Hd Hnd].
  eexists _, _. split; [reflexivity|].
  split; [|split; [|split; [|split]]].
  - split; simpl; rewrite ?upd_same; simpl; auto.
    + intros f1 f2 d0 H1 H2.
      rewrite lookup_insert in H1, H2.
      destruct (decide (fbn = f1)), (decide (fbn = f2)); simplify_eq; auto.
      * exfalso. apply (Hfree _ _ H2). left.
      * exfalso. apply (Hfree _ _ H1). left.
      * eauto.
    + intros f d0 H1. rewrite lookup_insert in H1.
      destruct (decide (fbn = f)); simplify_eq; auto.
      intros Hin. apply (Hfree _ _ H1). by right.
  - split; simpl; rewrite ?upd_same; simpl; auto.
    + intros f d0 H1. rewrite lookup_insert_ne; [done|]. congruence.
    + by rewrite app_nil_r.
  - simpl. rewrite upd_same. simpl. apply lookup_insert_eq.
  - simpl. lia.
  - intros p Hp. unfold byte_at. simpl. rewrite upd_same. simpl.
    rewrite lookup_insert_ne by congruence. done.
Qed.

Lemma bioWrite_spec inum fbn d blk s :
  blocks_ok B s inum ->
  i_map (inodes s inum) !! fbn = Some d ->
  length blk = Z.to_nat B ->
  let s1 := log_op (BioWrite d) (set_block d blk s) in
  blocks_ok B s1 inum
  /\ extends inum s s1 [BioWrite d]
  /\ freelist s1 = freelist s
  /\ (forall p, byte_at B s1 inum p =
                if p / B =? fbn then nthZ blk (p mod B)
                else byte_at B s inum p).
Proof.
  intros [Hinj Hfree Hnd Hdisk] Hmap Hlen s1.
  split; [|split; [|split]].
  - split; simpl; auto.
    intros d'. unfold upd. destruct (Z.eq_dec d' d); auto.
  - split; simpl; auto.
  - done.
  - intros p. unfold byte_at. simpl.
    destruct (Z.eqb_spec (p / B) fbn) as [->|Hne].
    + rewrite Hmap, upd_same. done.
    + destruct (i_map (inodes s inum) !! (p / B)) as [d'|] eqn:E; [|done].
      rewrite upd_other; [done|].
      intros ->. apply Hne. eauto.
Qed.

Lemma resolve_or_alloc_spec inum fbn s :
  blocks_ok B s inum ->
  (exists d s1,
    (let! dbn0 := bfsFbnToDbn inum fbn in
     match dbn0 with
     | None => bfsAllocBlock inum fbn
     | Some d => ret d
     end) s = Ok d s1
    /\ blocks_ok B s1 inum
    /\ extends inum s s1 []
    /\ i_map (inodes s1 inum) !! fbn = Some d
    /\ (Z.of_nat (length (freelist s)) = Z.of_nat (length (freelist s1)) + 1
        \/ Z.of_nat (length (freelist s)) = Z.of_nat (length (freelist s1)))
    /\ (forall p, p / B <> fbn -> byte_at B s1 inum p = byte_at B s inum p))
  \/ ((let! dbn0 := bfsFbnToDbn inum fbn in
       match dbn0 with
       | None => bfsAllocBlock inum fbn
       | Some d => ret d
       end) s = Fatal EDISKFULL s
      /\ freelist s = []).
Proof.
  intros Hok. unfold bind, bfsFbnToDbn.
  destruct (i_map (inodes s inum) !! fbn) as [d|] eqn:E.
  - left. exists d, s. unfold ret.
    split; [done|]. split; [done|]. split; [apply extends_refl|].
    split; [done|]. split; [by right|]. done.
  - destruct (freelist s) as [|d0 rest] eqn:Efl.
    + right. unfold bfsAllocBlock. by rewrite Efl.
    + left.
      destruct (bfsAllocBlock_spec inum fbn s Hok E)
        as (d & s1 & Hrun & Hok1 & Hex & Hm & Hl & Hb);
        [rewrite Efl; simpl; lia|].
      exists d, s1.
      split; [done|]. split; [done|]. split; [done|].
      split; [done|]. split; [left; by rewrite <- Efl|]. done.
Qed.

(** *** The gap-fill loop *)

Lemma div_add_block g : (g + B) / B = g / B + 1.
Proof.
  replace (g + B) with (g + 1 * B) by lia. apply Z.div_add. lia.
Qed.

Lemma gap_filled_step g C p :
  g < C ->
  gap_filled B g C p = (p / B =? g / B) || gap_filled B (g + B) C p.
Proof.
  intros Hg. unfold gap_filled. rewrite div_add_block.
  destruct (Z.eqb_spec (p / B) (g / B)) as [->|Hne]; simpl.
  - rewrite Z.leb_refl. simpl. apply Z.ltb_lt. lia.
  - destruct (Z.leb_spec (g / B) (p / B)), (Z.leb_spec (g / B + 1) (p / B));
      simpl; try lia; auto; try (f_equal; lia).
Qed.

Lemma gap_filled_done g C p : C <= g -> gap_filled B g C p = false.
Proof.
  intros Hg. unfold gap_filled.
  destruct (Z.leb_spec (g / B) (p / B)); simpl; auto.
  apply Z.ltb_ge. nia.
Qed.

(** The loop either zeroes the blocks of [gap_filled], or it aborts because
    the free list was too short. *)
Lemma gap_loop_spec fuel : forall inum C g s,
  blocks_ok B s inum -> 0 <= g -> C + B <= INT_MAX ->
  (Z.to_nat (C - g) <= fuel)%nat ->
  (exists s' ops,
    gap_loop B fuel inum C g s = Ok tt s'
    /\ blocks_ok B s' inum
    /\ extends inum s s' ops
    /\ NoDup ops
    /\ Forall (fun o => exists f d,
                 g / B <= f /\ i_map (inodes s' inum) !! f = Some d
                 /\ o = BioWrite d) ops
    /\ B * Z.of_nat (length (freelist s))
       <= B * Z.of_nat (length (freelist s')) + Z.max 0 (C - g + B - 1)
    /\ (forall p, byte_at B s' inum p =
                  if gap_filled B g C p then x00 else byte_at B s inum p))
  \/ (exists s',
       gap_loop B fuel inum C g s = Fatal EDISKFULL s'
       /\ g < C /\ B * Z.of_nat (length (freelist s)) < C - g + B).
Proof.
  induction fuel as [|fuel IH]; intros inum C g s Hok Hg HC Hfuel.
  - assert (C <= g) by lia. left.
    exists s, []. simpl. destruct (Z.ltb_spec g C); [lia|].
    split; [done|]. split; [done|]. split; [apply extends_refl|].
    split; [apply NoDup_nil_2|]. split; [constructor|]. split; [lia|].
    intros p. by rewrite gap_filled_done.
  - simpl gap_loop. destruct (Z.ltb_spec g C) as [Hlt|Hge].
    2:{ left. exists s, [].
        split; [done|]. split; [done|]. split; [apply extends_refl|].
        split; [apply NoDup_nil_2|]. split; [constructor|]. split; [lia|].
        intros p. by rewrite gap_filled_done. }
    rewrite quot32_id by (unfold INT_MAX in *; lia).
    rewrite add32_id by (unfold INT_MIN, INT_MAX in *; lia).
    destruct (resolve_or_alloc_spec inum (g / B) s Hok)
      as [(d & s1 & Hrun1 & Hok1 & Hex1 & Hm1 & Hl1 & Hb1) | [Hrun1 Hnil]].
    2:{ right. exists s. split; [|split; [done|rewrite Hnil; simpl; lia]].
        unfold bind, bfsFbnToDbn in Hrun1 |- *. by rewrite Hrun1. }
    destruct (bioWrite_spec inum (g / B) d (zeros B) s1 Hok1 Hm1
                (length_zeros B)) as (Hok2 & Hex2 & Hl2 & Hb2).
    set (s2 := log_op (BioWrite d) (set_block d (zeros B) s1)) in *.
    assert (Hstep : forall o,
      gap_loop B fuel inum C (g + B) s2 = o ->
      (let! dbn0 := bfsFbnToDbn inum (g / B) in
       let! dbn := match dbn0 with
                   | Some d0 => ret d0
                   | None => bfsAllocBlock inum (g / B)
                   end in
       do! bioWrite dbn (zeros B) in
       gap_loop B fuel inum C (g + B)) s = o).
    { intros o Ho. unfold bind, bfsFbnToDbn in Hrun1 |- *.
      rewrite Hrun1. unfold bioWrite. exact Ho. }
    destruct (IH inum C (g + B) s2 Hok2) as
      [(s' & ops & Hrun & Hok' & Hex' & Hnd & Hall & Hl' & Hb')
      | (s' & Hrun & Hlt' & Hl')]; [lia | lia | lia | |].
    2:{ right. exists s'. split; [by apply Hstep|]. split; [done|].
        rewrite Hl2 in Hl'. lia. }
    left. exists s', ([BioWrite d] ++ ops).
    split; [by apply Hstep|].
    split; [exact Hok'|].
    split.
    { change ([BioWrite d] ++ ops) with (([] ++ [BioWrite d]) ++ ops).
      eauto using extends_trans. }
    assert (Hd' : i_map (inodes s' inum) !! (g / B) = Some d).
    { apply Hex', Hex2, Hm1. }
    split; [|split; [|split]].
    + apply NoDup_app. split; [apply NoDup_singleton|]. split; [|done].
      intros o Ho1 Ho2. apply list_elem_of_singleton in Ho1 as ->.
      rewrite Forall_forall in Hall.
      destruct (Hall _ Ho2) as (f & d' & Hf & Hm & Heq).
      inversion Heq; subst d'. rewrite div_add_block in Hf.
      pose proof (bo_inj _ _ _ Hok' _ _ _ Hd' Hm). lia.
    + apply Forall_app. split.
      * repeat constructor. exists (g / B), d. repeat split; auto; lia.
      * eapply Forall_impl; [exact Hall|].
        intros o (f & d' & Hf & Hm & Heq). rewrite div_add_block in Hf.
        exists f, d'. repeat split; auto; lia.
    + rewrite Hl2 in Hl'. lia.
    + intros p. rewrite Hb', Hb2, (gap_filled_step g C p Hlt).
      destruct (Z.eqb_spec (p / B) (g / B)) as [Heq|Hne]; simpl.
      * rewrite nthZ_zeros. by destruct (gap_filled B (g + B) C p).
      * rewrite Hb1 by done. done.
Qed.

(** *** The write loop *)

(** One iteration: resolve or allocate the block, read it when only a part
    of it is written, copy the bytes in and write the block back; or abort
    when a block is needed and none is free. *)
Lemma write_iter_spec inum N buf n fbn off len (K : M Z) s :
  blocks_ok B s inum ->
  0 <= n < N -> 0 <= off < B -> N + B <= INT_MAX ->
  len = Z.min (B - off) (N - n) ->
  N <= Z.of_nat (length buf) ->
  exists o,
    (let! dbn0 := bfsFbnToDbn inum fbn in
     let! '(dbn, blockBuf) :=
       match dbn0 with
       | None =>
           let! dbn := bfsAllocBlock inum fbn in
           ret (dbn, zeros B)
       | Some d =>
           if negb (off =? 0) || (sub32 N n <? B)
           then
             let! b := bioRead d in
             ret (d, b)
           else ret (d, zeros B)
       end in
     do! bioWrite dbn (memcpy blockBuf off buf n len) in
     K) s = o
    /\ ((exists d s2 ops1,
          o = K s2
          /\ blocks_ok B s2 inum
          /\ extends inum s s2 ops1
          /\ i_map (inodes s2 inum) !! fbn = Some d
          /\ (ops1 = [BioWrite d] \/ ops1 = [BioRead d; BioWrite d])
          /\ (Z.of_nat (length (freelist s))
              = Z.of_nat (length (freelist s2)) + 1
              \/ Z.of_nat (length (freelist s))
                 = Z.of_nat (length (freelist s2)))
          /\ (forall p, byte_at B s2 inum p =
                        if (fbn * B + off <=? p) && (p <? fbn * B + off + len)
                        then nthZ buf (n + (p - (fbn * B + off)))
                        else byte_at B s inum p))
        \/ (o = Fatal EDISKFULL s /\ freelist s = [])).
Proof.
  intros Hok Hn Hoff HN Hlen Hbuf.
  rewrite sub32_id by (unfold INT_MIN, INT_MAX in *; lia).
  (* the bytes of the block after the copy *)
  assert (Hblk : forall base r,
    length base = Z.to_nat B -> 0 <= r < B ->
    length (memcpy base off buf n len) = Z.to_nat B
    /\ nthZ (memcpy base off buf n len) r =
       if (off <=? r) && (r <? off + len)
       then nthZ buf (n + (r - off)) else nthZ base r).
  { intros base r Hb Hr. split.
    - rewrite memcpy_length; try lia.
    - apply nthZ_memcpy; lia. }
  (* positions of the block *)
  assert (Hpos : forall p,
    (fbn * B + off <=? p) && (p <? fbn * B + off + len) = true ->
    p / B = fbn).
  { intros p Hp. apply andb_true_iff in Hp as [H1%Z.leb_le H2%Z.ltb_lt].
    replace p with (fbn * B + (p - fbn * B)) by lia.
    apply block_div; lia. }
  assert (Hin : forall p, p / B = fbn ->
    ((fbn * B + off <=? p) && (p <? fbn * B + off + len))
    = ((off <=? p mod B) && (p mod B <? off + len))
    /\ n + (p - (fbn * B + off)) = n + (p mod B - off)
    /\ 0 <= p mod B < B).
  { intros p Hp. destruct (block_split p B BPB_pos) as [Hsplit Hr].
    rewrite Hp in Hsplit. split; [|split; [lia|done]].
    destruct (Z.leb_spec (fbn * B + off) p), (Z.leb_spec off (p mod B)),
      (Z.ltb_spec p (fbn * B + off + len)),
      (Z.ltb_spec (p mod B) (off + len)); simpl; auto; lia. }
  eexists. split; [reflexivity|].
  unfold bind at 1. unfold bfsFbnToDbn at 1.
  destruct (i_map (inodes s inum) !! fbn) as [d|] eqn:E.
  - left. destruct (negb (off =? 0) || (N - n <? B)) eqn:Econd.
    + (* an existing block, partly written: read, modify, write *)
      pose proof (blocks_ok_log_op (BioRead d) s inum Hok) as Hok1.
      destruct (bioWrite_spec inum fbn d (memcpy (disk s d) off buf n len)
                  (log_op (BioRead d) s) Hok1 E) as (Hok2 & Hex2 & Hl2 & Hb2).
      { apply Hblk with (r := 0); [apply Hok | lia]. }
      eexists d, _, [BioRead d; BioWrite d].
      split; [reflexivity|]. split; [exact Hok2|].
      split; [exact (extends_trans _ _ _ _ _ _
                       (extends_log_op inum (BioRead d) s) Hex2)|].
      split; [exact E|]. split; [by right|]. split; [by right|].
      intros p. rewrite Hb2.
      destruct (Z.eqb_spec (p / B) fbn) as [Hp|Hp].
      * destruct (Hin p Hp) as (-> & -> & Hr).
        destruct (Hblk (disk s d) (p mod B)) as [_ ->];
          [apply Hok | done |].
        destruct ((off <=? p mod B) && (p mod B <? off + len)); [done|].
        unfold byte_at. rewrite Hp. simpl. by rewrite E.
      * destruct ((fbn * B + off <=? p) && (p <? fbn * B + off + len)) eqn:Ep;
          [by apply Hpos in Ep | done].
    + (* an existing block, wholly overwritten *)
      apply orb_false_iff in Econd as [Ho1 Ho2].
      apply negb_false_iff, Z.eqb_eq in Ho1. apply Z.ltb_ge in Ho2.
      destruct (bioWrite_spec inum fbn d (memcpy (zeros B) off buf n len)
                  s Hok E) as (Hok2 & Hex2 & Hl2 & Hb2).
      { apply Hblk with (r := 0); [apply length_zeros | lia]. }
      eexists d, _, [BioWrite d].
      split; [reflexivity|]. split; [exact Hok2|]. split; [exact Hex2|].
      split; [exact E|]. split; [by left|]. split; [by right|].
      intros p. rewrite Hb2.
      destruct (Z.eqb_spec (p / B) fbn) as [Hp|Hp].
      * destruct (Hin p Hp) as (-> & -> & Hr).
        destruct (Hblk (zeros B) (p mod B)) as [_ ->];
          [apply length_zeros | done |].
        destruct (Z.leb_spec off (p mod B)), (Z.ltb_spec (p mod B) (off + len));
          simpl; auto; lia.
      * destruct ((fbn * B + off <=? p) && (p <? fbn * B + off + len)) eqn:Ep;
          [by apply Hpos in Ep | done].
  - destruct (freelist s) as [|d0 rest] eqn:Efl.
    { right. unfold bind, bfsFbnToDbn, bfsAllocBlock. by rewrite E, Efl. }
    left.
    (* a new block *)
    destruct (bfsAllocBlock_spec inum fbn s Hok E)
      as (d & s1 & Hrun & Hok1 & Hex1 & Hm1 & Hl1 & Hb1);
      [rewrite Efl; simpl; lia|].
    destruct (bioWrite_spec inum fbn d (memcpy (zeros B) off buf n len)
                s1 Hok1 Hm1) as (Hok2 & Hex2 & Hl2 & Hb2).
    { apply Hblk with (r := 0); [apply length_zeros | lia]. }
    eexists d, _, [BioWrite d].
    split.
    { unfold bind. rewrite Hrun. unfold ret, bioWrite. reflexivity. }
    split; [exact Hok2|].
    split; [exact (extends_trans _ _ _ _ _ _ Hex1 Hex2)|].
    split; [exact Hm1|]. split; [by left|].
    split; [left; rewrite Hl2, <- Efl; exact Hl1|].
    intros p. rewrite Hb2.
    destruct (Z.eqb_spec (p / B) fbn) as [Hp|Hp].
    * destruct (Hin p Hp) as (-> & -> & Hr).
      destruct (Hblk (zeros B) (p mod B)) as [_ ->];
        [apply length_zeros | done |].
      destruct ((off <=? p mod B) && (p mod B <? off + len)); [done|].
      rewrite nthZ_zeros. unfold byte_at. rewrite Hp. by rewrite E.
    * rewrite Hb1 by done.
      destruct ((fbn * B + off <=? p) && (p <? fbn * B + off + len)) eqn:Ep;
        [by apply Hpos in Ep | done].
Qed.

(** The loop either stores the bytes of the buffer and leaves every other
    byte of the file alone, or it aborts because the free list was too
    short. *)
Lemma write_loop_spec fuel : forall inum N buf n fbn off s,
  blocks_ok B s inum ->
  0 <= n <= N -> 0 <= fbn -> 0 <= off < B ->
  fbn + (N - n) < INT_MAX ->
  N + B <= INT_MAX ->
  N <= Z.of_nat (length buf) ->
  (Z.to_nat (N - n) <= fuel)%nat ->
  (exists s' ops,
    write_loop B fuel inum N buf n fbn off s = Ok N s'
    /\ blocks_ok B s' inum
    /\ extends inum s s' ops
    /\ NoDup ops
    /\ Forall (fun o => exists f d,
                 fbn <= f /\ i_map (inodes s' inum) !! f = Some d
                 /\ (o = BioRead d \/ o = BioWrite d)) ops
    /\ (forall p, byte_at B s' inum p =
                  if (fbn * B + off <=? p) && (p <? fbn * B + off + (N - n))
                  then nthZ buf (n + (p - (fbn * B + off)))
                  else byte_at B s inum p))
  \/ (exists s',
       write_loop B fuel inum N buf n fbn off s = Fatal EDISKFULL s'
       /\ n < N
       /\ B * Z.of_nat (length (freelist s)) < off + (N - n) + B).
Proof.
  induction fuel as [|fuel IH];
    intros inum N buf n fbn off s Hok Hn Hf Ho Hmax HN Hbuf Hfuel.
  - assert (n = N) as -> by lia. left.
    exists s, []. simpl. rewrite Z.ltb_irrefl.
    split; [done|]. split; [done|]. split; [apply extends_refl|].
    split; [apply NoDup_nil_2|]. split; [constructor|].
    intros p.
    destruct (Z.leb_spec (fbn * B + off) p),
      (Z.ltb_spec p (fbn * B + off + (N - N))); simpl; auto; lia.
  - simpl write_loop. destruct (Z.ltb_spec n N) as [Hlt|Hge].
    2:{ assert (n = N) as -> by lia. left.
        exists s, [].
        split; [done|]. split; [done|]. split; [apply extends_refl|].
        split; [apply NoDup_nil_2|]. split; [constructor|].
        intros p.
        destruct (Z.leb_spec (fbn * B + off) p),
          (Z.ltb_spec p (fbn * B + off + (N - N))); simpl; auto; lia. }
    rewrite span_id by lia.
    set (len := Z.min (B - off) (N - n)).
    assert (Hlen : 0 < len <= B - off /\ len <= N - n) by (unfold len; lia).
    rewrite (add32_id n len) by (unfold INT_MIN, INT_MAX in *; lia).
    rewrite (add32_id fbn 1) by (unfold INT_MIN, INT_MAX in *; lia).
    destruct (write_iter_spec inum N buf n fbn off len
                (write_loop B fuel inum N buf (n + len) (fbn + 1) 0) s)
      as (o & Hrun1
          & [(d & s2 & ops1 & -> & Hok2 & Hex2 & Hm2 & Hops1 & Hl2 & Hb2)
            | [-> Hnil]]);
      [done | lia | lia | lia | done | lia | |].
    2:{ right. exists s. split; [exact Hrun1|]. split; [done|].
        rewrite Hnil. simpl. lia. }
    destruct (IH inum N buf (n + len) (fbn + 1) 0 s2 Hok2)
      as [(s' & ops & Hrun & Hok' & Hex' & Hnd & Hall & Hb')
         | (s' & Hrun & Hlt' & Hl')];
      [lia | lia | lia | lia | lia | lia | lia | |].
    2:{ right. exists s'. split; [rewrite Hrun1; exact Hrun|].
        split; [done|]. unfold len in *. lia. }
    left. exists s', (ops1 ++ ops).
    split; [rewrite Hrun1; exact Hrun|].
    split; [exact Hok'|].
    split; [exact (extends_trans _ _ _ _ _ _ Hex2 Hex')|].
    assert (Hd' : i_map (inodes s' inum) !! fbn = Some d)
      by (apply Hex', Hm2).
    split; [|split].
    + apply NoDup_app. split; [|split; [|done]].
      * destruct Hops1 as [-> | ->]; [apply NoDup_singleton|].
        apply NoDup_cons. split; [|apply NoDup_singleton].
        intros Hin%list_elem_of_singleton. discriminate.
      * intros o Ho1 Ho2. rewrite Forall_forall in Hall.
        destruct (Hall _ Ho2) as (f & d' & Hf' & Hm & Heq).
        assert (d' = d) as ->.
        { destruct Hops1 as [-> | ->];
            repeat (apply elem_of_cons in Ho1 as [-> | Ho1]);
            try (by apply elem_of_nil in Ho1);
            destruct Heq as [Heq | Heq]; congruence. }
        pose proof (bo_inj _ _ _ Hok' _ _ _ Hd' Hm). lia.
    + apply Forall_app. split.
      * apply Forall_forall. intros o Ho1. exists fbn, d.
        split; [lia|]. split; [done|].
        destruct Hops1 as [-> | ->];
          repeat (apply elem_of_cons in Ho1 as [-> | Ho1]);
          try (by apply elem_of_nil in Ho1); auto.
      * eapply Forall_impl; [exact Hall|].
        intros o (f & d' & Hf' & Hm & Heq). exists f, d'.
        repeat split; auto; lia.
    + intros p. rewrite Hb', Hb2.
      destruct (Z.leb_spec ((fbn + 1) * B + 0) p),
        (Z.ltb_spec p ((fbn + 1) * B + 0 + (N - (n + len)))),
        (Z.leb_spec (fbn * B + off) p),
        (Z.ltb_spec p (fbn * B + off + len)),
        (Z.ltb_spec p (fbn * B + off + (N - n)));
        simpl; auto; try (unfold len in *; lia).
      f_equal. unfold len in *. lia.
Qed.

(** *** fsWrite *)

Lemma blocks_ok_set_size inum sz s :
  blocks_ok B s inum ->
  blocks_ok B (set_inode inum (mkInode sz (i_map (inodes s inum))) s) inum.
Proof.
  intros [H1 H2 H3 H4]. split; simpl; rewrite ?upd_same; simpl; auto.
Qed.

Lemma byte_at_set_size inum sz s p :
  byte_at B (set_inode inum (mkInode sz (i_map (inodes s inum))) s) inum p
  = byte_at B s inum p.
Proof. unfold byte_at. simpl. by rewrite upd_same. Qed.

Lemma blocks_ok_set_curs inum c s :
  blocks_ok B s inum -> blocks_ok B (set_curs inum c s) inum.
Proof. intros [H1 H2 H3 H4]. split; auto. Qed.

(** The extension phase of [fsWrite]: gap fill and new size. *)
Lemma fsWrite_extend_spec inum C numb s :
  let S := i_size (inodes s inum) in
  blocks_ok B s inum -> 0 <= S <= INT_MAX -> 0 <= C -> 0 < numb ->
  C + numb + B <= INT_MAX ->
  (exists s1 ops,
    (if S <? C + numb then
       do! bfsExtend inum (quot32 (sub32 (C + numb) 1) B) in
       do! (if S <? C
            then gap_loop B (Z.to_nat (C - S)) inum C S
            else ret tt) in
       bfsSetSize inum (C + numb)
     else ret tt) s = Ok tt s1
    /\ blocks_ok B s1 inum
    /\ g_oft s1 = g_oft s
    /\ i_size (inodes s1 inum) = Z.max S (C + numb)
    /\ (forall f d, i_map (inodes s inum) !! f = Some d ->
                    i_map (inodes s1 inum) !! f = Some d)
    /\ biolog s1 = biolog s ++ ops
    /\ NoDup ops
    /\ Forall (fun o => exists f d,
                 i_map (inodes s1 inum) !! f = Some d /\ o = BioWrite d) ops
    /\ B * Z.of_nat (length (freelist s))
       <= B * Z.of_nat (length (freelist s1)) + Z.max 0 (C - S + B - 1)
    /\ (forall p, byte_at B s1 inum p =
                  if (S <? C) && gap_filled B S C p then x00
                  else byte_at B s inum p))
  \/ (exists s1,
       (if S <? C + numb then
          do! bfsExtend inum (quot32 (sub32 (C + numb) 1) B) in
          do! (if S <? C
               then gap_loop B (Z.to_nat (C - S)) inum C S
               else ret tt) in
          bfsSetSize inum (C + numb)
        else ret tt) s = Fatal EDISKFULL s1
       /\ B * Z.of_nat (length (freelist s)) < C + numb + 3 * B).
Proof.
  intros S Hok HS HC Hnumb Hov.
  destruct (Z.ltb_spec S (C + numb)) as [Hgrow|Hfit].
  - unfold bind at 1 3, bfsExtend at 1 2.
    destruct (Z.ltb_spec S C) as [Hgap|Hnogap].
    + destruct (gap_loop_spec (Z.to_nat (C - S)) inum C S s Hok)
        as [(s1 & ops & Hrun & Hok1 & Hex1 & Hnd & Hall & Hl1 & Hb1)
           | (s1 & Hrun & _ & Hl1)]; [lia | lia | lia | |].
      2:{ right. exists s1. fold S in Hrun, Hl1. unfold bind.
          rewrite Hrun. split; [done | lia]. }
      left. destruct Hex1 as [Ho1 Hs1 Hm1 Hlog1]. fold S in Hrun, Hl1.
      eexists _, ops. unfold bind. rewrite Hrun. unfold bfsSetSize.
      split; [reflexivity|].
      split; [by apply blocks_ok_set_size|].
      split; [exact Ho1|].
      split; [simpl; rewrite upd_same; simpl; lia|].
      split; [intros f d Hfd; simpl; rewrite upd_same; simpl; auto|].
      split; [exact Hlog1|]. split; [exact Hnd|].
      split.
      { eapply Forall_impl; [exact Hall|].
        intros o (f & d & _ & Hm & Heq). exists f, d.
        simpl. rewrite upd_same. simpl. auto. }
      split; [simpl; lia|].
      intros p. rewrite byte_at_set_size, Hb1. done.
    + left. eexists _, []. unfold bind, ret, bfsSetSize.
      split; [reflexivity|].
      split; [by apply blocks_ok_set_size|].
      split; [done|].
      split; [simpl; rewrite upd_same; simpl; fold S; lia|].
      split; [intros f d Hfd; simpl; rewrite upd_same; simpl; auto|].
      split; [simpl; by rewrite app_nil_r|].
      split; [apply NoDup_nil_2|]. split; [constructor|].
      split; [simpl; lia|].
      intros p. by rewrite byte_at_set_size.
  - left. exists s, []. unfold ret.
    split; [reflexivity|]. split; [done|]. split; [done|].
    split; [fold S; lia|]. split; [auto|].
    split; [by rewrite app_nil_r|].
    split; [apply NoDup_nil_2|]. split; [constructor|].
    split; [lia|].
    intros p. destruct (Z.ltb_spec S C); [lia | done].
Qed.

(** [fsWrite] either succeeds with [fsWrite_post], or aborts because the
    free list was too short. *)
Lemma fsWrite_cases fd numb buf s :
  let inum := bfsFdToInum fd in
  wf_file B s inum -> 0 < numb ->
  no_overflow B bfsFdToInum s fd numb ->
  numb <= Z.of_nat (length buf) ->
  (exists s' opsg opsw,
    fsWrite B bfsFdToInum fd numb buf s = Ok 0 s'
    /\ fsWrite_post B bfsFdToInum fd numb buf s s' opsg opsw)
  \/ (exists s',
       fsWrite B bfsFdToInum fd numb buf s = Fatal EDISKFULL s'
       /\ ~ enough_free B bfsFdToInum s fd numb).
Proof.
  intros inum [Hc Hs Hok] Hnumb Hov Hbuf.
  unfold no_overflow in Hov. unfold enough_free, fsWrite_post.
  fold inum in Hov |- *.
  set (C := g_oft s inum) in *. set (S := i_size (inodes s inum)) in *.
  remember (fsWrite B bfsFdToInum fd numb buf s) as o eqn:Ho.
  unfold fsWrite in Ho. fold inum in Ho.
  destruct (Z.leb_spec numb 0) as [?|_]; [lia|].
  unfold bind at 1, bfsTell at 1 in Ho. fold inum C in Ho.
  unfold bind at 1, bfsGetSize at 1 in Ho. fold S in Ho.
  rewrite (add32_id C numb) in Ho by (unfold INT_MIN, INT_MAX in *; lia).
  destruct (fsWrite_extend_spec inum C numb s Hok)
    as [(s1 & opsg & Hrun1 & Hok1 & Ho1 & Hs1 & Hm1 & Hlog1 & Hndg & Hallg
         & Hl1 & Hb1) | (s1 & Hrun1 & Hl1)];
    [fold S; lia | lia | lia | lia | |]; fold S in Hrun1;
    unfold bind at 1 in Ho; rewrite Hrun1 in Ho.
  2:{ right. exists s1. split; [done | lia]. }
  fold S in Hs1, Hb1, Hl1.
  rewrite quot32_id, rem32_id in Ho by lia.
  destruct (block_split C B BPB_pos) as [HC Hoff].
  assert (0 <= C / B <= C).
  { split; [apply Z.div_pos; lia|]. apply Z.div_le_upper_bound; nia. }
  destruct (write_loop_spec (Z.to_nat numb) inum numb buf 0
              (C / B) (C mod B) s1 Hok1)
    as [(s2 & opsw & Hrun2 & Hok2 & [Ho2 Hs2 Hm2 Hlog2] & Hndw & Hallw & Hb2)
       | (s2 & Hrun2 & _ & Hl2)];
    [lia | lia | lia | unfold INT_MAX in *; lia | unfold INT_MAX in *; lia
    | lia | lia | |]; unfold bind at 1 in Ho; rewrite Hrun2 in Ho.
  2:{ right. exists s2. split; [done | lia]. }
  left.
  rewrite add32_id in Ho by (unfold INT_MIN, INT_MAX in *; lia).
  exists (set_curs inum (C + numb) s2), opsg, opsw.
  split; [exact Ho|].
  split.
  { split.
    - simpl. rewrite upd_same. lia.
    - simpl. rewrite Hs2, Hs1. lia.
    - by apply blocks_ok_set_curs. }
  split; [simpl; by rewrite upd_same|].
  split; [simpl; rewrite Hs2, Hs1; done|].
  split; [simpl; auto|].
  split; [simpl; rewrite Hlog2, Hlog1; by rewrite app_assoc|].
  split; [exact Hndg|].
  split.
  { eapply Forall_impl; [exact Hallg|]. intros o' (f & d & _ & Heq). eauto. }
  split; [exact Hndw|].
  intros p. change (byte_at B (set_curs inum (C + numb) s2) inum p)
    with (byte_at B s2 inum p).
  rewrite Hb2, Hb1. rewrite <- HC.
  replace (numb - 0) with numb by lia.
  replace (0 + (p - C)) with (p - C) by lia. done.
Qed.

(** With a long enough free list [fsWrite] succeeds. *)
Lemma fsWrite_spec fd numb buf s :
  wf_file B s (bfsFdToInum fd) -> 0 < numb ->
  no_overflow B bfsFdToInum s fd numb ->
  enough_free B bfsFdToInum s fd numb ->
  numb <= Z.of_nat (length buf) ->
  exists s' opsg opsw,
    fsWrite B bfsFdToInum fd numb buf s = Ok 0 s'
    /\ fsWrite_post B bfsFdToInum fd numb buf s s' opsg opsw.
Proof.
  intros Hwf Hnumb Hov Hfree Hbuf.
  destruct (fsWrite_cases fd numb buf s Hwf Hnumb Hov Hbuf)
    as [H | (s' & _ & Hnf)]; [exact H | done].
Qed.

(** Every successful [fsWrite] satisfies [fsWrite_post]. *)
Lemma fsWrite_ok_inv fd numb buf s r s' :
  wf_file B s (bfsFdToInum fd) -> 0 < numb ->
  no_overflow B bfsFdToInum s fd numb ->
  numb <= Z.of_nat (length buf) ->
  fsWrite B bfsFdToInum fd numb buf s = Ok r s' ->
  r = 0
  /\ exists opsg opsw, fsWrite_post B bfsFdToInum fd numb buf s s' opsg opsw.
Proof.
  intros Hwf Hnumb Hov Hbuf Hrun.
  destruct (fsWrite_cases fd numb buf s Hwf Hnumb Hov Hbuf)
    as [(s1 & opsg & opsw & Hrun1 & Hpost) | (s1 & Hrun1 & _)];
    rewrite Hrun in Hrun1; [|done].
  injection Hrun1 as -> ->. eauto.
Qed.

(** *** What the loops leave alone, whatever their outcome *)

Lemma keeps_size_step {A} inum s s1 (o : outcome A) :
  g_oft s1 = g_oft s ->
  i_size (inodes s1 inum) = i_size (inodes s inum) ->
  keeps_size inum s1 o -> keeps_size inum s o.
Proof.
  unfold keeps_size. intros H1 H2. destruct (final_state o); [|done].
  intros [H3 H4]. split; congruence.
Qed.

Lemma bfsAllocBlock_keeps_size inum fbn s :
  keeps_size inum s (bfsAllocBlock inum fbn s).
Proof.
  unfold bfsAllocBlock, keeps_size.
  destruct (freelist s); simpl; rewrite ?upd_same; auto.
Qed.

Lemma gap_loop_keeps_size fuel : forall inum C g s,
  keeps_size inum s (gap_loop B fuel inum C g s).
Proof.
  induction fuel as [|fuel IH]; intros inum C g s; simpl.
  - destruct (g <? C); done.
  - destruct (g <? C); [|done].
    unfold bind, bfsFbnToDbn.
    destruct (i_map (inodes s inum) !! quot32 g B) as [d|].
    + unfold ret, bioWrite. eapply keeps_size_step; [| |apply IH]; done.
    + pose proof (bfsAllocBlock_keeps_size inum (quot32 g B) s) as Ha.
      destruct (bfsAllocBlock inum (quot32 g B) s) as [d s1|e s1|];
        [|exact Ha|done].
      destruct Ha as [Ha1 Ha2]. unfold bioWrite.
      eapply keeps_size_step; [| |apply IH]; done.
Qed.

Lemma write_loop_keeps_size fuel : forall inum N buf n fbn off s,
  keeps_size inum s (write_loop B fuel inum N buf n fbn off s).
Proof.
  induction fuel as [|fuel IH]; intros inum N buf n fbn off s; simpl.
  - destruct (n <? N); done.
  - destruct (n <? N); [|done].
    unfold bind at 1. unfold bfsFbnToDbn at 1.
    destruct (i_map (inodes s inum) !! fbn) as [d|].
    + destruct (negb (off =? 0) || (sub32 N n <? B));
        unfold bind, ret, bioRead, bioWrite;
        (eapply keeps_size_step; [| |apply IH]; done).
    + pose proof (bfsAllocBlock_keeps_size inum fbn s) as Ha.
      unfold bind.
      destruct (bfsAllocBlock inum fbn s) as [d s1|e s1|];
        [|exact Ha|done].
      destruct Ha as [Ha1 Ha2]. unfold ret, bioWrite.
      eapply keeps_size_step; [| |apply IH]; done.
Qed.

(** The read loop changes nothing but the transfer log. *)
Lemma read_loop_frame fuel : forall inum N n fbn off buf s,
  match final_state (read_loop B fuel inum N n fbn off buf s) with
  | Some s' =>
      g_oft s' = g_oft s /\ inodes s' = inodes s /\ disk s' = disk s
      /\ freelist s' = freelist s
  | None => True
  end.
Proof.
  induction fuel as [|fuel IH]; intros inum N n fbn off buf s; simpl.
  - destruct (n <? N); done.
  - destruct (n <? N); [|done].
    unfold bind at 1. unfold bfsFbnToDbn at 1.
    destruct (i_map (inodes s inum) !! fbn) as [d|];
      unfold bind, ret, bioRead.
    + match goal with
      | |- context [read_loop B fuel ?a ?b ?c ?d ?e ?f ?g] =>
          specialize (IH a b c d e f g);
          destruct (read_loop B fuel a b c d e f g); simpl in *; auto
      end.
    + match goal with
      | |- context [read_loop B fuel ?a ?b ?c ?d ?e ?f ?g] =>
          specialize (IH a b c d e f g);
          destruct (read_loop B fuel a b c d e f g); simpl in *; auto
      end.
Qed.

(** When the write loop ends normally it has written all [N] bytes. *)
Lemma write_loop_ret fuel : forall inum N buf n fbn off s r s',
  0 <= n <= N -> 0 <= fbn -> 0 <= off < B ->
  fbn + (N - n) < INT_MAX -> N + B <= INT_MAX ->
  write_loop B fuel inum N buf n fbn off s = Ok r s' -> r = N.
Proof.
  induction fuel as [|fuel IH];
    intros inum N buf n fbn off s r s' Hn Hf Ho Hmax HN; simpl.
  - destruct (Z.ltb_spec n N); [done|]. unfold ret. intros [= <- _]. lia.
  - destruct (Z.ltb_spec n N) as [Hlt|Hge];
      [|unfold ret; intros [= <- _]; lia].
    rewrite span_id by lia.
    set (len := Z.min (B - off) (N - n)).
    assert (Hlen : 0 < len <= B - off /\ len <= N - n) by (unfold len; lia).
    rewrite (add32_id n len) by (unfold INT_MIN, INT_MAX in *; lia).
    rewrite (add32_id fbn 1) by (unfold INT_MIN, INT_MAX in *; lia).
    unfold bind at 1. unfold bfsFbnToDbn at 1.
    destruct (i_map (inodes s inum) !! fbn) as [d|].
    + destruct (negb (off =? 0) || (sub32 N n <? B));
        unfold bind, ret, bioRead, bioWrite;
        (intros Hrun; eapply IH; [| | | | |exact Hrun]; lia).
    + unfold bind.
      destruct (bfsAllocBlock inum fbn s) as [d s1|e s1|]; [|done|done].
      unfold ret, bioWrite.
      intros Hrun; eapply IH; [| | | | |exact Hrun]; lia.
Qed.

(** The extension phase of [fsWrite], whatever its outcome. *)
Lemma fsWrite_extend_size inum cursor numb s :
  let S := i_size (inodes s inum) in
  match
    (if S <? add32 cursor numb then
       do! bfsExtend inum (quot32 (sub32 (add32 cursor numb) 1) B) in
       do! (if S <? cursor
            then gap_loop B (Z.to_nat (cursor - S)) inum cursor S
            else ret tt) in
       bfsSetSize inum (add32 cursor numb)
     else ret tt) s
  with
  | Ok _ s1 =>
      g_oft s1 = g_oft s
      /\ i_size (inodes s1 inum) =
         (if S <? add32 cursor numb then add32 cursor numb else S)
  | Fatal _ s1 => g_oft s1 = g_oft s /\ i_size (inodes s1 inum) = S
  | Diverge => True
  end.
Proof.
  intros S. destruct (S <? add32 cursor numb); [|done].
  unfold bind at 1, bfsExtend at 1.
  destruct (S <? cursor).
  - pose proof (gap_loop_keeps_size (Z.to_nat (cursor - S)) inum cursor S s)
      as Hg.
    unfold bind.
    destruct (gap_loop B (Z.to_nat (cursor - S)) inum cursor S s)
      as [[] s1|e s1|]; [|exact Hg|done].
    destruct Hg as [Hg1 Hg2]. unfold bfsSetSize. simpl.
    rewrite upd_same. done.
  - unfold bind, ret, bfsSetSize. simpl. rewrite upd_same. done.
Qed.

(** [fsWrite], whatever its outcome: the size is the old one, or the end of
    the write when that lies beyond it. *)
Lemma fsWrite_size fd numb buf s :
  let inum := bfsFdToInum fd in
  let C := g_oft s inum in
  let S := i_size (inodes s inum) in
  match fsWrite B bfsFdToInum fd numb buf s with
  | Ok r s' =>
      r = 0
      /\ i_size (inodes s' inum) =
         (if S <? add32 C numb then add32 C numb else S)
  | Fatal _ s' =>
      i_size (inodes s' inum) = S
      \/ (S < add32 C numb /\ i_size (inodes s' inum) = add32 C numb)
  | Diverge => True
  end.
Proof.
  intros inum C S. unfold fsWrite. fold inum.
  destruct (numb <=? 0); [by left|].
  unfold bind at 1, bfsTell at 1. fold inum C.
  unfold bind at 1, bfsGetSize at 1. fold S.
  pose proof (fsWrite_extend_size inum C numb s) as He.
  cbv zeta in He. fold S in He.
  unfold bind at 1.
  match goal with
  | |- match match ?o with _ => _ end with _ => _ end =>
      destruct o as [[] s1|e s1|] eqn:Eo
  end; [|left; apply He|done].
  destruct He as [He1 He2].
  pose proof (write_loop_keeps_size (Z.to_nat numb) inum numb buf 0
                (quot32 C B) (rem32 C B) s1) as Hw.
  unfold bind.
  destruct (write_loop B (Z.to_nat numb) inum numb buf 0
              (quot32 C B) (rem32 C B) s1) as [rw s2|e s2|]; [| |done].
  - destruct Hw as [Hw1 Hw2]. unfold bfsSetCursor, ret. simpl.
    split; [done|]. congruence.
  - destruct Hw as [Hw1 Hw2]. rewrite Hw2, He2.
    destruct (Z.ltb_spec S (add32 C numb)); auto.
Qed.

(** The cursor after a successful [fsWrite]. *)
Lemma fsWrite_ok_cursor fd numb buf s r s' :
  let inum := bfsFdToInum fd in
  let C := g_oft s inum in
  0 <= C -> 0 < numb -> no_overflow B bfsFdToInum s fd numb ->
  fsWrite B bfsFdToInum fd numb buf s = Ok r s' ->
  g_oft s' inum = C + numb.
Proof.
  intros inum C HC Hnumb Hov. unfold no_overflow in Hov. fold inum C in Hov.
  unfold fsWrite. fold inum.
  destruct (Z.leb_spec numb 0); [lia|].
  unfold bind at 1, bfsTell at 1. fold inum C.
  unfold bind at 1, bfsGetSize at 1.
  unfold bind at 1.
  match goal with
  | |- match ?o with _ => _ end = _ -> _ =>
      destruct o as [[] s1|e s1|]
  end; [|done|done].
  rewrite quot32_id, rem32_id by lia.
  destruct (block_split C B BPB_pos) as [HCs Hoff].
  assert (0 <= C / B <= C).
  { split; [apply Z.div_pos; lia|]. apply Z.div_le_upper_bound; nia. }
  unfold bind.
  destruct (write_loop B (Z.to_nat numb) inum numb buf 0 (C / B) (C mod B) s1)
    as [rw s2|e s2|] eqn:Ew; [|done|done].
  apply write_loop_ret in Ew; [|lia|lia|lia|unfold INT_MAX in *; lia
                              |unfold INT_MAX in *; lia].
  subst rw. unfold bfsSetCursor, ret. intros [= _ <-]. simpl.
  rewrite upd_same. apply add32_id. unfold INT_MIN, INT_MAX in *. lia.
Qed.

(** *** States after a call *)

Lemma list_eq_nthZ (l1 l2 : list byte) :
  length l1 = length l2 ->
  (forall i, 0 <= i < Z.of_nat (length l1) -> nthZ l1 i = nthZ l2 i) ->
  l1 = l2.
Proof.
  intros Hlen Hnth. apply list_eq. intros i.
  destruct (decide (i < length l1)%nat) as [Hi|Hi].
  - specialize (Hnth (Z.of_nat i)).
    rewrite !nthZ_lookup, Nat2Z.id in Hnth.
    destruct (lookup_lt_is_Some_2 l1 i Hi) as [x Hx].
    destruct (lookup_lt_is_Some_2 l2 i) as [y Hy]; [lia|].
    rewrite Hx, Hy in Hnth |- *. simpl in Hnth. f_equal. apply Hnth. lia.
  - rewrite !lookup_ge_None_2 by lia. done.
Qed.

Lemma blocks_ok_add_log ops s inum :
  blocks_ok B s inum -> blocks_ok B (add_log ops s) inum.
Proof. intros [H1 H2 H3 H4]. split; auto. Qed.

Lemma wf_file_set_curs inum c s :
  wf_file B s inum -> 0 <= c <= INT_MAX -> wf_file B (set_curs inum c s) inum.
Proof.
  intros [Hc Hs Hok] Hr. split.
  - simpl. by rewrite upd_same.
  - done.
  - by apply blocks_ok_set_curs.
Qed.

(** A successful seek stores a cursor. *)
Lemma fsSeek_ok_inv fd offset whence r s s' :
  let inum := bfsFdToInum fd in
  fsSeek bfsFdToInum fd offset whence s = Ok r s' ->
  r = 0 /\ 0 <= offset
  /\ exists c, s' = set_curs inum c s
     /\ (whence = SEEK_SET /\ c = offset
         \/ whence = SEEK_CUR /\ c = add32 (g_oft s inum) offset
         \/ whence = SEEK_END /\ c = add32 (i_size (inodes s inum)) offset).
Proof.
  intros inum. rewrite fsSeek_unfold. fold inum.
  destruct (Z.ltb_spec offset 0); [done|].
  destruct (Z.eqb_spec whence SEEK_SET) as [->|_].
  { intros [= <- <-]. split; [done|]. split; [done|]. eauto 6. }
  destruct (Z.eqb_spec whence SEEK_CUR) as [->|_].
  { intros [= <- <-]. split; [done|]. split; [done|]. eauto 6. }
  destruct (Z.eqb_spec whence SEEK_END) as [->|_]; [|done].
  intros [= <- <-]. split; [done|]. split; [done|]. eauto 7.
Qed.

(** *** Counting transfers *)

Lemma NoDup_reads_of d ops : NoDup ops -> (reads_of d ops <= 1)%nat.
Proof.
  intros H%NoDup_ListNoDup.
  apply (proj1 (List.NoDup_count_occ bio_op_eq_dec ops) H).
Qed.

Lemma NoDup_writes_of d ops : NoDup ops -> (writes_of d ops <= 1)%nat.
Proof.
  intros H%NoDup_ListNoDup.
  apply (proj1 (List.NoDup_count_occ bio_op_eq_dec ops) H).
Qed.

Lemma reads_of_app d ops1 ops2 :
  reads_of d (ops1 ++ ops2) = (reads_of d ops1 + reads_of d ops2)%nat.
Proof. apply count_occ_app. Qed.

Lemma writes_of_app d ops1 ops2 :
  writes_of d (ops1 ++ ops2) = (writes_of d ops1 + writes_of d ops2)%nat.
Proof. apply count_occ_app. Qed.

Lemma no_reads d ops :
  Forall (fun o => exists d', o = BioWrite d') ops -> reads_of d ops = 0%nat.
Proof.
  intros H. apply count_occ_not_In. intros Hin.
  rewrite Forall_forall in H. apply list_elem_of_In in Hin.
  destruct (H _ Hin) as [d' Heq]. discriminate.
Qed.

Lemma no_writes d ops :
  Forall (fun o => exists d', o = BioRead d') ops -> writes_of d ops = 0%nat.
Proof.
  intros H. apply count_occ_not_In. intros Hin.
  rewrite Forall_forall in H. apply list_elem_of_In in Hin.
  destruct (H _ Hin) as [d' Heq]. discriminate.
Qed.

(** ** The claims *)

(** C1: for a well-formed open file with cursor [C] and size [S] and a
    requested length [numb > 0] whose arithmetic stays within [i32], [fsRead]
    returns [max 0 (min numb (S - C))], copies exactly that many bytes, the
    file's bytes from position [C] on, to the start of the destination buffer
    and leaves the rest of the buffer as it was, and advances the cursor by
    that count; a request entirely past end-of-file returns 0 in an unchanged
    state, and a request spanning end-of-file returns [S - C] and leaves the
    cursor at [S]. *)
Theorem fsRead_count_bytes_cursor fd numb buf s :
  let inum := bfsFdToInum fd in
  let C := g_oft s inum in
  let S := i_size (inodes s inum) in
  let n := Z.max 0 (Z.min numb (S - C)) in
  wf_file B s inum -> 0 < numb -> no_overflow B bfsFdToInum s fd numb ->
  numb <= Z.of_nat (length buf) ->
  exists buf' s',
    fsRead B bfsFdToInum fd numb buf s = Ok (n, buf') s'
    /\ length buf' = length buf
    /\ (forall i, 0 <= i < Z.of_nat (length buf) ->
          nthZ buf' i =
          if i <? n then byte_at B s inum (C + i) else nthZ buf i)
    /\ g_oft s' inum = C + n
    /\ (S <= C -> n = 0 /\ buf' = buf /\ s' = s)
    /\ (C < S < C + numb -> n = S - C /\ g_oft s' inum = S).
Proof.
  intros inum C S n Hwf Hnumb Hov Hbuf.
  destruct (fsRead_spec fd numb buf s Hwf Hnumb Hov Hbuf)
    as (buf' & ops & Hrun & Hlen & Hbytes & Hops & _ & _).
  fold inum C S n in Hrun, Hbytes, Hops.
  exists buf', (if n =? 0 then s else set_curs inum (C + n) (add_log ops s)).
  split; [exact Hrun|]. split; [exact Hlen|]. split; [exact Hbytes|].
  split; [|split].
  - destruct (Z.eqb_spec n 0) as [->|_]; [fold C; lia|].
    simpl. apply upd_same.
  - intros HS. assert (Hn0 : n = 0) by (unfold n; lia).
    split; [done|]. rewrite Hn0. split; [|done].
    apply list_eq_nthZ; [done|].
    intros i Hi. rewrite Hbytes, Hn0 by lia.
    destruct (Z.ltb_spec i 0); [lia | done].
  - intros HS. assert (Hn : n = S - C) by (unfold n; lia).
    split; [done|].
    destruct (Z.eqb_spec n 0) as [?|_]; [lia|].
    simpl. rewrite upd_same. lia.
Qed.

(** C2, amended: after [fsWrite(fd, numb, buf)] the seek back by [numb]
    relative to the cursor, [fsSeek(fd, -numb, SEEK_CUR)], aborts, because
    [fsSeek] rejects every negative offset; the round trip holds with the
    absolute seek to the cursor [C] of before the write: for a well-formed
    open file, [numb > 0] bytes of [buf], arithmetic within [i32] and a long
    enough free list, [fsWrite(fd, numb, buf)], [fsSeek(fd, C, SEEK_SET)] and
    [fsRead(fd, numb, out)] all succeed and [out] is [buf]. *)
Theorem write_seek_read_roundtrip fd numb buf out0 s :
  let inum := bfsFdToInum fd in
  let C := g_oft s inum in
  wf_file B s inum -> 0 < numb ->
  no_overflow B bfsFdToInum s fd numb ->
  enough_free B bfsFdToInum s fd numb ->
  Z.of_nat (length buf) = numb -> length out0 = length buf ->
  exists s1 s2 s3 out,
    fsWrite B bfsFdToInum fd numb buf s = Ok 0 s1
    /\ fsSeek bfsFdToInum fd (- numb) SEEK_CUR s1 = Fatal EBADCURS s1
    /\ fsSeek bfsFdToInum fd C SEEK_SET s1 = Ok 0 s2
    /\ fsRead B bfsFdToInum fd numb out0 s2 = Ok (numb, out) s3
    /\ out = buf.
Proof.
  intros inum C Hwf Hnumb Hov Hfree Hbuf Hout.
  destruct (fsWrite_spec fd numb buf s Hwf Hnumb Hov Hfree)
    as (s1 & opsg & opsw & Hrun1 & Hwf1 & Hc1 & Hs1 & _ & _ & _ & _ & _ & Hb1);
    [lia|].
  fold inum C in Hwf1, Hc1, Hs1, Hb1.
  destruct Hwf as [Hc Hs Hok]. fold C in Hc.
  unfold no_overflow in Hov. fold inum C in Hov.
  set (s2 := set_curs inum C s1).
  assert (Hwf2 : wf_file B s2 inum) by (by apply wf_file_set_curs).
  assert (Hc2 : g_oft s2 inum = C) by (simpl; apply upd_same).
  destruct (fsRead_spec fd numb out0 s2) as
    (out & ops & Hrun3 & Hlen3 & Hb3 & _); [done | done | | lia |].
  { unfold no_overflow. fold inum. rewrite Hc2. done. }
  fold inum in Hrun3, Hb3. rewrite Hc2 in Hrun3, Hb3.
  change (i_size (inodes s2 inum)) with (i_size (inodes s1 inum))
    in Hrun3, Hb3.
  rewrite Hs1 in Hrun3, Hb3.
  replace (Z.max 0 (Z.min numb (Z.max (i_size (inodes s inum)) (C + numb) - C)))
    with numb in Hrun3, Hb3 by lia.
  eexists s1, s2, _, out.
  split; [exact Hrun1|]. split; [|split; [|split; [exact Hrun3|]]].
  - rewrite fsSeek_unfold. destruct (Z.ltb_spec (- numb) 0); [done | lia].
  - rewrite fsSeek_unfold. fold inum. destruct (Z.ltb_spec C 0); [lia | done].
  - apply list_eq_nthZ; [congruence|].
    intros i Hi. rewrite Hb3 by lia.
    destruct (Z.ltb_spec i numb); [|lia].
    change (byte_at B s2 inum (C + i)) with (byte_at B s1 inum (C + i)).
    rewrite Hb1.
    destruct (Z.leb_spec C (C + i)), (Z.ltb_spec (C + i) (C + numb));
      simpl; try lia.
    f_equal. lia.
Qed.

(** C3, as the code has it: a successful [fsWrite] at cursor [C] of a file
    of size [S] stores the buffer at [C, C + numb), zeroes every block that
    the gap fill visits when [C > S] (the blocks of [S], [S + BYTESPERBLOCK],
    ... below [C]), and leaves every other byte as it was, the untouched
    bytes of a partly written block included.  The first block of the gap
    fill is the block of [S]: its positions below [S], bytes of the file,
    are zeroed with it. *)
Theorem fsWrite_gap_fill_zeroes_below_size fd numb buf s :
  let inum := bfsFdToInum fd in
  let C := g_oft s inum in
  let S := i_size (inodes s inum) in
  wf_file B s inum -> 0 < numb ->
  no_overflow B bfsFdToInum s fd numb ->
  enough_free B bfsFdToInum s fd numb ->
  numb <= Z.of_nat (length buf) ->
  exists s',
    fsWrite B bfsFdToInum fd numb buf s = Ok 0 s'
    /\ (forall p, byte_at B s' inum p =
                  if (C <=? p) && (p <? C + numb) then nthZ buf (p - C)
                  else if (S <? C) && gap_filled B S C p then x00
                  else byte_at B s inum p)
    /\ (S < C -> forall p, S / B * B <= p < S -> byte_at B s' inum p = x00).
Proof.
  intros inum C S Hwf Hnumb Hov Hfree Hbuf.
  destruct (fsWrite_spec fd numb buf s Hwf Hnumb Hov Hfree Hbuf)
    as (s' & opsg & opsw & Hrun & _ & _ & _ & _ & _ & _ & _ & _ & Hb).
  fold inum C S in Hb.
  exists s'. split; [exact Hrun|]. split; [exact Hb|].
  intros HSC p Hp. rewrite Hb.
  destruct (Z.leb_spec C p); [lia|]. simpl.
  destruct (Z.ltb_spec S C); [|lia]. simpl.
  assert (Hdiv : p / B = S / B).
  { destruct (block_split S B BPB_pos) as [HS Hr].
    replace p with (S / B * B + (p - S / B * B)) by lia.
    apply block_div; lia. }
  unfold gap_filled. rewrite Hdiv, Z.leb_refl. simpl.
  destruct (Z.ltb_spec (S + (S / B - S / B) * B) C); [done | lia].
Qed.

(** C4: the hole-filling guarantee is not kept by the gap fill.  The gap
    loop of [fsWrite] starts at the old size [S] and moves in steps of
    [BYTESPERBLOCK], so when the cursor [C] lies no further into its block
    than [S] does into its own ([C mod BYTESPERBLOCK <= S mod BYTESPERBLOCK])
    the loop stops before the block of the cursor.  The positions of that
    block below [C] belong to the gap [S, C), and after a successful write
    each of them holds the byte it held before: a seek to such a position
    and a read return that byte, zero or not. *)
Theorem gap_fill_misses_block_of_cursor fd numb buf s r s' :
  let inum := bfsFdToInum fd in
  let C := g_oft s inum in
  let S := i_size (inodes s inum) in
  wf_file B s inum -> 0 < numb -> no_overflow B bfsFdToInum s fd numb ->
  numb <= Z.of_nat (length buf) ->
  S < C -> C mod B <= S mod B ->
  fsWrite B bfsFdToInum fd numb buf s = Ok r s' ->
  forall p, C / B * B <= p < C ->
    S <= p
    /\ byte_at B s' inum p = byte_at B s inum p
    /\ exists s1 out s2,
         fsSeek bfsFdToInum fd p SEEK_SET s' = Ok 0 s1
         /\ fsRead B bfsFdToInum fd 1 [x00] s1 = Ok (1, out) s2
         /\ nthZ out 0 = byte_at B s inum p.
Proof.
  intros inum C S Hwf Hnumb Hov Hbuf HSC Hmod Hrun p Hp.
  destruct (fsWrite_ok_inv fd numb buf s r s' Hwf Hnumb Hov Hbuf Hrun)
    as (_ & opsg & opsw & Hwf1 & Hc1 & Hs1 & _ & _ & _ & _ & _ & Hb1).
  fold inum C S in Hwf1, Hc1, Hs1, Hb1.
  destruct Hwf as [Hc Hs Hok].
  fold inum in Hc, Hs. fold C in Hc. fold S in Hs.
  unfold no_overflow in Hov. fold inum C in Hov.
  destruct (block_split C B BPB_pos) as [HCs HCr].
  destruct (block_split S B BPB_pos) as [HSs HSr].
  assert (Hblk : S / B < C / B).
  { destruct (Z.lt_ge_cases (S / B) (C / B)); [done | nia]. }
  assert (HSp : S <= p) by nia.
  assert (Hpdiv : p / B = C / B).
  { replace p with (C / B * B + (p - C / B * B)) by lia.
    apply block_div; lia. }
  assert (Hkeep : byte_at B s' inum p = byte_at B s inum p).
  { rewrite Hb1. destruct (Z.leb_spec C p); [lia|]. simpl.
    destruct (Z.ltb_spec S C); [|lia]. simpl.
    unfold gap_filled. rewrite Hpdiv.
    destruct (Z.leb_spec (S / B) (C / B)); [|lia]. simpl.
    destruct (Z.ltb_spec (S + (C / B - S / B) * B) C); [nia | done]. }
  split; [done|]. split; [done|].
  set (s1 := set_curs inum p s').
  assert (Hwf2 : wf_file B s1 inum)
    by (apply wf_file_set_curs; [done | unfold INT_MAX in *; lia]).
  assert (Hc2 : g_oft s1 inum = p) by (simpl; apply upd_same).
  destruct (fsRead_spec fd 1 [x00] s1) as
    (out & ops & Hrd & _ & Hb3 & _); [done | lia | | simpl; lia |].
  { unfold no_overflow. fold inum. rewrite Hc2. lia. }
  fold inum in Hrd, Hb3. rewrite Hc2 in Hrd, Hb3.
  change (i_size (inodes s1 inum)) with (i_size (inodes s' inum))
    in Hrd, Hb3.
  rewrite Hs1 in Hrd, Hb3.
  replace (Z.max 0 (Z.min 1 (Z.max S (C + numb) - p)))
    with 1 in Hrd, Hb3 by lia.
  eexists s1, out, _.
  split; [|split; [exact Hrd|]].
  - rewrite fsSeek_unfold. fold inum. destruct (Z.ltb_spec p 0); [lia | done].
  - rewrite (Hb3 0) by (simpl; lia). simpl. rewrite Z.add_0_r.
    exact Hkeep.
Qed.

(** C5: for a well-formed open file with cursor [C] and size [S] and a
    length [numb > 0] whose arithmetic stays within [i32], every successful
    [fsWrite] returns 0, leaves the size at [C + numb] when [C + numb > S]
    and at [S] otherwise, and leaves the cursor at [C + numb]; and the call
    does succeed when the free list is long enough. *)
Theorem fsWrite_size_and_cursor fd numb buf s :
  let inum := bfsFdToInum fd in
  let C := g_oft s inum in
  let S := i_size (inodes s inum) in
  wf_file B s inum -> 0 < numb -> no_overflow B bfsFdToInum s fd numb ->
  (forall r s',
      fsWrite B bfsFdToInum fd numb buf s = Ok r s' ->
      r = 0
      /\ i_size (inodes s' inum) = (if S <? C + numb then C + numb else S)
      /\ g_oft s' inum = C + numb)
  /\ (enough_free B bfsFdToInum s fd numb ->
      numb <= Z.of_nat (length buf) ->
      exists s', fsWrite B bfsFdToInum fd numb buf s = Ok 0 s').
Proof.
  intros inum C S Hwf Hnumb Hov. split.
  - intros r s' Hrun.
    pose proof (fsWrite_size fd numb buf s) as Hsz.
    pose proof (fsWrite_ok_cursor fd numb buf s r s') as Hcur.
    cbv zeta in Hsz, Hcur. fold inum C S in Hsz, Hcur.
    rewrite Hrun in Hsz. destruct Hsz as [-> Hsz].
    destruct Hwf as [Hc Hs _]. unfold no_overflow in Hov.
    fold inum C in Hc, Hov.
    rewrite add32_id in Hsz by (unfold INT_MIN, INT_MAX in *; lia).
    split; [done|]. split; [done|]. apply Hcur; auto; lia.
  - intros Hfree Hbuf.
    destruct (fsWrite_spec fd numb buf s Hwf Hnumb Hov Hfree Hbuf)
      as (s' & _ & _ & Hrun & _). eauto.
Qed.

(** C6: the file size is monotone.  No [fsRead] and no [fsSeek] changes the
    size, and no [fsWrite] decreases it, however the call ends; an [fsWrite]
    at cursor [C] whose end [C + numb] is an [i32] value leaves the size [S]
    as it is unless [C + numb > S], and in that case the new size is
    [C + numb]; a successful [fsWrite] sets the size to [C + numb] exactly
    when [C + numb > S]. *)
Theorem file_size_monotone fd s :
  let inum := bfsFdToInum fd in
  let C := g_oft s inum in
  let S := i_size (inodes s inum) in
  (forall numb buf s',
      final_state (fsRead B bfsFdToInum fd numb buf s) = Some s' ->
      i_size (inodes s' inum) = S)
  /\ (forall offset whence s',
      final_state (fsSeek bfsFdToInum fd offset whence s) = Some s' ->
      i_size (inodes s' inum) = S)
  /\ (forall numb buf s',
      final_state (fsWrite B bfsFdToInum fd numb buf s) = Some s' ->
      S <= i_size (inodes s' inum))
  /\ (forall numb buf s',
      INT_MIN <= C + numb <= INT_MAX ->
      final_state (fsWrite B bfsFdToInum fd numb buf s) = Some s' ->
      i_size (inodes s' inum) = S
      \/ (S < C + numb /\ i_size (inodes s' inum) = C + numb))
  /\ (forall numb buf r s',
      INT_MIN <= C + numb <= INT_MAX ->
      fsWrite B bfsFdToInum fd numb buf s = Ok r s' ->
      i_size (inodes s' inum) = (if S <? C + numb then C + numb else S)).
Proof.
  intros inum C S.
  assert (Hany : forall numb buf s',
    final_state (fsWrite B bfsFdToInum fd numb buf s) = Some s' ->
    i_size (inodes s' inum) = S
    \/ (S < add32 C numb /\ i_size (inodes s' inum) = add32 C numb)).
  { intros numb buf s' Hfin.
    pose proof (fsWrite_size fd numb buf s) as Hsz.
    cbv zeta in Hsz. fold inum C S in Hsz.
    destruct (fsWrite B bfsFdToInum fd numb buf s) as [r s1|e s1|];
      simpl in Hfin; simplify_eq; [|done].
    destruct Hsz as [_ Hsz].
    destruct (Z.ltb_spec S (add32 C numb)); auto. }
  split; [|split; [|split; [|split]]].
  - intros numb buf s'. unfold fsRead. fold inum.
    destruct (numb <=? 0); [by intros [= <-]|].
    unfold bind at 1, bfsTell at 1. fold inum C.
    unfold bind at 1, bfsGetSize at 1. fold S.
    destruct ((if S <? add32 C numb then sub32 S C else numb) <=? 0);
      [by intros [= <-]|].
    unfold bind at 1.
    match goal with
    | |- context [read_loop B ?a1 ?a2 ?a3 ?a4 ?a5 ?a6 ?a7 ?a8] =>
        pose proof (read_loop_frame a1 a2 a3 a4 a5 a6 a7 a8) as Hf;
        destruct (read_loop B a1 a2 a3 a4 a5 a6 a7 a8)
          as [[n b'] s1|e s1|]
    end; simpl in *.
    + intros [= <-]. simpl. destruct Hf as (_ & -> & _). done.
    + intros [= <-]. destruct Hf as (_ & -> & _). done.
    + done.
  - intros offset whence s'. rewrite fsSeek_unfold. fold inum.
    destruct (offset <? 0); [by intros [= <-]|].
    destruct (whence =? SEEK_SET); [by intros [= <-]|].
    destruct (whence =? SEEK_CUR); [by intros [= <-]|].
    destruct (whence =? SEEK_END); by intros [= <-].
  - intros numb buf s' Hfin. destruct (Hany numb buf s' Hfin); lia.
  - intros numb buf s' Hr Hfin.
    rewrite <- (add32_id C numb) by done. by apply (Hany numb buf).
  - intros numb buf r s' Hr Hrun.
    pose proof (fsWrite_size fd numb buf s) as Hsz.
    cbv zeta in Hsz. fold inum C S in Hsz.
    rewrite add32_id in Hsz by done.
    rewrite Hrun in Hsz. apply Hsz.
Qed.

(** C7, amended: within one [fsRead] every disk block is read from the
    block store at most once and none is written.  Within one successful
    [fsWrite] the transfers are those of the gap fill followed by those of
    the requested range: the gap fill writes a block at most once and reads
    none, and the requested range reads a block at most once and writes it
    at most once; so a block is read at most once and written at most
    twice. *)
Theorem block_transfers_per_call fd numb buf s :
  wf_file B s (bfsFdToInum fd) -> 0 < numb ->
  no_overflow B bfsFdToInum s fd numb ->
  numb <= Z.of_nat (length buf) ->
  (exists r s' ops,
      fsRead B bfsFdToInum fd numb buf s = Ok r s'
      /\ biolog s' = biolog s ++ ops
      /\ forall d, (reads_of d ops <= 1)%nat /\ writes_of d ops = 0%nat)
  /\ (forall r s',
      fsWrite B bfsFdToInum fd numb buf s = Ok r s' ->
      exists opsg opsw,
        biolog s' = biolog s ++ opsg ++ opsw
        /\ forall d,
            reads_of d opsg = 0%nat /\ (writes_of d opsg <= 1)%nat
            /\ (reads_of d opsw <= 1)%nat /\ (writes_of d opsw <= 1)%nat
            /\ (reads_of d (opsg ++ opsw) <= 1)%nat
            /\ (writes_of d (opsg ++ opsw) <= 2)%nat).
Proof.
  intros Hwf Hnumb Hov Hbuf. split.
  - destruct (fsRead_spec fd numb buf s Hwf Hnumb Hov Hbuf)
      as (buf' & ops & Hrd & _ & _ & Hnil & Hnd & Hall).
    eexists _, _, ops. split; [exact Hrd|]. split.
    + destruct (Z.eqb_spec (Z.max 0 (Z.min numb
          (i_size (inodes s (bfsFdToInum fd)) - g_oft s (bfsFdToInum fd)))) 0)
        as [Hz|Hz]; [|done].
      rewrite (Hnil Hz). by rewrite app_nil_r.
    + intros d. split; [by apply NoDup_reads_of|].
      apply no_writes. eapply Forall_impl; [exact Hall|].
      intros o (f & d' & _ & Heq). eauto.
  - intros r s' Hw.
    destruct (fsWrite_ok_inv fd numb buf s r s' Hwf Hnumb Hov Hbuf Hw)
      as (_ & opsg & opsw & _ & _ & _ & _ & Hlog & Hndg & Hallg & Hndw & _).
    exists opsg, opsw. split; [exact Hlog|]. intros d.
    pose proof (no_reads d opsg Hallg) as H1.
    pose proof (NoDup_writes_of d opsg Hndg) as H2.
    pose proof (NoDup_reads_of d opsw Hndw) as H3.
    pose proof (NoDup_writes_of d opsw Hndw) as H4.
    rewrite reads_of_app, writes_of_app. lia.
Qed.

(** C8, amended: for a file whose cursor and size are non-negative [i32]
    values, [fsSeek] with a negative offset aborts with [EBADCURS] in every
    mode, so a negative absolute offset aborts.  The cursor that the seek
    computes is not checked: with an offset that is not negative and one of
    the three modes the seek succeeds and stores the [i32] value it
    computes.  With the target being the offset, the cursor plus the offset
    or the size plus the offset, as integers, that value is the target and
    not negative when the target is at most [INT_MAX], and is the wrapped
    value [target - 2^32], a negative cursor, when the target is larger.
    A seek relative to the end with offset 0 succeeds with the cursor at the
    file size; a successful seek returns 0, changes no inode (so no size),
    no disk block and adds no block transfer. *)
Theorem fsSeek_negative_and_end fd s :
  let inum := bfsFdToInum fd in
  wf_file B s inum ->
  (forall offset whence, offset < 0 ->
      fsSeek bfsFdToInum fd offset whence s = Fatal EBADCURS s)
  /\ (forall offset whence,
      0 <= offset <= INT_MAX ->
      whence = SEEK_SET \/ whence = SEEK_CUR \/ whence = SEEK_END ->
      exists s',
        fsSeek bfsFdToInum fd offset whence s = Ok 0 s'
        /\ g_oft s' inum = seek_cursor bfsFdToInum s fd offset whence
        /\ (seek_target bfsFdToInum s fd offset whence <= INT_MAX ->
            g_oft s' inum = seek_target bfsFdToInum s fd offset whence
            /\ 0 <= g_oft s' inum)
        /\ (INT_MAX < seek_target bfsFdToInum s fd offset whence ->
            g_oft s' inum
            = seek_target bfsFdToInum s fd offset whence - 4294967296
            /\ g_oft s' inum < 0))
  /\ (exists s',
      fsSeek bfsFdToInum fd 0 SEEK_END s = Ok 0 s'
      /\ g_oft s' inum = i_size (inodes s inum))
  /\ (forall offset whence r s',
      fsSeek bfsFdToInum fd offset whence s = Ok r s' ->
      r = 0 /\ inodes s' = inodes s /\ disk s' = disk s
      /\ biolog s' = biolog s).
Proof.
  intros inum [Hc Hs _].
  assert (Hneg : forall offset whence, offset < 0 ->
            fsSeek bfsFdToInum fd offset whence s = Fatal EBADCURS s).
  { intros offset whence Ho. rewrite fsSeek_unfold.
    destruct (Z.ltb_spec offset 0); [done | lia]. }
  split; [auto|]. split; [|split].
  - intros offset whence Ho Hmode.
    assert (Hsum : forall a, 0 <= a <= INT_MAX ->
      (a + offset <= INT_MAX ->
       add32 a offset = a + offset /\ 0 <= add32 a offset)
      /\ (INT_MAX < a + offset ->
          add32 a offset = a + offset - 4294967296 /\ add32 a offset < 0)).
    { intros a Ha. split; intros Hsum.
      - rewrite add32_id; unfold INT_MIN, INT_MAX in *; lia.
      - rewrite add32_wrap; unfold INT_MAX in *; lia. }
    rewrite fsSeek_unfold. fold inum.
    unfold seek_cursor, seek_target. fold inum.
    destruct (Z.ltb_spec offset 0); [lia|].
    destruct Hmode as [-> | [-> | ->]]; simpl;
      (eexists; split; [reflexivity|]); simpl; rewrite upd_same.
    + split; [done|]. split; [lia | unfold INT_MAX in *; lia].
    + split; [done|]. apply Hsum, Hc.
    + split; [done|]. apply Hsum, Hs.
  - eexists. rewrite fsSeek_unfold. fold inum. simpl.
    split; [reflexivity|].
    simpl. rewrite upd_same, add32_id;
      unfold INT_MIN, INT_MAX in *; lia.
  - intros offset whence r s' Hrun.
    apply fsSeek_ok_inv in Hrun as (-> & _ & c & -> & _). done.
Qed.

(** C9: for every handle and every length [numb <= 0], [fsRead] and
    [fsWrite] abort with [ENEGNUMB] in the very state they were called in:
    no block transfer is made and cursor and size are unchanged. *)
Theorem nonpositive_length_rejected fd numb buf s :
  numb <= 0 ->
  fsRead B bfsFdToInum fd numb buf s = Fatal ENEGNUMB s
  /\ fsWrite B bfsFdToInum fd numb buf s = Fatal ENEGNUMB s.
Proof.
  intros Hn. unfold fsRead, fsWrite.
  destruct (Z.leb_spec numb 0); [done | lia].
Qed.

(** C10, amended: [fsSeek] rejects every negative offset before it looks at
    the mode, for the three modes and for any other [whence], even when the
    cursor asked for would not be negative.  So a successful seek relative
    to the cursor does not move the cursor backwards as long as the cursor
    plus the offset is at most [INT_MAX]; when the sum is larger, the [i32]
    addition wraps around and the seek, which succeeds all the same, stores
    the cursor plus the offset minus [2^32], a cursor below the old one.
    (An absolute seek and a seek relative to the end can move the cursor
    backwards with any offset.) *)
Theorem fsSeek_rejects_negative_offsets fd offset whence s :
  let inum := bfsFdToInum fd in
  (offset < 0 ->
   fsSeek bfsFdToInum fd offset whence s = Fatal EBADCURS s)
  /\ (forall r s',
      whence = SEEK_CUR ->
      INT_MIN <= g_oft s inum ->
      fsSeek bfsFdToInum fd offset whence s = Ok r s' ->
      (g_oft s inum + offset <= INT_MAX -> g_oft s inum <= g_oft s' inum)
      /\ (g_oft s inum <= INT_MAX -> offset <= INT_MAX ->
          INT_MAX < g_oft s inum + offset ->
          g_oft s' inum = g_oft s inum + offset - 4294967296
          /\ g_oft s' inum < g_oft s inum)).
Proof.
  intros inum. split.
  - intros Ho. rewrite fsSeek_unfold. destruct (Z.ltb_spec offset 0); [done | lia].
  - intros r s' -> Hlo. rewrite fsSeek_unfold. fold inum.
    destruct (Z.ltb_spec offset 0) as [|Ho]; [done|]. simpl.
    intros [= _ <-]. simpl. rewrite upd_same. split.
    + intros Hhi. rewrite add32_id; lia.
    + intros Hc Hoff Hhi. rewrite add32_wrap; unfold INT_MAX in *; lia.
Qed.

(** ** Further properties of the calls *)

(** The three outcomes of [fsSeek]: with a negative offset it aborts with
    [EBADCURS], whatever [whence] is; with an offset that is not negative and
    a [whence] that is none of the three modes it aborts with [EBADWHENCE];
    in both cases in the state it was called in.  It returns 0 exactly when
    the offset is not negative and [whence] is one of the three modes. *)
Theorem fsSeek_outcomes fd offset whence s :
  (offset < 0 ->
   fsSeek bfsFdToInum fd offset whence s = Fatal EBADCURS s)
  /\ (0 <= offset ->
      whence <> SEEK_SET -> whence <> SEEK_CUR -> whence <> SEEK_END ->
      fsSeek bfsFdToInum fd offset whence s = Fatal EBADWHENCE s)
  /\ ((exists s', fsSeek bfsFdToInum fd offset whence s = Ok 0 s')
      <-> 0 <= offset
          /\ (whence = SEEK_SET \/ whence = SEEK_CUR \/ whence = SEEK_END))
  /\ (forall r s',
        fsSeek bfsFdToInum fd offset whence s = Ok r s' -> r = 0).
Proof.
  rewrite fsSeek_unfold. split; [|split; [|split]].
  - intros Ho. destruct (Z.ltb_spec offset 0); [done | lia].
  - intros Ho H1 H2 H3.
    destruct (Z.ltb_spec offset 0); [lia|].
    destruct (Z.eqb_spec whence SEEK_SET); [done|].
    destruct (Z.eqb_spec whence SEEK_CUR); [done|].
    destruct (Z.eqb_spec whence SEEK_END); done.
  - destruct (Z.ltb_spec offset 0).
    { split; [by intros [s' ?] | lia]. }
    destruct (Z.eqb_spec whence SEEK_SET); [split; eauto|].
    destruct (Z.eqb_spec whence SEEK_CUR); [split; eauto|].
    destruct (Z.eqb_spec whence SEEK_END); [split; eauto|].
    split; [by intros [s' ?]|]. intros [_ [?|[?|?]]]; done.
  - intros r s'.
    destruct (offset <? 0); [done|].
    destruct (whence =? SEEK_SET); [by intros [= <- _]|].
    destruct (whence =? SEEK_CUR); [by intros [= <- _]|].
    destruct (whence =? SEEK_END); [by intros [= <- _] | done].
Qed.

(** After a successful [fsSeek] whose target is an [i32] value, [fsTell] on
    the handle returns the target, and [fsTell] on a handle of another inode
    returns what it returned before; the seek changes nothing but that one
    cursor. *)
Theorem fsSeek_then_fsTell fd offset whence r s s' :
  let inum := bfsFdToInum fd in
  0 <= g_oft s inum -> 0 <= i_size (inodes s inum) ->
  seek_target bfsFdToInum s fd offset whence <= INT_MAX ->
  fsSeek bfsFdToInum fd offset whence s = Ok r s' ->
  fsTell bfsFdToInum fd s'
    = Ok (seek_target bfsFdToInum s fd offset whence) s'
  /\ (forall fd', bfsFdToInum fd' <> inum ->
        fsTell bfsFdToInum fd' s' = Ok (g_oft s (bfsFdToInum fd')) s')
  /\ inodes s' = inodes s /\ disk s' = disk s
  /\ freelist s' = freelist s /\ biolog s' = biolog s.
Proof.
  intros inum Hc Hs Ht Hrun.
  apply fsSeek_ok_inv in Hrun as (_ & Ho & c & -> & Hcase).
  fold inum in Hcase. unfold fsTell, bfsTell. fold inum.
  split; [|split; [|done]].
  - f_equal. simpl. rewrite upd_same.
    unfold seek_target in Ht |- *. fold inum in Ht |- *.
    destruct Hcase as [[-> ->] | [[-> ->] | [-> ->]]]; simpl in Ht |- *;
      rewrite ?add32_id; unfold INT_MIN, INT_MAX in *; lia.
  - intros fd' Hfd. f_equal. simpl. by rewrite upd_other.
Qed.

(** However [fsRead] ends, it has changed no inode, no disk block and not
    the free list, and no cursor but the one of the handle's inode: a read
    never writes to the file. *)
Theorem fsRead_changes_only_cursor fd numb buf s s' :
  let inum := bfsFdToInum fd in
  final_state (fsRead B bfsFdToInum fd numb buf s) = Some s' ->
  inodes s' = inodes s /\ disk s' = disk s /\ freelist s' = freelist s
  /\ (forall i, i <> inum -> g_oft s' i = g_oft s i)
  /\ (forall p, byte_at B s' inum p = byte_at B s inum p).
Proof.
  intros inum.
  assert (Hgoal : inodes s' = inodes s /\ disk s' = disk s
                  /\ freelist s' = freelist s
                  /\ (forall i, i <> inum -> g_oft s' i = g_oft s i) ->
    inodes s' = inodes s /\ disk s' = disk s /\ freelist s' = freelist s
    /\ (forall i, i <> inum -> g_oft s' i = g_oft s i)
    /\ (forall p, byte_at B s' inum p = byte_at B s inum p)).
  { intros (H1 & H2 & H3 & H4). repeat split; auto.
    intros p. unfold byte_at. by rewrite H1, H2. }
  intros Hfin. apply Hgoal. clear Hgoal. revert Hfin.
  unfold fsRead. fold inum.
  destruct (numb <=? 0); [by intros [= <-]|].
  unfold bind at 1, bfsTell at 1. fold inum.
  unfold bind at 1, bfsGetSize at 1.
  match goal with
  | |- context [if ?c <=? 0 then _ else _] => destruct (c <=? 0)
  end; [by intros [= <-]|].
  unfold bind at 1.
  match goal with
  | |- context [read_loop B ?a1 ?a2 ?a3 ?a4 ?a5 ?a6 ?a7 ?a8] =>
      pose proof (read_loop_frame a1 a2 a3 a4 a5 a6 a7 a8) as Hf;
      destruct (read_loop B a1 a2 a3 a4 a5 a6 a7 a8)
        as [[n b'] s1|e s1|]
  end; simpl in *; [| |done].
  - intros [= <-]. simpl. destruct Hf as (Hf1 & -> & -> & ->).
    repeat split; auto. intros i Hi. by rewrite upd_other, Hf1.
  - intros [= <-]. destruct Hf as (-> & -> & -> & ->). done.
Qed.

(** A successful [fsWrite] whose cursor [C] is not beyond the end of the
    file changes the bytes of [C, C + numb) and no other byte of the file:
    without a gap nothing is zeroed. *)
Theorem fsWrite_within_file_frame fd numb buf s r s' :
  let inum := bfsFdToInum fd in
  let C := g_oft s inum in
  wf_file B s inum -> 0 < numb ->
  no_overflow B bfsFdToInum s fd numb ->
  numb <= Z.of_nat (length buf) ->
  C <= i_size (inodes s inum) ->
  fsWrite B bfsFdToInum fd numb buf s = Ok r s' ->
  (forall p, C <= p < C + numb -> byte_at B s' inum p = nthZ buf (p - C))
  /\ (forall p, ~ C <= p < C + numb ->
        byte_at B s' inum p = byte_at B s inum p).
Proof.
  intros inum C Hwf Hnumb Hov Hbuf HC Hrun.
  destruct (fsWrite_ok_inv fd numb buf s r s' Hwf Hnumb Hov Hbuf Hrun)
    as (_ & opsg & opsw & _ & _ & _ & _ & _ & _ & _ & _ & Hb).
  fold inum C in Hb.
  split; intros p Hp; rewrite Hb.
  - destruct (Z.leb_spec C p), (Z.ltb_spec p (C + numb)); simpl; [done|lia..].
  - destruct (Z.leb_spec C p), (Z.ltb_spec p (C + numb)); simpl; try lia;
      (destruct (Z.ltb_spec (i_size (inodes s inum)) C); [lia | done]).
Qed.

(** A call that aborts has not moved any cursor: [fsRead] and [fsWrite]
    store the new cursor as their last step. *)
Theorem aborted_calls_keep_cursor fd numb buf s e s' :
  (fsRead B bfsFdToInum fd numb buf s = Fatal e s' -> g_oft s' = g_oft s)
  /\ (fsWrite B bfsFdToInum fd numb buf s = Fatal e s' ->
      g_oft s' = g_oft s).
Proof.
  split.
  - unfold fsRead.
    destruct (numb <=? 0); [by intros [= _ <-]|].
    unfold bind at 1, bfsTell at 1.
    unfold bind at 1, bfsGetSize at 1.
    match goal with
    | |- context [if ?c <=? 0 then _ else _] => destruct (c <=? 0)
    end; [done|].
    unfold bind at 1.
    match goal with
    | |- context [read_loop B ?a1 ?a2 ?a3 ?a4 ?a5 ?a6 ?a7 ?a8] =>
        pose proof (read_loop_frame a1 a2 a3 a4 a5 a6 a7 a8) as Hf;
        destruct (read_loop B a1 a2 a3 a4 a5 a6 a7 a8)
          as [[n b'] s1|e1 s1|]
    end; simpl in *; [done| |done].
    intros [= _ <-]. apply Hf.
  - unfold fsWrite.
    destruct (numb <=? 0); [by intros [= _ <-]|].
    unfold bind at 1, bfsTell at 1.
    unfold bind at 1, bfsGetSize at 1.
    pose proof (fsWrite_extend_size (bfsFdToInum fd)
                  (g_oft s (bfsFdToInum fd)) numb s) as He.
    cbv zeta in He. unfold bind at 1.
    match goal with
    | |- match ?o with _ => _ end = _ -> _ =>
        destruct o as [[] s1|e1 s1|] eqn:Eo
    end; [| intros [= _ <-]; apply He | done].
    destruct He as [He1 _].
    unfold bind.
    match goal with
    | |- context [write_loop B ?a1 ?a2 ?a3 ?a4 ?a5 ?a6 ?a7 ?a8] =>
        pose proof (write_loop_keeps_size a1 a2 a3 a4 a5 a6 a7 a8) as Hw;
        destruct (write_loop B a1 a2 a3 a4 a5 a6 a7 a8)
          as [rw s2|e2 s2|]
    end; [done| |done].
    intros [= _ <-]. destruct Hw as [Hw1 _]. congruence.
Qed.

Lemma nthZ_app l1 l2 i :
  0 <= i ->
  nthZ (l1 ++ l2) i =
  if i <? Z.of_nat (length l1) then nthZ l1 i
  else nthZ l2 (i - Z.of_nat (length l1)).
Proof.
  intros Hi. rewrite !nthZ_lookup.
  destruct (Z.ltb_spec i (Z.of_nat (length l1))).
  - rewrite lookup_app_l by lia. done.
  - rewrite lookup_app_r by lia. do 2 f_equal. lia.
Qed.

(** What [fsRead] returns for a request that starts inside the file. *)
Lemma fsRead_inside fd numb buf s :
  let inum := bfsFdToInum fd in
  let C := g_oft s inum in
  let n := Z.min numb (i_size (inodes s inum) - C) in
  wf_file B s inum -> 0 < numb -> no_overflow B bfsFdToInum s fd numb ->
  numb <= Z.of_nat (length buf) -> C < i_size (inodes s inum) ->
  exists buf' ops,
    fsRead B bfsFdToInum fd numb buf s
      = Ok (n, buf') (set_curs inum (C + n) (add_log ops s))
    /\ (forall i, 0 <= i < n -> nthZ buf' i = byte_at B s inum (C + i)).
Proof.
  intros inum C n Hwf Hnumb Hov Hbuf HC.
  destruct (fsRead_spec fd numb buf s Hwf Hnumb Hov Hbuf)
    as (buf' & ops & Hrun & _ & Hb & _). fold inum C in Hrun, Hb.
  replace (Z.max 0 (Z.min numb (i_size (inodes s inum) - C))) with n
    in Hrun, Hb by (unfold n; lia).
  destruct (Z.eqb_spec n 0) as [Hn|_]; [unfold n in Hn; lia|].
  exists buf', ops. split; [exact Hrun|].
  intros i Hi. rewrite Hb by (unfold n in Hi; lia).
  destruct (Z.ltb_spec i n); [done | lia].
Qed.

(** Two reads in a row deliver what one read of both lengths delivers: when
    the first request lies inside the file, reading [n1] and then [n2] bytes
    returns the same byte count in total, the same bytes in the same order
    and the same final cursor as reading [n1 + n2] bytes at once. *)
Theorem consecutive_reads fd n1 buf1 n2 buf2 buf s :
  let inum := bfsFdToInum fd in
  let C := g_oft s inum in
  wf_file B s inum -> 0 < n1 -> 0 < n2 ->
  no_overflow B bfsFdToInum s fd (n1 + n2) ->
  C + n1 <= i_size (inodes s inum) ->
  n1 <= Z.of_nat (length buf1) -> n2 <= Z.of_nat (length buf2) ->
  n1 + n2 <= Z.of_nat (length buf) ->
  exists b1 s1 k b2 s2 b s12,
    fsRead B bfsFdToInum fd n1 buf1 s = Ok (n1, b1) s1
    /\ fsRead B bfsFdToInum fd n2 buf2 s1 = Ok (k, b2) s2
    /\ fsRead B bfsFdToInum fd (n1 + n2) buf s = Ok (n1 + k, b) s12
    /\ g_oft s2 inum = g_oft s12 inum
    /\ (forall i, 0 <= i < n1 -> nthZ b i = nthZ b1 i)
    /\ (forall i, 0 <= i < k -> nthZ b (n1 + i) = nthZ b2 i).
Proof.
  intros inum C Hwf Hn1 Hn2 Hov HC Hb1 Hb2 Hb.
  unfold no_overflow in Hov. fold inum C in Hov.
  pose proof Hwf as [Hc Hs Hok]. fold C in Hc.
  set (S := i_size (inodes s inum)) in *.
  (* the first read *)
  destruct (fsRead_inside fd n1 buf1 s) as (b1 & ops1 & Hrun1 & Hbytes1);
    [done | done | unfold no_overflow; fold inum C; lia | done
    | fold inum C S; lia |].
  fold inum C S in Hrun1, Hbytes1.
  replace (Z.min n1 (S - C)) with n1 in Hrun1, Hbytes1 by lia.
  set (s1 := set_curs inum (C + n1) (add_log ops1 s)) in *.
  assert (Hwf1 : wf_file B s1 inum).
  { apply wf_file_set_curs; [|unfold INT_MAX in *; lia].
    split; [done | done | by apply blocks_ok_add_log]. }
  assert (Hc1 : g_oft s1 inum = C + n1) by (simpl; apply upd_same).
  (* the second read *)
  destruct (fsRead_spec fd n2 buf2 s1) as
    (b2 & ops2 & Hrun2 & _ & Hbytes2 & _);
    [done | done | unfold no_overflow; fold inum; rewrite Hc1; lia | done |].
  fold inum in Hrun2, Hbytes2. rewrite Hc1 in Hrun2, Hbytes2.
  change (i_size (inodes s1 inum)) with S in Hrun2, Hbytes2.
  set (k := Z.max 0 (Z.min n2 (S - (C + n1)))) in *.
  (* the read of both lengths *)
  destruct (fsRead_inside fd (n1 + n2) buf s) as (b & ops & Hrun & Hbytes);
    [done | lia | done | done | fold inum C S; lia |].
  fold inum C S in Hrun, Hbytes.
  replace (Z.min (n1 + n2) (S - C)) with (n1 + k) in Hrun, Hbytes
    by (unfold k; lia).
  eexists b1, s1, k, b2, _, b, _.
  split; [exact Hrun1|]. split; [exact Hrun2|]. split; [exact Hrun|].
  split; [|split].
  - destruct (Z.eqb_spec k 0) as [Hk|_]; simpl; rewrite ?upd_same; lia.
  - intros i Hi. rewrite Hbytes, Hbytes1 by (unfold k; lia). done.
  - intros i Hi. rewrite Hbytes by lia. rewrite Hbytes2 by lia.
    destruct (Z.ltb_spec i k); [|lia].
    change (byte_at B s1 inum (C + n1 + i))
      with (byte_at B s inum (C + n1 + i)).
    f_equal. lia.
Qed.

(** Two writes in a row leave what one write of both buffers leaves: after
    [fsWrite] of [buf1] and then of [buf2], the bytes of the file, its size
    and the cursor are those after one [fsWrite] of [buf1 ++ buf2]. *)
Theorem consecutive_writes fd n1 buf1 n2 buf2 s r1 s1 r2 s2 r s' :
  let inum := bfsFdToInum fd in
  wf_file B s inum -> 0 < n1 -> 0 < n2 ->
  no_overflow B bfsFdToInum s fd (n1 + n2) ->
  Z.of_nat (length buf1) = n1 -> Z.of_nat (length buf2) = n2 ->
  fsWrite B bfsFdToInum fd n1 buf1 s = Ok r1 s1 ->
  fsWrite B bfsFdToInum fd n2 buf2 s1 = Ok r2 s2 ->
  fsWrite B bfsFdToInum fd (n1 + n2) (buf1 ++ buf2) s = Ok r s' ->
  (forall p, byte_at B s2 inum p = byte_at B s' inum p)
  /\ i_size (inodes s2 inum) = i_size (inodes s' inum)
  /\ g_oft s2 inum = g_oft s' inum.
Proof.
  intros inum Hwf Hn1 Hn2 Hov Hl1 Hl2 Hw1 Hw2 Hw.
  pose proof Hwf as [Hc Hs Hok].
  unfold no_overflow in Hov. fold inum in Hov.
  set (C := g_oft s inum) in *. set (S := i_size (inodes s inum)) in *.
  destruct (fsWrite_ok_inv fd n1 buf1 s r1 s1) as
    (_ & g1 & w1 & Hwf1 & Hc1 & Hs1 & _ & _ & _ & _ & _ & Hb1);
    [done | done | unfold no_overflow; fold inum C; lia | lia | done |].
  fold inum C S in Hwf1, Hc1, Hs1, Hb1.
  destruct (fsWrite_ok_inv fd n2 buf2 s1 r2 s2) as
    (_ & g2 & w2 & Hwf2 & Hc2 & Hs2 & _ & _ & _ & _ & _ & Hb2);
    [done | done | unfold no_overflow; fold inum; rewrite Hc1; lia | lia
    | done |].
  fold inum in Hwf2, Hc2, Hs2, Hb2.
  rewrite Hc1 in Hc2. rewrite Hc1, Hs1 in Hs2, Hb2.
  destruct (fsWrite_ok_inv fd (n1 + n2) (buf1 ++ buf2) s r s') as
    (_ & g & w & Hwf' & Hc' & Hs' & _ & _ & _ & _ & _ & Hb');
    [done | lia | done | rewrite length_app; lia | done |].
  fold inum C S in Hwf', Hc', Hs', Hb'.
  split; [|split; lia].
  intros p. rewrite Hb2, Hb1, Hb'.
  destruct (Z.ltb_spec (Z.max S (C + n1)) (C + n1)) as [?|_]; [lia|].
  simpl.
  destruct (Z.leb_spec (C + n1) p), (Z.ltb_spec p (C + n1 + n2)),
    (Z.leb_spec C p), (Z.ltb_spec p (C + n1)),
    (Z.ltb_spec p (C + (n1 + n2))); simpl; try lia; auto.
  - rewrite nthZ_app by lia.
    destruct (Z.ltb_spec (p - C) (Z.of_nat (length buf1))); [lia|].
    f_equal. lia.
  - rewrite nthZ_app by lia.
    destruct (Z.ltb_spec (p - C) (Z.of_nat (length buf1))); [done | lia].
Qed.

(** *** Which blocks a write binds *)

Lemma gap_loop_binds fuel : forall inum C g s s',
  blocks_ok B s inum -> 0 <= g -> C + B <= INT_MAX ->
  (Z.to_nat (C - g) <= fuel)%nat ->
  gap_loop B fuel inum C g s = Ok tt s' ->
  forall f, g / B <= f -> g + (f - g / B) * B < C ->
            is_Some (i_map (inodes s' inum) !! f).
Proof.
  induction fuel as [|fuel IH];
    intros inum C g s s' Hok Hg HC Hfuel Hrun f Hf1 Hf2.
  - assert (C <= g) by lia. nia.
  - simpl gap_loop in Hrun. destruct (Z.ltb_spec g C) as [Hlt|Hge]; [|nia].
    rewrite quot32_id in Hrun by (unfold INT_MAX in *; lia).
    rewrite add32_id in Hrun by (unfold INT_MIN, INT_MAX in *; lia).
    destruct (resolve_or_alloc_spec inum (g / B) s Hok)
      as [(d & s1 & Hrun1 & Hok1 & Hex1 & Hm1 & Hl1 & Hb1) | [Hrun1 Hnil]];
      unfold bind, bfsFbnToDbn in Hrun1, Hrun; rewrite Hrun1 in Hrun;
      [|done].
    unfold bioWrite in Hrun.
    destruct (bioWrite_spec inum (g / B) d (zeros B) s1 Hok1 Hm1
                (length_zeros B)) as (Hok2 & Hex2 & Hl2 & Hb2).
    set (s2 := log_op (BioWrite d) (set_block d (zeros B) s1)) in *.
    destruct (Z.eq_dec f (g / B)) as [->|Hne].
    + destruct (gap_loop_spec fuel inum C (g + B) s2 Hok2)
        as [(s'' & ops & Hrun' & _ & Hex' & _) | (s'' & Hrun' & _)];
        [lia | lia | lia | |]; rewrite Hrun in Hrun'; [|done].
      injection Hrun' as <-. exists d. apply Hex', Hex2, Hm1.
    + apply (IH inum C (g + B) s2 s' Hok2); try lia; [done| |];
        rewrite div_add_block; lia.
Qed.

Lemma write_loop_binds fuel : forall inum N buf n fbn off s r s',
  blocks_ok B s inum ->
  0 <= n <= N -> 0 <= fbn -> 0 <= off < B ->
  fbn + (N - n) < INT_MAX ->
  N + B <= INT_MAX ->
  N <= Z.of_nat (length buf) ->
  (Z.to_nat (N - n) <= fuel)%nat ->
  write_loop B fuel inum N buf n fbn off s = Ok r s' ->
  forall f, n < N -> fbn <= f -> f * B < fbn * B + off + (N - n) ->
            is_Some (i_map (inodes s' inum) !! f).
Proof.
  induction fuel as [|fuel IH];
    intros inum N buf n fbn off s r s' Hok Hn Hf Ho Hmax HN Hbuf Hfuel
           Hrun f HnN Hf1 Hf2.
  - lia.
  - simpl write_loop in Hrun.
    destruct (Z.ltb_spec n N) as [Hlt|Hge]; [|lia].
    rewrite span_id in Hrun by lia.
    set (len := Z.min (B - off) (N - n)) in *.
    assert (Hlen : 0 < len <= B - off /\ len <= N - n) by (unfold len; lia).
    rewrite (add32_id n len) in Hrun by (unfold INT_MIN, INT_MAX in *; lia).
    rewrite (add32_id fbn 1) in Hrun by (unfold INT_MIN, INT_MAX in *; lia).
    destruct (write_iter_spec inum N buf n fbn off len
                (write_loop B fuel inum N buf (n + len) (fbn + 1) 0) s)
      as (o & Hrun1
          & [(d & s2 & ops1 & -> & Hok2 & Hex2 & Hm2 & Hops1 & Hl2 & Hb2)
            | [-> Hnil]]);
      [done | lia | lia | lia | done | lia | |];
      rewrite Hrun1 in Hrun; [|done].
    destruct (Z.eq_dec f fbn) as [->|Hne].
    + destruct (write_loop_spec fuel inum N buf (n + len) (fbn + 1) 0 s2 Hok2)
        as [(s'' & ops & Hrun' & _ & Hex' & _) | (s'' & Hrun' & _)];
        [lia | lia | lia | lia | lia | lia | lia | |];
        rewrite Hrun in Hrun'; [|done].
      injection Hrun' as _ <-. exists d. apply Hex', Hm2.
    + assert (Hmore : n + len < N) by (unfold len in *; nia).
      apply (IH inum N buf (n + len) (fbn + 1) 0 s2 r s' Hok2);
        try lia; try done; unfold len in *; nia.
Qed.

(** A successful [fsWrite], cut at its two loops. *)
Lemma fsWrite_ok_split fd numb buf s r s' :
  let inum := bfsFdToInum fd in
  let C := g_oft s inum in
  let S := i_size (inodes s inum) in
  wf_file B s inum -> 0 < numb ->
  no_overflow B bfsFdToInum s fd numb ->
  fsWrite B bfsFdToInum fd numb buf s = Ok r s' ->
  exists s1 s2,
    (if S <? C + numb then
       do! bfsExtend inum (quot32 (sub32 (C + numb) 1) B) in
       do! (if S <? C
            then gap_loop B (Z.to_nat (C - S)) inum C S
            else ret tt) in
       bfsSetSize inum (C + numb)
     else ret tt) s = Ok tt s1
    /\ write_loop B (Z.to_nat numb) inum numb buf 0 (C / B) (C mod B) s1
       = Ok numb s2
    /\ s' = set_curs inum (C + numb) s2 /\ r = 0.
Proof.
  intros inum C S [Hc Hs Hok] Hnumb Hov Hrun.
  unfold no_overflow in Hov. fold inum C in Hov, Hc. fold inum S in Hs.
  unfold fsWrite in Hrun. fold inum in Hrun.
  destruct (Z.leb_spec numb 0) as [?|_]; [lia|].
  unfold bind at 1, bfsTell at 1 in Hrun. fold inum C in Hrun.
  unfold bind at 1, bfsGetSize at 1 in Hrun. fold S in Hrun.
  rewrite (add32_id C numb) in Hrun by (unfold INT_MIN, INT_MAX in *; lia).
  rewrite (quot32_id C B), (rem32_id C B) in Hrun by lia.
  unfold bind at 1 in Hrun.
  match type of Hrun with
  | match ?o with _ => _ end = _ =>
      destruct o as [[] s1|e1 s1|] eqn:E1; [|done|done]
  end.
  unfold bind at 1 in Hrun.
  destruct (write_loop B (Z.to_nat numb) inum numb buf 0 (C / B) (C mod B) s1)
    as [rw s2|e2 s2|] eqn:E2; [|done|done].
  assert (0 <= C / B <= C).
  { split; [apply Z.div_pos; lia|]. apply Z.div_le_upper_bound; nia. }
  pose proof (Z.mod_pos_bound C B BPB_pos).
  apply write_loop_ret in E2 as Hrw;
    [|lia|lia|lia|unfold INT_MAX in *; lia|unfold INT_MAX in *; lia].
  subst rw. unfold bind, bfsSetCursor, ret in Hrun.
  rewrite add32_id in Hrun by (unfold INT_MIN, INT_MAX in *; lia).
  injection Hrun as <- <-. exists s1, s2. auto.
Qed.

(** A file without holes stays without holes: after a successful [fsWrite]
    every logical block below the new size is bound, the blocks of the gap
    by the gap fill and the blocks of the request by the write loop. *)
Theorem fsWrite_keeps_dense fd numb buf s r s' :
  let inum := bfsFdToInum fd in
  wf_file B s inum -> 0 < numb ->
  no_overflow B bfsFdToInum s fd numb ->
  numb <= Z.of_nat (length buf) ->
  blocks_dense B s inum ->
  fsWrite B bfsFdToInum fd numb buf s = Ok r s' ->
  blocks_dense B s' inum.
Proof.
  intros inum Hwf Hnumb Hov Hbuf Hdense Hrun.
  destruct (fsWrite_ok_split fd numb buf s r s' Hwf Hnumb Hov Hrun)
    as (s1 & s2 & Hph & Hwl & -> & _). fold inum in Hph, Hwl.
  destruct Hwf as [Hc Hs Hok]. unfold no_overflow in Hov.
  fold inum in Hov, Hc, Hs.
  set (C := g_oft s inum) in *. set (S := i_size (inodes s inum)) in *.
  (* the extension phase *)
  destruct (fsWrite_extend_spec inum C numb s Hok)
    as [(s1' & opsg & Hph' & Hok1 & _ & Hs1 & Hm1 & _)
       | (s1' & Hph' & _)]; [fold S; lia | lia | lia | lia | |];
    fold S in Hph'; rewrite Hph in Hph'; [|done].
  injection Hph' as <-. fold S in Hs1.
  assert (Hgap : forall f, S < C -> S / B <= f ->
            S + (f - S / B) * B < C ->
            is_Some (i_map (inodes s1 inum) !! f)).
  { intros f HSC Hf1 Hf2.
    destruct (Z.ltb_spec S (C + numb)); [|lia].
    unfold bind at 1, bfsExtend at 1 in Hph.
    destruct (Z.ltb_spec S C); [|lia].
    unfold bind in Hph.
    destruct (gap_loop B (Z.to_nat (C - S)) inum C S s)
      as [[] sg|e sg|] eqn:Eg; [|done|done].
    unfold bfsSetSize in Hph. injection Hph as <-.
    simpl. rewrite upd_same. simpl.
    apply (gap_loop_binds (Z.to_nat (C - S)) inum C S s sg Hok);
      [lia | unfold INT_MAX in *; lia | lia | exact Eg | done | done]. }
  (* the write loop *)
  destruct (block_split C B BPB_pos) as [HC Hoff].
  assert (HCB : 0 <= C / B <= C).
  { split; [apply Z.div_pos; lia|]. apply Z.div_le_upper_bound; nia. }
  destruct (write_loop_spec (Z.to_nat numb) inum numb buf 0
              (C / B) (C mod B) s1 Hok1)
    as [(s2' & opsw & Hwl' & _ & [_ Hs2 Hm2 _] & _) | (s2' & Hwl' & _)];
    [lia | lia | lia | unfold INT_MAX in *; lia | unfold INT_MAX in *; lia
    | lia | lia | |]; rewrite Hwl in Hwl'; [|done].
  injection Hwl' as <-.
  assert (Hbind : forall f, C / B <= f -> f * B < C + numb ->
            is_Some (i_map (inodes s2 inum) !! f)).
  { intros f Hf1 Hf2.
    apply (write_loop_binds (Z.to_nat numb) inum numb buf 0 (C / B)
             (C mod B) s1 numb s2 Hok1);
      [lia | lia | lia | unfold INT_MAX in *; lia
      | unfold INT_MAX in *; lia | lia | lia | exact Hwl | lia | done
      | lia]. }
  intros f Hf0 Hfs. cbn [inodes set_curs] in Hfs |- *.
  rewrite Hs2, Hs1 in Hfs.
  destruct (Z.lt_ge_cases (f * B) S) as [Hold|Hnew].
  { destruct (Hdense f Hf0 Hold) as [d Hd]. exists d. auto. }
  destruct (Z.le_gt_cases (C / B) f) as [Hw|Hg].
  - apply Hbind; [done | lia].
  - assert (Hfb : f * B + B <= C) by nia.
    destruct (block_split S B BPB_pos) as [HS HSr].
    assert (HSf : S / B <= f) by nia.
    destruct (Hgap f) as [d Hd]; [lia | done | lia |].
    exists d. auto.
Qed.

(** *** Transfers and allocations of calls inside the file *)

Lemma read_loop_count fuel : forall inum N n fbn off buf s r s',
  0 <= n <= N -> 0 <= fbn -> 0 <= off < B ->
  fbn + (N - n) < INT_MAX -> N + B <= INT_MAX ->
  (forall f, fbn <= f -> f * B < fbn * B + off + (N - n) ->
             is_Some (i_map (inodes s inum) !! f)) ->
  read_loop B fuel inum N n fbn off buf s = Ok r s' ->
  Z.of_nat (length (biolog s'))
  = Z.of_nat (length (biolog s))
    + (if n <? N then (fbn * B + off + (N - n) - 1) / B - fbn + 1 else 0).
Proof.
  induction fuel as [|fuel IH];
    intros inum N n fbn off buf s r s' Hn Hf Ho Hmax HN Hbound Hrun.
  - simpl in Hrun. destruct (Z.ltb_spec n N); [done|].
    injection Hrun as _ <-. lia.
  - simpl read_loop in Hrun. destruct (Z.ltb_spec n N) as [Hlt|Hge].
    2:{ injection Hrun as _ <-. lia. }
    rewrite span_id in Hrun by lia.
    set (len := Z.min (B - off) (N - n)) in *.
    assert (Hlen : 0 < len <= B - off /\ len <= N - n) by (unfold len; lia).
    rewrite (add32_id n len) in Hrun by (unfold INT_MIN, INT_MAX in *; lia).
    rewrite (add32_id fbn 1) in Hrun by (unfold INT_MIN, INT_MAX in *; lia).
    unfold bind at 1, bfsFbnToDbn at 1 in Hrun.
    destruct (Hbound fbn) as [d Hd]; [lia | lia |].
    rewrite Hd in Hrun. unfold bind, bioRead in Hrun.
    apply IH in Hrun; [|lia|lia|lia|lia|lia|].
    2:{ intros f Hf1 Hf2. apply Hbound; [lia|]. unfold len in *. nia. }
    rewrite Hrun. simpl. rewrite length_app. simpl.
    destruct (Z.ltb_spec (n + len) N) as [Hmore|Hlast].
    + replace ((fbn + 1) * B + 0 + (N - (n + len)) - 1)
        with (fbn * B + off + (N - n) - 1) by (unfold len in *; lia).
      lia.
    + replace (fbn * B + off + (N - n) - 1)
        with (fbn * B + (off + len - 1)) by (unfold len in *; lia).
      rewrite block_div by lia. lia.
Qed.

(** In a file without holes [fsRead] makes one transfer for each block of
    the range it reads: a read of [n > 0] bytes at cursor [C] adds
    [(C + n - 1) / BYTESPERBLOCK - C / BYTESPERBLOCK + 1] transfers to the
    log, however many bytes of each block it takes. *)
Theorem fsRead_one_transfer_per_block fd numb buf s :
  let inum := bfsFdToInum fd in
  let C := g_oft s inum in
  let n := Z.min numb (i_size (inodes s inum) - C) in
  wf_file B s inum -> blocks_dense B s inum -> 0 < numb ->
  no_overflow B bfsFdToInum s fd numb ->
  numb <= Z.of_nat (length buf) -> C < i_size (inodes s inum) ->
  exists buf' s',
    fsRead B bfsFdToInum fd numb buf s = Ok (n, buf') s'
    /\ Z.of_nat (length (biolog s'))
       = Z.of_nat (length (biolog s)) + ((C + n - 1) / B - C / B + 1).
Proof.
  intros inum C n Hwf Hdense Hnumb Hov Hbuf HC.
  destruct (fsRead_inside fd numb buf s Hwf Hnumb Hov Hbuf HC)
    as (buf' & ops & Hrun & _). fold inum C n in Hrun.
  eexists buf', _. split; [exact Hrun|].
  destruct Hwf as [Hc Hs _]. unfold no_overflow in Hov.
  fold inum in Hc, Hs, Hov. fold C in Hc, Hov.
  set (S := i_size (inodes s inum)) in *.
  assert (Hn : 0 < n <= numb /\ C + n <= S) by (unfold n; lia).
  unfold fsRead in Hrun. fold inum in Hrun.
  destruct (Z.leb_spec numb 0) as [?|_]; [lia|].
  unfold bind at 1, bfsTell at 1 in Hrun. fold inum C in Hrun.
  unfold bind at 1, bfsGetSize at 1 in Hrun. fold S in Hrun.
  rewrite (add32_id C numb) in Hrun by (unfold INT_MIN, INT_MAX in *; lia).
  rewrite (sub32_id S C) in Hrun by (unfold INT_MIN, INT_MAX in *; lia).
  replace (if S <? C + numb then S - C else numb) with n in Hrun
    by (unfold n; destruct (Z.ltb_spec S (C + numb)); lia).
  destruct (Z.leb_spec n 0) as [?|_]; [lia|].
  rewrite (quot32_id C B), (rem32_id C B) in Hrun by lia.
  unfold bind at 1 in Hrun.
  destruct (read_loop B (Z.to_nat n) inum n 0 (C / B) (C mod B) buf s)
    as [[k b] s1|e s1|] eqn:El; [|done|done].
  destruct (block_split C B BPB_pos) as [HCs Hoff].
  assert (0 <= C / B <= C).
  { split; [apply Z.div_pos; lia|]. apply Z.div_le_upper_bound; nia. }
  apply read_loop_count in El;
    [|lia|lia|lia|unfold INT_MAX in *; lia|unfold INT_MAX in *; lia|].
  2:{ intros f Hf1 Hf2. apply Hdense; [lia|]. fold S. lia. }
  unfold bind, bfsSetCursor, ret in Hrun.
  injection Hrun as _ _ _ _ _ _ Hlog.
  simpl. rewrite <- Hlog, El.
  destruct (Z.ltb_spec 0 n); [|lia].
  replace (C / B * B + C mod B + (n - 0) - 1) with (C + n - 1) by lia.
  done.
Qed.

Lemma write_loop_no_alloc fuel : forall inum N buf n fbn off s,
  0 <= n <= N -> 0 <= fbn -> 0 <= off < B ->
  fbn + (N - n) < INT_MAX -> N + B <= INT_MAX ->
  (Z.to_nat (N - n) <= fuel)%nat ->
  (forall f, fbn <= f -> f * B < fbn * B + off + (N - n) ->
             is_Some (i_map (inodes s inum) !! f)) ->
  exists s',
    write_loop B fuel inum N buf n fbn off s = Ok N s'
    /\ freelist s' = freelist s /\ inodes s' = inodes s
    /\ g_oft s' = g_oft s.
Proof.
  induction fuel as [|fuel IH];
    intros inum N buf n fbn off s Hn Hf Ho Hmax HN Hfuel Hbound.
  - assert (n = N) as -> by lia. exists s. simpl.
    by rewrite Z.ltb_irrefl.
  - simpl write_loop. destruct (Z.ltb_spec n N) as [Hlt|Hge].
    2:{ assert (n = N) as -> by lia. by exists s. }
    rewrite span_id by lia.
    set (len := Z.min (B - off) (N - n)).
    assert (Hlen : 0 < len <= B - off /\ len <= N - n) by (unfold len; lia).
    rewrite (add32_id n len) by (unfold INT_MIN, INT_MAX in *; lia).
    rewrite (add32_id fbn 1) by (unfold INT_MIN, INT_MAX in *; lia).
    unfold bind at 1, bfsFbnToDbn at 1.
    destruct (Hbound fbn) as [d Hd]; [lia | lia |]. rewrite Hd.
    assert (Hrest : forall s2,
      inodes s2 = inodes s -> freelist s2 = freelist s ->
      g_oft s2 = g_oft s ->
      exists s',
        write_loop B fuel inum N buf (n + len) (fbn + 1) 0 s2 = Ok N s'
        /\ freelist s' = freelist s /\ inodes s' = inodes s
        /\ g_oft s' = g_oft s).
    { intros s2 Hi Hfl Hg.
      destruct (IH inum N buf (n + len) (fbn + 1) 0 s2)
        as (s' & Hrun & H1 & H2 & H3); [lia|lia|lia|lia|lia|lia| |].
      - intros f Hf1 Hf2. rewrite Hi. apply Hbound; [lia|].
        unfold len in *. nia.
      - exists s'. split; [done|]. split; [congruence|].
        split; congruence. }
    destruct (negb (off =? 0) || (sub32 N n <? B));
      unfold bind, ret, bioRead, bioWrite; apply Hrest; done.
Qed.

(** A write that stays inside a file without holes needs no new block: it
    succeeds whatever the free list holds, and it changes neither the free
    list nor any inode (no size, no block binding). *)
Theorem fsWrite_inside_needs_no_block fd numb buf s :
  let inum := bfsFdToInum fd in
  let C := g_oft s inum in
  wf_file B s inum -> blocks_dense B s inum -> 0 < numb ->
  no_overflow B bfsFdToInum s fd numb ->
  C + numb <= i_size (inodes s inum) ->
  exists s',
    fsWrite B bfsFdToInum fd numb buf s = Ok 0 s'
    /\ freelist s' = freelist s /\ inodes s' = inodes s.
Proof.
  intros inum C [Hc Hs _] Hdense Hnumb Hov HC.
  unfold no_overflow in Hov. fold inum in Hc, Hs, Hov. fold C in Hc, Hov.
  set (S := i_size (inodes s inum)) in *.
  unfold fsWrite. fold inum.
  destruct (Z.leb_spec numb 0) as [?|_]; [lia|].
  unfold bind at 1, bfsTell at 1. fold inum C.
  unfold bind at 1, bfsGetSize at 1. fold S.
  rewrite (add32_id C numb) by (unfold INT_MIN, INT_MAX in *; lia).
  destruct (Z.ltb_spec S (C + numb)) as [?|_]; [lia|].
  unfold bind at 1, ret at 1.
  rewrite (quot32_id C B), (rem32_id C B) by lia.
  destruct (block_split C B BPB_pos) as [HCs Hoff].
  assert (0 <= C / B <= C).
  { split; [apply Z.div_pos; lia|]. apply Z.div_le_upper_bound; nia. }
  destruct (write_loop_no_alloc (Z.to_nat numb) inum numb buf 0
              (C / B) (C mod B) s) as (s2 & Hrun & Hfl & Hi & Hg);
    [lia | lia | lia | unfold INT_MAX in *; lia | unfold INT_MAX in *; lia
    | lia | |].
  { intros f Hf1 Hf2. apply Hdense; [lia|]. fold S. lia. }
  unfold bind at 1. rewrite Hrun. unfold bind, bfsSetCursor, ret.
  eexists. split; [reflexivity|]. done.
Qed.

(** *** Writes of whole blocks *)

Lemma gap_loop_only_writes fuel : forall inum C g s s',
  final_state (gap_loop B fuel inum C g s) = Some s' ->
  exists ops, biolog s' = biolog s ++ ops
              /\ Forall (fun o => exists d, o = BioWrite d) ops.
Proof.
  induction fuel as [|fuel IH]; intros inum C g s s'; simpl.
  - destruct (g <? C); [done|]. intros [= <-]. exists [].
    by rewrite app_nil_r.
  - destruct (g <? C).
    2:{ intros [= <-]. exists []. by rewrite app_nil_r. }
    unfold bind at 1, bfsFbnToDbn at 1.
    assert (Hrest : forall d s1,
      biolog s1 = biolog s ->
      final_state (gap_loop B fuel inum C (add32 g B)
                     (log_op (BioWrite d) (set_block d (zeros B) s1)))
        = Some s' ->
      exists ops, biolog s' = biolog s ++ ops
                  /\ Forall (fun o => exists d, o = BioWrite d) ops).
    { intros d s1 Hlog Hfin. apply IH in Hfin as (ops & Hl & Hall).
      exists (BioWrite d :: ops). split.
      - rewrite Hl. simpl. rewrite Hlog, <- app_assoc. done.
      - constructor; eauto. }
    destruct (i_map (inodes s inum) !! quot32 g B) as [d|].
    + unfold bind, ret, bioWrite. by apply Hrest.
    + unfold bind, bfsAllocBlock.
      destruct (freelist s) as [|d rest].
      * intros [= <-]. exists []. by rewrite app_nil_r.
      * unfold bioWrite. by apply Hrest.
Qed.

Lemma write_loop_aligned fuel : forall inum N buf n fbn q s s',
  0 <= n <= N -> N + B <= INT_MAX -> N - n = q * B ->
  final_state (write_loop B fuel inum N buf n fbn 0 s) = Some s' ->
  exists ops, biolog s' = biolog s ++ ops
              /\ Forall (fun o => exists d, o = BioWrite d) ops.
Proof.
  induction fuel as [|fuel IH]; intros inum N buf n fbn q s s' Hn HN Hq;
    simpl write_loop.
  - destruct (n <? N); [done|]. intros [= <-]. exists [].
    by rewrite app_nil_r.
  - destruct (Z.ltb_spec n N) as [Hlt|Hge].
    2:{ intros [= <-]. exists []. by rewrite app_nil_r. }
    assert (Hq1 : 1 <= q) by nia.
    assert (HB : B <= N - n) by nia.
    rewrite span_id by lia.
    replace (Z.min (B - 0) (N - n)) with B by lia.
    rewrite (sub32_id N n) by (unfold INT_MIN, INT_MAX in *; lia).
    destruct (Z.ltb_spec (N - n) B) as [?|_]; [lia|]. simpl.
    rewrite (add32_id n B) by (unfold INT_MIN, INT_MAX in *; lia).
    unfold bind at 1, bfsFbnToDbn at 1.
    assert (Hrest : forall d blk s1,
      biolog s1 = biolog s ->
      final_state (write_loop B fuel inum N buf (n + B) (add32 fbn 1) 0
                     (log_op (BioWrite d) (set_block d blk s1)))
        = Some s' ->
      exists ops, biolog s' = biolog s ++ ops
                  /\ Forall (fun o => exists d, o = BioWrite d) ops).
    { intros d blk s1 Hlog Hfin.
      apply (IH _ _ _ _ _ (q - 1)) in Hfin as (ops & Hl & Hall);
        [|lia|lia|lia].
      exists (BioWrite d :: ops). split.
      - rewrite Hl. simpl. rewrite Hlog, <- app_assoc. done.
      - constructor; eauto. }
    destruct (i_map (inodes s inum) !! fbn) as [d|].
    + unfold bind, ret, bioWrite. by apply Hrest.
    + unfold bind, bfsAllocBlock.
      destruct (freelist s) as [|d rest].
      * intros [= <-]. exists []. by rewrite app_nil_r.
      * unfold ret, bioWrite. by apply Hrest.
Qed.

(** A write of whole blocks never reads: when the cursor is a multiple of
    [BYTESPERBLOCK] and so is the length, [fsWrite] transfers blocks to the
    block store only, however it ends. *)
Theorem fsWrite_whole_blocks_never_reads fd numb buf s s' :
  let inum := bfsFdToInum fd in
  let C := g_oft s inum in
  0 <= C -> 0 < numb -> no_overflow B bfsFdToInum s fd numb ->
  C mod B = 0 -> numb mod B = 0 ->
  final_state (fsWrite B bfsFdToInum fd numb buf s) = Some s' ->
  exists ops,
    biolog s' = biolog s ++ ops /\ forall d, reads_of d ops = 0%nat.
Proof.
  intros inum C HC Hnumb Hov HCm Hnm.
  unfold no_overflow in Hov. fold inum C in Hov.
  assert (Hgoal :
    (exists ops, biolog s' = biolog s ++ ops
                 /\ Forall (fun o => exists d, o = BioWrite d) ops) ->
    exists ops, biolog s' = biolog s ++ ops
                /\ forall d, reads_of d ops = 0%nat).
  { intros (ops & Hl & Hall). exists ops. split; [done|].
    intros d. by apply no_reads. }
  intros Hfin. apply Hgoal. clear Hgoal. revert Hfin.
  unfold fsWrite. fold inum.
  destruct (Z.leb_spec numb 0) as [?|_]; [lia|].
  unfold bind at 1, bfsTell at 1. fold inum C.
  unfold bind at 1, bfsGetSize at 1.
  set (S := i_size (inodes s inum)).
  rewrite (rem32_id C B), HCm by (unfold INT_MAX in *; lia).
  unfold bind at 1.
  (* the extension phase writes only *)
  assert (Hphase : forall o,
    (if S <? add32 C numb then
       do! bfsExtend inum (quot32 (sub32 (add32 C numb) 1) B) in
       do! (if S <? C
            then gap_loop B (Z.to_nat (C - S)) inum C S
            else ret tt) in
       bfsSetSize inum (add32 C numb)
     else ret tt) s = o ->
    forall s1, final_state o = Some s1 ->
    exists ops, biolog s1 = biolog s ++ ops
                /\ Forall (fun o => exists d, o = BioWrite d) ops).
  { intros o <- s1.
    destruct (S <? add32 C numb).
    2:{ intros [= <-]. exists []. by rewrite app_nil_r. }
    unfold bind at 1, bfsExtend at 1.
    destruct (S <? C).
    2:{ intros [= <-]. exists []. simpl. by rewrite app_nil_r. }
    unfold bind.
    pose proof (gap_loop_only_writes (Z.to_nat (C - S)) inum C S s) as Hg.
    destruct (gap_loop B (Z.to_nat (C - S)) inum C S s) as [[] sg|e sg|];
      simpl; [| |done].
    - intros [= <-]. simpl. by apply Hg.
    - intros [= <-]. by apply Hg. }
  match goal with
  | |- final_state (match ?o with _ => _ end) = _ -> _ =>
      specialize (Hphase o eq_refl); destruct o as [[] s1|e1 s1|]
  end; [| intros [= <-]; by apply Hphase | done].
  destruct (Hphase s1 eq_refl) as (ops1 & Hl1 & Hall1).
  unfold bind.
  destruct (block_split numb B BPB_pos) as [Hnq _]. rewrite Hnm in Hnq.
  match goal with
  | |- context [write_loop B ?a1 ?a2 ?a3 ?a4 ?a5 ?a6 ?a7 ?a8] =>
      pose proof (write_loop_aligned a1 a2 a3 a4 a5 a6 (numb / B) a8) as Hw;
      destruct (write_loop B a1 a2 a3 a4 a5 a6 a7 a8) as [rw s2|e2 s2|]
  end; simpl; [| |done].
  - intros [= <-]. simpl.
    destruct (Hw s2) as (ops2 & Hl2 & Hall2);
      [lia | unfold INT_MAX in *; lia | lia | done |].
    exists (ops1 ++ ops2). split.
    + rewrite Hl2, Hl1. by rewrite app_assoc.
    + by apply Forall_app.
  - intros [= <-].
    destruct (Hw s2) as (ops2 & Hl2 & Hall2);
      [lia | unfold INT_MAX in *; lia | lia | done |].
    exists (ops1 ++ ops2). split.
    + rewrite Hl2, Hl1. by rewrite app_assoc.
    + by apply Forall_app.
Qed.

(** *** Other files *)

Lemma own_frame_refl inum s : own_frame inum s s.
Proof. by split. Qed.

Lemma own_frame_trans inum s1 s2 s3 :
  own_frame inum s1 s2 -> own_frame inum s2 s3 -> own_frame inum s1 s3.
Proof.
  intros [Hi1 Hd1] [Hi2 Hd2]. split.
  - intros j Hj. destruct (Hi1 j Hj) as [<- <-]. by apply Hi2.
  - intros d Hd. destruct (Hd1 d Hd) as [Hf <-]. by apply Hd2.
Qed.

Lemma own_frame_log_op inum o s : own_frame inum s (log_op o s).
Proof. by split. Qed.

Lemma own_frame_set_curs inum c s : own_frame inum s (set_curs inum c s).
Proof.
  split; [|done]. intros j Hj. split; [done|].
  simpl. by rewrite upd_other.
Qed.

Lemma own_frame_set_size inum sz s :
  own_frame inum s
    (set_inode inum (mkInode sz (i_map (inodes s inum))) s).
Proof.
  split.
  - intros j Hj. split; [|done]. simpl. by rewrite upd_other.
  - intros d [Hm Hf]. split; [|done]. split; [|done].
    intros f. simpl. rewrite upd_same. simpl. apply Hm.
Qed.

Lemma own_frame_bound inum f d blk s :
  i_map (inodes s inum) !! f = Some d ->
  own_frame inum s (set_block d blk s).
Proof.
  intros Hd. split; [done|]. intros d' [Hm Hf]. split; [done|].
  simpl. rewrite upd_other; [done|]. intros ->. by apply (Hm f).
Qed.

Lemma own_frame_alloc inum fbn d rest s :
  freelist s = d :: rest ->
  own_frame inum s
    (set_freelist rest
       (set_inode inum
          (mkInode (i_size (inodes s inum))
                   (<[fbn := d]> (i_map (inodes s inum)))) s)).
Proof.
  intros Hfl. split.
  - intros j Hj. split; [|done]. simpl. by rewrite upd_other.
  - intros d' [Hm Hf]. split; [|done]. rewrite Hfl in Hf.
    apply not_elem_of_cons in Hf as [Hne Hf]. split; [|done].
    intros f. simpl. rewrite upd_same. simpl.
    destruct (Z.eq_dec f fbn) as [->|Hne'].
    + rewrite lookup_insert_eq. congruence.
    + rewrite lookup_insert_ne by done. apply Hm.
Qed.

(** One pass of either loop of [fsWrite]: the block is looked up or taken
    from the free list, possibly read, and written. *)
Lemma own_frame_iter inum fbn blk s :
  (forall d, i_map (inodes s inum) !! fbn = Some d ->
     own_frame inum s (log_op (BioWrite d) (set_block d blk s))
     /\ own_frame inum s
          (log_op (BioWrite d) (set_block d blk (log_op (BioRead d) s))))
  /\ (forall d rest, freelist s = d :: rest ->
        own_frame inum s
          (log_op (BioWrite d)
             (set_block d blk
                (set_freelist rest
                   (set_inode inum
                      (mkInode (i_size (inodes s inum))
                               (<[fbn := d]> (i_map (inodes s inum)))) s))))).
Proof.
  split.
  - intros d Hd.
    assert (H : own_frame inum s (set_block d blk s))
      by (by eapply own_frame_bound).
    split; exact H.
  - intros d rest Hfl.
    eapply own_frame_trans; [by apply (own_frame_alloc inum fbn d rest)|].
    eapply own_frame_trans; [|apply own_frame_log_op].
    apply (own_frame_bound inum fbn). simpl. rewrite upd_same. simpl.
    by rewrite lookup_insert_eq.
Qed.

Lemma gap_loop_own_frame fuel : forall inum C g s s',
  final_state (gap_loop B fuel inum C g s) = Some s' -> own_frame inum s s'.
Proof.
  induction fuel as [|fuel IH]; intros inum C g s s'; simpl.
  - destruct (g <? C); [done|]. intros [= <-]. apply own_frame_refl.
  - destruct (g <? C); [|intros [= <-]; apply own_frame_refl].
    unfold bind at 1, bfsFbnToDbn at 1.
    destruct (own_frame_iter inum (quot32 g B) (zeros B) s) as [Hb Ha].
    destruct (i_map (inodes s inum) !! quot32 g B) as [d|].
    + unfold bind, ret, bioWrite. intros Hfin%IH.
      eapply own_frame_trans; [|exact Hfin]. by apply Hb.
    + unfold bind, bfsAllocBlock.
      destruct (freelist s) as [|d rest] eqn:Efl.
      * intros [= <-]. apply own_frame_refl.
      * unfold bioWrite. intros Hfin%IH.
        eapply own_frame_trans; [|exact Hfin]. by apply Ha.
Qed.

Lemma write_loop_own_frame fuel : forall inum N buf n fbn off s s',
  final_state (write_loop B fuel inum N buf n fbn off s) = Some s' ->
  own_frame inum s s'.
Proof.
  induction fuel as [|fuel IH]; intros inum N buf n fbn off s s';
    simpl write_loop.
  - destruct (n <? N); [done|]. intros [= <-]. apply own_frame_refl.
  - destruct (n <? N); [|intros [= <-]; apply own_frame_refl].
    unfold bind at 1, bfsFbnToDbn at 1.
    destruct (i_map (inodes s inum) !! fbn) as [d|] eqn:Hd.
    + destruct (negb (off =? 0) || (sub32 N n <? B));
        unfold bind, ret, bioRead, bioWrite; intros Hfin%IH;
        (eapply own_frame_trans; [|exact Hfin]);
        match goal with
        | |- own_frame _ _ (log_op _ (set_block _ ?blk _)) =>
            destruct (own_frame_iter inum fbn blk s) as [Hb _];
            by apply Hb
        end.
    + unfold bind, bfsAllocBlock.
      destruct (freelist s) as [|d rest] eqn:Efl.
      * intros [= <-]. apply own_frame_refl.
      * unfold ret, bioWrite. intros Hfin%IH.
        eapply own_frame_trans; [|exact Hfin].
        match goal with
        | |- own_frame _ _ (log_op _ (set_block _ ?blk _)) =>
            destruct (own_frame_iter inum fbn blk s) as [_ Ha];
            by apply Ha
        end.
Qed.

(** [fsWrite] stays inside its own file, however it ends: the inodes and
    cursors of the other files are left alone, and a disk block is changed
    only if it was bound to this file or free.  So a file whose blocks are
    foreign to the written file keeps every byte. *)
Theorem fsWrite_touches_own_blocks fd numb buf s s' :
  let inum := bfsFdToInum fd in
  final_state (fsWrite B bfsFdToInum fd numb buf s) = Some s' ->
  (forall j, j <> inum -> inodes s' j = inodes s j /\ g_oft s' j = g_oft s j)
  /\ (forall d, foreign_block s inum d -> disk s' d = disk s d)
  /\ (forall j p,
        j <> inum ->
        (forall f d, i_map (inodes s j) !! f = Some d ->
                     foreign_block s inum d) ->
        byte_at B s' j p = byte_at B s j p).
Proof.
  intros inum Hfin.
  assert (Hframe : own_frame inum s s').
  { revert Hfin. unfold fsWrite. fold inum.
    destruct (numb <=? 0); [intros [= <-]; apply own_frame_refl|].
    unfold bind at 1, bfsTell at 1.
    unfold bind at 1, bfsGetSize at 1.
    set (C := g_oft s inum). set (S := i_size (inodes s inum)).
    unfold bind at 1.
    assert (Hphase : forall o,
      (if S <? add32 C numb then
         do! bfsExtend inum (quot32 (sub32 (add32 C numb) 1) B) in
         do! (if S <? C
              then gap_loop B (Z.to_nat (C - S)) inum C S
              else ret tt) in
         bfsSetSize inum (add32 C numb)
       else ret tt) s = o ->
      forall s1, final_state o = Some s1 -> own_frame inum s s1).
    { intros o <- s1.
      destruct (S <? add32 C numb);
        [|intros [= <-]; apply own_frame_refl].
      unfold bind at 1, bfsExtend at 1.
      destruct (S <? C).
      2:{ intros [= <-]. apply own_frame_set_size. }
      unfold bind.
      pose proof (gap_loop_own_frame (Z.to_nat (C - S)) inum C S s) as Hg.
      destruct (gap_loop B (Z.to_nat (C - S)) inum C S s) as [[] sg|e sg|];
        simpl; [| |done].
      - intros [= <-].
        eapply own_frame_trans; [by apply Hg | apply own_frame_set_size].
      - intros [= <-]. by apply Hg. }
    match goal with
    | |- final_state (match ?o with _ => _ end) = _ -> _ =>
        specialize (Hphase o eq_refl); destruct o as [[] s1|e1 s1|]
    end; [| intros [= <-]; by apply Hphase | done].
    specialize (Hphase s1 eq_refl). unfold bind.
    match goal with
    | |- context [write_loop B ?a1 ?a2 ?a3 ?a4 ?a5 ?a6 ?a7 ?a8] =>
        pose proof (write_loop_own_frame a1 a2 a3 a4 a5 a6 a7 a8) as Hw;
        destruct (write_loop B a1 a2 a3 a4 a5 a6 a7 a8) as [rw s2|e2 s2|]
    end; simpl; [| |done].
    - intros [= <-].
      eapply own_frame_trans; [exact Hphase|].
      eapply own_frame_trans; [by apply Hw | apply own_frame_set_curs].
    - intros [= <-].
      eapply own_frame_trans; [exact Hphase | by apply Hw]. }
  destruct Hframe as [Hi Hd].
  split; [exact Hi|]. split; [intros d Hf; by apply Hd|].
  intros j p Hj Hown. unfold byte_at.
  destruct (Hi j Hj) as [-> _].
  destruct (i_map (inodes s j) !! (p / B)) as [d|] eqn:Hm; [|done].
  destruct (Hd d (Hown _ _ Hm)) as [_ ->]. done.
Qed.

(** *** How the calls abort *)

Lemma read_loop_no_abort fuel : forall inum N n fbn off buf s e s',
  read_loop B fuel inum N n fbn off buf s <> Fatal e s'.
Proof.
  induction fuel as [|fuel IH]; intros inum N n fbn off buf s e s'; simpl.
  - destruct (n <? N); done.
  - destruct (n <? N); [|done].
    unfold bind at 1, bfsFbnToDbn at 1.
    destruct (i_map (inodes s inum) !! fbn) as [d|];
      unfold bind, ret, bioRead; apply IH.
Qed.

Lemma gap_loop_abort fuel : forall inum C g s e s',
  gap_loop B fuel inum C g s = Fatal e s' ->
  e = EDISKFULL /\ freelist s' = [].
Proof.
  induction fuel as [|fuel IH]; intros inum C g s e s'; simpl.
  - destruct (g <? C); done.
  - destruct (g <? C); [|done].
    unfold bind at 1, bfsFbnToDbn at 1.
    destruct (i_map (inodes s inum) !! quot32 g B) as [d|].
    + unfold bind, ret, bioWrite. apply IH.
    + unfold bind, bfsAllocBlock.
      destruct (freelist s) as [|d rest] eqn:Efl.
      * by intros [= <- <-].
      * unfold bioWrite. apply IH.
Qed.

Lemma write_loop_abort fuel : forall inum N buf n fbn off s e s',
  write_loop B fuel inum N buf n fbn off s = Fatal e s' ->
  e = EDISKFULL /\ freelist s' = [].
Proof.
  induction fuel as [|fuel IH]; intros inum N buf n fbn off s e s';
    simpl write_loop.
  - destruct (n <? N); done.
  - destruct (n <? N); [|done].
    unfold bind at 1, bfsFbnToDbn at 1.
    destruct (i_map (inodes s inum) !! fbn) as [d|].
    + destruct (negb (off =? 0) || (sub32 N n <? B));
        unfold bind, ret, bioRead, bioWrite; apply IH.
    + unfold bind, bfsAllocBlock.
      destruct (freelist s) as [|d rest] eqn:Efl.
      * by intros [= <- <-].
      * unfold ret, bioWrite. apply IH.
Qed.

(** The calls abort in two ways only.  [fsRead] aborts on a length that is
    not positive and on nothing else; [fsWrite] aborts on such a length, or
    with [EDISKFULL] at the moment it needs a block and the free list is
    empty.  The first kind of abort leaves the state as it was. *)
Theorem abort_codes fd numb buf s e s' :
  (fsRead B bfsFdToInum fd numb buf s = Fatal e s' ->
   e = ENEGNUMB /\ numb <= 0 /\ s' = s)
  /\ (fsWrite B bfsFdToInum fd numb buf s = Fatal e s' ->
      (e = ENEGNUMB /\ numb <= 0 /\ s' = s)
      \/ (e = EDISKFULL /\ 0 < numb /\ freelist s' = [])).
Proof.
  split.
  - unfold fsRead.
    destruct (Z.leb_spec numb 0) as [Hle|_]; [by intros [= <- <-]|].
    unfold bind at 1, bfsTell at 1.
    unfold bind at 1, bfsGetSize at 1.
    match goal with
    | |- context [if ?c <=? 0 then _ else _] => destruct (c <=? 0)
    end; [done|].
    unfold bind at 1.
    match goal with
    | |- context [read_loop B ?a1 ?a2 ?a3 ?a4 ?a5 ?a6 ?a7 ?a8] =>
        pose proof (read_loop_no_abort a1 a2 a3 a4 a5 a6 a7 a8) as Hf;
        destruct (read_loop B a1 a2 a3 a4 a5 a6 a7 a8)
          as [[n b'] s1|e1 s1|]
    end; [done| |done].
    by destruct (Hf e1 s1).
  - unfold fsWrite.
    destruct (Z.leb_spec numb 0) as [Hle|Hpos];
      [intros [= <- <-]; by left|].
    intros Hrun. right. revert Hrun.
    unfold bind at 1, bfsTell at 1.
    unfold bind at 1, bfsGetSize at 1.
    set (inum := bfsFdToInum fd).
    set (C := g_oft s inum). set (S := i_size (inodes s inum)).
    unfold bind at 1.
    assert (Hphase : forall e1 s1,
      (if S <? add32 C numb then
         do! bfsExtend inum (quot32 (sub32 (add32 C numb) 1) B) in
         do! (if S <? C
              then gap_loop B (Z.to_nat (C - S)) inum C S
              else ret tt) in
         bfsSetSize inum (add32 C numb)
       else ret tt) s = Fatal e1 s1 ->
      e1 = EDISKFULL /\ freelist s1 = []).
    { intros e1 s1.
      destruct (S <? add32 C numb); [|done].
      unfold bind at 1, bfsExtend at 1.
      destruct (S <? C); [|done].
      unfold bind.
      pose proof (gap_loop_abort (Z.to_nat (C - S)) inum C S s) as Hg.
      destruct (gap_loop B (Z.to_nat (C - S)) inum C S s) as [[] sg|eg sg|];
        [done| |done].
      intros [= <- <-]. by apply Hg. }
    match goal with
    | |- match ?o with _ => _ end = _ -> _ =>
        destruct o as [[] s1|e1 s1|]
    end; [| | done].
    2:{ intros [= <- <-]. destruct (Hphase e1 s1 eq_refl). done. }
    unfold bind.
    match goal with
    | |- context [write_loop B ?a1 ?a2 ?a3 ?a4 ?a5 ?a6 ?a7 ?a8] =>
        pose proof (write_loop_abort a1 a2 a3 a4 a5 a6 a7 a8) as Hw;
        destruct (write_loop B a1 a2 a3 a4 a5 a6 a7 a8) as [rw s2|e2 s2|]
    end; [done| |done].
    intros [= <- <-]. destruct (Hw e2 s2 eq_refl). done.
Qed.

(** *** The end of the file *)

(** A read that reaches the end of the file stops there: it returns the
    [S - C] bytes that are left, after it [fsTell] and [fsSize] report the
    same position, and every further read returns 0 and changes nothing,
    neither the state nor the buffer. *)
Theorem fsRead_stops_at_end fd numb buf s :
  let inum := bfsFdToInum fd in
  let C := g_oft s inum in
  let S := i_size (inodes s inum) in
  wf_file B s inum -> 0 < numb -> no_overflow B bfsFdToInum s fd numb ->
  numb <= Z.of_nat (length buf) -> C < S <= C + numb ->
  exists buf' s',
    fsRead B bfsFdToInum fd numb buf s = Ok (S - C, buf') s'
    /\ fsTell bfsFdToInum fd s' = Ok S s'
    /\ fsSize bfsFdToInum fd s' = Ok S s'
    /\ forall m b, 0 < m -> S + m <= INT_MAX ->
         fsRead B bfsFdToInum fd m b s' = Ok (0, b) s'.
Proof.
  intros inum C S Hwf Hnumb Hov Hbuf HC.
  destruct (fsRead_inside fd numb buf s Hwf Hnumb Hov Hbuf)
    as (buf' & ops & Hrun & _); [fold inum C S; lia|].
  fold inum C S in Hrun.
  replace (Z.min numb (S - C)) with (S - C) in Hrun by lia.
  replace (C + (S - C)) with S in Hrun by lia.
  destruct Hwf as [Hc Hs _]. fold inum in Hc, Hs. fold C in Hc. fold S in Hs.
  eexists buf', _. split; [exact Hrun|].
  assert (Hcur : g_oft (set_curs inum S (add_log ops s)) inum = S)
    by (simpl; apply upd_same).
  assert (Hsz : i_size (inodes (set_curs inum S (add_log ops s)) inum) = S)
    by done.
  split; [|split].
  - unfold fsTell, bfsTell. fold inum. by rewrite Hcur.
  - unfold fsSize, bfsGetSize. fold inum. by rewrite Hsz.
  - intros m b Hm Hmax. unfold fsRead. fold inum.
    destruct (Z.leb_spec m 0) as [?|_]; [lia|].
    unfold bind at 1, bfsTell at 1. fold inum. rewrite Hcur.
    unfold bind at 1, bfsGetSize at 1. rewrite Hsz.
    rewrite (add32_id S m) by (unfold INT_MIN, INT_MAX in *; lia).
    destruct (Z.ltb_spec S (S + m)) as [_|?]; [|lia].
    rewrite (sub32_id S S) by (unfold INT_MIN, INT_MAX in *; lia).
    replace (S - S) with 0 by lia. done.
Qed.

(** *** The hole-filling invariant when blocks are allocated lazily *)

Lemma gap_loop_binds_only fuel : forall inum C g s s',
  0 <= g -> C + B <= INT_MAX ->
  gap_loop B fuel inum C g s = Ok tt s' ->
  forall f, is_Some (i_map (inodes s' inum) !! f) ->
            is_Some (i_map (inodes s inum) !! f)
            \/ (g / B <= f /\ f * B < C).
Proof.
  induction fuel as [|fuel IH]; intros inum C g s s' Hg HC Hrun f Hf;
    simpl gap_loop in Hrun.
  - destruct (g <? C); [done|]. injection Hrun as <-. by left.
  - destruct (Z.ltb_spec g C) as [Hlt|Hge];
      [|injection Hrun as <-; by left].
    rewrite quot32_id in Hrun by (unfold INT_MAX in *; lia).
    rewrite add32_id in Hrun by (unfold INT_MIN, INT_MAX in *; lia).
    destruct (block_split g B BPB_pos) as [Hgs Hgr].
    unfold bind at 1, bfsFbnToDbn at 1 in Hrun.
    destruct (i_map (inodes s inum) !! (g / B)) as [d|] eqn:Hd.
    + unfold bind, ret, bioWrite in Hrun.
      apply IH with (f := f) in Hrun; [|lia|done|done].
      destruct Hrun as [Hold | [H1 H2]]; [by left | right].
      rewrite div_add_block in H1. lia.
    + unfold bind, bfsAllocBlock in Hrun.
      destruct (freelist s) as [|d rest]; [done|].
      unfold bioWrite in Hrun.
      apply IH with (f := f) in Hrun; [|lia|done|done].
      destruct Hrun as [Hold | [H1 H2]].
      * simpl in Hold. rewrite upd_same in Hold. simpl in Hold.
        destruct (Z.eq_dec f (g / B)) as [->|Hne]; [right; lia|].
        rewrite lookup_insert_ne in Hold by done. by left.
      * right. rewrite div_add_block in H1. lia.
Qed.

Lemma write_loop_binds_only fuel : forall inum N buf n fbn off s r s',
  0 <= n <= N -> 0 <= fbn -> 0 <= off < B ->
  fbn + (N - n) < INT_MAX -> N + B <= INT_MAX ->
  write_loop B fuel inum N buf n fbn off s = Ok r s' ->
  forall f, is_Some (i_map (inodes s' inum) !! f) ->
            is_Some (i_map (inodes s inum) !! f)
            \/ (n < N /\ fbn <= f /\ f * B < fbn * B + off + (N - n)).
Proof.
  induction fuel as [|fuel IH];
    intros inum N buf n fbn off s r s' Hn Hfb Ho Hmax HN Hrun f Hf;
    simpl write_loop in Hrun.
  - destruct (n <? N); [done|]. injection Hrun as _ <-. by left.
  - destruct (Z.ltb_spec n N) as [Hlt|Hge];
      [|injection Hrun as _ <-; by left].
    rewrite span_id in Hrun by lia.
    set (len := Z.min (B - off) (N - n)) in *.
    assert (Hlen : 0 < len <= B - off /\ len <= N - n) by (unfold len; lia).
    rewrite (add32_id n len) in Hrun by (unfold INT_MIN, INT_MAX in *; lia).
    rewrite (add32_id fbn 1) in Hrun by (unfold INT_MIN, INT_MAX in *; lia).
    assert (Hnext : n + len < N /\ fbn + 1 <= f
                    /\ f * B < (fbn + 1) * B + 0 + (N - (n + len)) ->
                    n < N /\ fbn <= f /\ f * B < fbn * B + off + (N - n)).
    { intros (H1 & H2 & H3). unfold len in *. lia. }
    unfold bind at 1, bfsFbnToDbn at 1 in Hrun.
    destruct (i_map (inodes s inum) !! fbn) as [d|] eqn:Hd.
    + destruct (negb (off =? 0) || (sub32 N n <? B));
        unfold bind, ret, bioRead, bioWrite in Hrun;
        (apply IH with (f := f) in Hrun; [|lia|lia|lia|lia|lia|done]);
        (destruct Hrun as [Hold | Hnew]; [by left | right; by apply Hnext]).
    + unfold bind, bfsAllocBlock in Hrun.
      destruct (freelist s) as [|d rest]; [done|].
      unfold ret, bioWrite in Hrun.
      apply IH with (f := f) in Hrun; [|lia|lia|lia|lia|lia|done].
      destruct Hrun as [Hold | Hnew]; [|right; by apply Hnext].
      simpl in Hold. rewrite upd_same in Hold. simpl in Hold.
      destruct (Z.eq_dec f fbn) as [->|Hne]; [right; lia|].
      rewrite lookup_insert_ne in Hold by done. by left.
Qed.

(** With [bfsExtend] binding nothing, a successful write binds blocks that
    start below the new size only. *)
Lemma fsWrite_bound_below fd numb buf s r s' :
  let inum := bfsFdToInum fd in
  wf_file B s inum -> 0 < numb -> no_overflow B bfsFdToInum s fd numb ->
  numb <= Z.of_nat (length buf) ->
  bound_below_size B s inum ->
  fsWrite B bfsFdToInum fd numb buf s = Ok r s' ->
  bound_below_size B s' inum.
Proof.
  intros inum Hwf Hnumb Hov Hbuf Hbelow Hrun.
  destruct (fsWrite_ok_inv fd numb buf s r s' Hwf Hnumb Hov Hbuf Hrun)
    as (_ & opsg & opsw & _ & _ & Hsize & _).
  destruct (fsWrite_ok_split fd numb buf s r s' Hwf Hnumb Hov Hrun)
    as (s1 & s2 & Hph & Hwl & -> & _). fold inum in Hph, Hwl, Hsize.
  destruct Hwf as [Hc Hs Hok]. unfold no_overflow in Hov.
  fold inum in Hov, Hc, Hs.
  set (C := g_oft s inum) in *. set (S := i_size (inodes s inum)) in *.
  cbn [inodes set_curs] in Hsize.
  destruct (block_split C B BPB_pos) as [HC Hoff].
  assert (HCB : 0 <= C / B <= C).
  { split; [apply Z.div_pos; lia|]. apply Z.div_le_upper_bound; nia. }
  (* the extension phase *)
  assert (Hph1 : forall f, is_Some (i_map (inodes s1 inum) !! f) ->
            is_Some (i_map (inodes s inum) !! f) \/ f * B < C).
  { intros f Hf. revert Hph Hf.
    destruct (Z.ltb_spec S (C + numb)); [|intros [= <-] ?; by left].
    unfold bind at 1, bfsExtend at 1.
    destruct (Z.ltb_spec S C).
    2:{ unfold bind, ret, bfsSetSize. intros [= <-]. simpl.
        rewrite upd_same. simpl. by left. }
    unfold bind.
    destruct (gap_loop B (Z.to_nat (C - S)) inum C S s)
      as [[] sg|e sg|] eqn:Eg; [|done|done].
    unfold bfsSetSize. intros [= <-]. simpl. rewrite upd_same. simpl.
    intros Hf.
    apply gap_loop_binds_only with (f := f) in Eg;
      [|lia|unfold INT_MAX in *; lia|done].
    destruct Eg as [?|[_ ?]]; [by left | by right]. }
  intros f d Hd. cbn [inodes set_curs] in Hd |- *. rewrite Hsize.
  apply write_loop_binds_only with (f := f) in Hwl;
    [|lia|lia|lia|unfold INT_MAX in *; lia|unfold INT_MAX in *; lia|eauto].
  destruct Hwl as [Hold | (_ & _ & Hnew)]; [|lia].
  destruct (Hph1 f Hold) as [[d0 Hd0] | Hgap]; [|lia].
  apply Hbelow in Hd0. fold S in Hd0. lia.
Qed.

Lemma hole_inv_set_curs W inum c s :
  hole_inv B W s inum -> hole_inv B W (set_curs inum c s) inum.
Proof. intros [H1 H2]. split; auto. Qed.

Lemma hole_inv_add_log W inum ops s :
  hole_inv B W s inum -> hole_inv B W (add_log ops s) inum.
Proof. intros [H1 H2]. split; auto. Qed.

(** Every successful call keeps the file well formed, its blocks below the
    size, and every position below the size that was never written zero. *)
Lemma call_preserves fd c W s s1 :
  let inum := bfsFdToInum fd in
  wf_file B s inum -> hole_inv B W s inum -> bound_below_size B s inum ->
  call_in_range B bfsFdToInum s fd c ->
  run_call B bfsFdToInum fd c s = Ok tt s1 ->
  wf_file B s1 inum
  /\ hole_inv B (written_by bfsFdToInum s fd c W) s1 inum
  /\ bound_below_size B s1 inum.
Proof.
  intros inum Hwf Hinv Hbelow Hr Hrun.
  destruct c as [numb buf|offset whence|numb buf];
    simpl in Hr, Hrun |- *; unfold bind in Hrun.
  - destruct Hr as (Hnumb & Hov & Hbuf).
    destruct (fsRead_spec fd numb buf s Hwf Hnumb Hov Hbuf)
      as (buf' & ops & Hrd & _). fold inum in Hrd.
    rewrite Hrd in Hrun. injection Hrun as <-.
    destruct (Z.eqb_spec (Z.max 0 (Z.min numb
                (i_size (inodes s inum) - g_oft s inum))) 0) as [_|Hn];
      [done|].
    destruct Hwf as [Hc Hs Hok]. unfold no_overflow in Hov. fold inum in Hov.
    split; [|split; [|done]].
    + apply wf_file_set_curs.
      * split; [done|done|by apply blocks_ok_add_log].
      * unfold INT_MAX in *. lia.
    + by apply hole_inv_set_curs, hole_inv_add_log.
  - destruct (fsSeek bfsFdToInum fd offset whence s) as [r s2|e s2|] eqn:Es;
      [|done|done].
    injection Hrun as <-.
    apply fsSeek_ok_inv in Es as (_ & Ho & c & -> & Hc). fold inum in Hc |- *.
    split; [|split; [by apply hole_inv_set_curs | done]].
    apply wf_file_set_curs; [done|].
    unfold seek_target in Hr. fold inum in Hr.
    destruct Hwf as [Hcur Hs _].
    destruct Hc as [[-> ->] | [[-> ->] | [-> ->]]]; simpl in Hr;
      rewrite ?add32_id; unfold INT_MIN, INT_MAX in *; lia.
  - destruct Hr as (Hnumb & Hov & Hbuf).
    destruct (fsWrite B bfsFdToInum fd numb buf s) as [r s2|e s2|] eqn:Ew;
      [|done|done].
    injection Hrun as <-.
    pose proof (fsWrite_bound_below fd numb buf s r s2 Hwf Hnumb Hov Hbuf
                  Hbelow Ew) as Hbelow2.
    destruct (fsWrite_ok_inv fd numb buf s r s2 Hwf Hnumb Hov Hbuf Ew)
      as (_ & opsg & opsw & Hwf2 & Hc2 & Hs2 & _ & _ & _ & _ & _ & Hb2).
    fold inum in Hwf2, Hc2, Hs2, Hb2, Hbelow2 |- *.
    split; [done|]. split; [|done].
    destruct Hinv as [Hz Hw]. destruct Hwf as [Hcur Hs _].
    fold inum in Hcur, Hs.
    set (C := g_oft s inum) in *. set (S := i_size (inodes s inum)) in *.
    split.
    + intros p Hp HnW. rewrite Hs2 in Hp. rewrite Hb2.
      destruct (Z.leb_spec C p), (Z.ltb_spec p (C + numb)); simpl;
        try (exfalso; apply HnW; right; lia);
        (destruct (Z.ltb_spec S C) as [HSC|HSC]; simpl;
         [destruct (gap_filled B S C p) eqn:Eg; [done|] |]);
        try (apply Hz; [lia | intros HW; apply HnW; by left]).
      (* below the cursor, outside the blocks of the gap fill *)
      destruct (Z.lt_ge_cases p S) as [HpS|HpS];
        [apply Hz; [lia | intros HW; apply HnW; by left]|].
      unfold byte_at.
      destruct (i_map (inodes s inum) !! (p / B)) as [d|] eqn:Hd; [|done].
      exfalso. apply Hbelow in Hd. fold S in Hd.
      destruct (block_split S B BPB_pos) as [HSs HSr].
      assert (Hle : S / B <= p / B) by (apply Z.div_le_mono; lia).
      assert (Heq : p / B = S / B) by nia.
      unfold gap_filled in Eg. rewrite Heq, Z.leb_refl in Eg. simpl in Eg.
      destruct (Z.ltb_spec (S + (S / B - S / B) * B) C); [done | lia].
    + intros p [HW | Hp]; rewrite Hs2; [apply Hw in HW|]; lia.
Qed.

Lemma runs_preserve fd W0 s0 W s :
  runs B bfsFdToInum fd W0 s0 W s ->
  wf_file B s0 (bfsFdToInum fd) -> hole_inv B W0 s0 (bfsFdToInum fd) ->
  bound_below_size B s0 (bfsFdToInum fd) ->
  wf_file B s (bfsFdToInum fd) /\ hole_inv B W s (bfsFdToInum fd)
  /\ bound_below_size B s (bfsFdToInum fd).
Proof.
  induction 1 as [W s|W s c s1 W' s' Hr Hrun Hruns IH]; [done|].
  intros Hwf Hinv Hbelow.
  destruct (call_preserves fd c W s s1 Hwf Hinv Hbelow Hr Hrun)
    as (? & ? & ?). auto.
Qed.

(** With lazy allocation ([bfsExtend] binds no block) the hole-filling
    invariant is kept.  In a session of successful calls that starts from a
    well-formed file in which no block at or beyond the size is bound and
    every position below the size that was never written holds zero, both
    stay so; every [fsRead] returns a zero byte for each position it reads
    that was never written; and after an [fsWrite] at a cursor [C] beyond
    the size [S], a seek to any position of the gap [S, C) and a read that
    stays inside the gap return zero bytes only.  The bytes that the last
    block holds at and beyond the size may be anything: the gap fill zeroes
    them. *)
Theorem hole_filling_with_lazy_allocation fd W0 s0 W s :
  let inum := bfsFdToInum fd in
  let C := g_oft s inum in
  let S := i_size (inodes s inum) in
  wf_file B s0 inum -> hole_inv B W0 s0 inum ->
  bound_below_size B s0 inum ->
  runs B bfsFdToInum fd W0 s0 W s ->
  wf_file B s inum /\ hole_inv B W s inum /\ bound_below_size B s inum
  /\ (forall numb buf,
        0 < numb -> no_overflow B bfsFdToInum s fd numb ->
        numb <= Z.of_nat (length buf) ->
        exists n buf' s',
          fsRead B bfsFdToInum fd numb buf s = Ok (n, buf') s'
          /\ forall i, 0 <= i < n -> ~ W (C + i) -> nthZ buf' i = x00)
  /\ (forall numb buf r s1 a len out0,
        0 < numb -> no_overflow B bfsFdToInum s fd numb ->
        numb <= Z.of_nat (length buf) ->
        fsWrite B bfsFdToInum fd numb buf s = Ok r s1 ->
        S <= a -> 0 < len -> a + len <= C ->
        len <= Z.of_nat (length out0) ->
        exists s2 out s3,
          fsSeek bfsFdToInum fd a SEEK_SET s1 = Ok 0 s2
          /\ fsRead B bfsFdToInum fd len out0 s2 = Ok (len, out) s3
          /\ forall i, 0 <= i < len -> nthZ out i = x00).
Proof.
  intros inum C S Hwf0 Hinv0 Hbelow0 Hruns.
  destruct (runs_preserve fd W0 s0 W s Hruns Hwf0 Hinv0 Hbelow0)
    as (Hwf & Hinv & Hbelow).
  split; [done|]. split; [done|]. split; [done|]. split.
  - intros numb buf Hnumb Hov Hbuf.
    destruct (fsRead_spec fd numb buf s Hwf Hnumb Hov Hbuf)
      as (buf' & ops & Hrd & _ & Hb & _). fold inum C S in Hrd, Hb.
    eexists _, buf', _. split; [exact Hrd|].
    intros i Hi HW. rewrite Hb by lia.
    destruct (Z.ltb_spec i (Z.max 0 (Z.min numb (S - C)))); [|lia].
    destruct Hwf as [Hc _ _]. fold inum in Hc. fold C in Hc.
    apply Hinv; [fold inum S; lia | done].
  - intros numb buf r s1 a len out0 Hnumb Hov Hbuf Hw Ha Hlen Hend Hout.
    assert (Hcall : run_call B bfsFdToInum fd (CallWrite numb buf) s
                    = Ok tt s1)
      by (simpl; unfold bind; by rewrite Hw).
    destruct (call_preserves fd (CallWrite numb buf) W s s1 Hwf Hinv Hbelow)
      as (Hwf1 & [Hz1 _] & _); [done | done |].
    simpl in Hz1. fold inum C in Hz1.
    destruct (fsWrite_ok_inv fd numb buf s r s1 Hwf Hnumb Hov Hbuf Hw)
      as (_ & opsg & opsw & _ & _ & Hs1 & _).
    fold inum C S in Hs1.
    destruct Hinv as [_ HW].
    destruct Hwf as [Hc Hs Hok].
    fold inum in Hc, Hs, HW. fold C in Hc. fold S in Hs, HW.
    unfold no_overflow in Hov. fold inum C in Hov.
    set (s2 := set_curs inum a s1).
    assert (Hwf2 : wf_file B s2 inum)
      by (apply wf_file_set_curs; [done | unfold INT_MAX in *; lia]).
    assert (Hc2 : g_oft s2 inum = a) by (simpl; apply upd_same).
    destruct (fsRead_spec fd len out0 s2) as
      (out & ops & Hrun3 & Hlen3 & Hb3 & _); [done | done | | lia |].
    { unfold no_overflow. fold inum. rewrite Hc2. lia. }
    fold inum in Hrun3, Hb3. rewrite Hc2 in Hrun3, Hb3.
    change (i_size (inodes s2 inum)) with (i_size (inodes s1 inum))
      in Hrun3, Hb3.
    rewrite Hs1 in Hrun3, Hb3.
    replace (Z.max 0 (Z.min len (Z.max S (C + numb) - a)))
      with len in Hrun3, Hb3 by lia.
    eexists s2, out, _.
    split; [|split; [exact Hrun3|]].
    + rewrite fsSeek_unfold. fold inum. destruct (Z.ltb_spec a 0); [lia | done].
    + intros i Hi. rewrite Hb3 by lia.
      destruct (Z.ltb_spec i len); [|lia].
      change (byte_at B s2 inum (a + i)) with (byte_at B s1 inum (a + i)).
      apply Hz1; [rewrite Hs1; lia|].
      intros [HWp | Hin]; [apply HW in HWp|]; lia.
Qed.

(** *** The block service with an eager extension *)

Lemma fsWrite_with_bfsExtend fd numb buf :
  fsWrite_with B bfsFdToInum bfsExtend fd numb buf
  = fsWrite B bfsFdToInum fd numb buf.
Proof. reflexivity. Qed.

End FSProofs.

(** ** The example disk *)

Lemma ex_blank_wf : wf_file 512 ex_blank 3.
Proof.
  split; [simpl; unfold INT_MAX; lia | simpl; unfold INT_MAX; lia |].
  split; simpl.
  - intros f1 f2 d H. by rewrite lookup_empty in H.
  - intros f d H. by rewrite lookup_empty in H.
  - apply (bool_decide_unpack _). by vm_compute.
  - intros d. reflexivity.
Qed.

Lemma ex_file_wf : wf_file 512 ex_file 3.
Proof.
  split; [simpl; unfold INT_MAX; rewrite ?upd_same; lia
         | simpl; unfold INT_MAX; rewrite ?upd_same; simpl; lia |].
  split; simpl; rewrite ?upd_same; simpl.
  - intros f1 f2 d [-> _]%lookup_singleton_Some [-> _]%lookup_singleton_Some.
    done.
  - intros f d [_ <-]%lookup_singleton_Some.
    apply (bool_decide_unpack _). by vm_compute.
  - apply (bool_decide_unpack _). by vm_compute.
  - intros d. unfold upd. destruct (Z.eq_dec d 100); reflexivity.
Qed.

Lemma ex_read_wf : wf_file 512 ex_read 3.
Proof.
  apply wf_file_set_curs; [apply ex_file_wf | unfold INT_MAX; lia].
Qed.

Lemma ex_stale_wf : wf_file 512 ex_stale 3.
Proof.
  split; [by vm_compute | by vm_compute |].
  split; simpl.
  - intros f1 f2 d H1 H2.
    apply lookup_insert_Some in H1 as [[<- <-]|[_ [<- <-]%lookup_singleton_Some]];
      apply lookup_insert_Some in H2
        as [[<- H]|[_ [<- H]%lookup_singleton_Some]];
      done.
  - intros f d H.
    apply lookup_insert_Some in H as [[_ <-]|[_ [_ <-]%lookup_singleton_Some]];
      apply (bool_decide_unpack _); by vm_compute.
  - apply (bool_decide_unpack _). by vm_compute.
  - intros d. unfold upd. destruct (Z.eq_dec d 102); reflexivity.
Qed.

(** Before the write the file of [ex_stale] satisfies the hole-filling
    invariant: nothing was written and its 500 bytes are zero. *)
Lemma ex_stale_holes : hole_inv 512 ex_unwritten ex_stale 3.
Proof.
  split; [|intros p []].
  intros p Hp _. simpl in Hp. unfold byte_at.
  assert (p / 512 = 0) as -> by (apply Z.div_small; lia).
  simpl. apply nthZ_zeros.
Qed.

Lemma ex_tail_wf : wf_file 512 ex_tail 3.
Proof.
  split; [by vm_compute | by vm_compute |].
  split; simpl.
  - intros f1 f2 d [-> _]%lookup_singleton_Some [-> _]%lookup_singleton_Some.
    done.
  - intros f d [_ <-]%lookup_singleton_Some.
    apply (bool_decide_unpack _). by vm_compute.
  - apply (bool_decide_unpack _). by vm_compute.
  - intros d. unfold upd. destruct (Z.eq_dec d 100); reflexivity.
Qed.

Lemma ex_tail_holes : hole_inv 512 ex_written ex_tail 3.
Proof.
  split; [|intros p Hp; exact Hp].
  intros p Hp HW. by destruct HW.
Qed.

Lemma ex_tail_below : bound_below_size 512 ex_tail 3.
Proof.
  intros f d. simpl. intros [<- _]%lookup_singleton_Some. lia.
Qed.

Lemma ex_full_wf : wf_file 512 ex_full 3.
Proof.
  destruct ex_read_wf as [Hc Hs [Hinj _ _ Hdisk]].
  split; [exact Hc | exact Hs |].
  split; [exact Hinj | | | exact Hdisk].
  - intros f d _. apply not_elem_of_nil.
  - apply NoDup_nil_2.
Qed.

Lemma ex_file_dense : blocks_dense 512 ex_file 3.
Proof.
  intros f Hf0 Hfs. simpl in Hfs |- *.
  assert (f = 0) as -> by lia. by eexists.
Qed.

Lemma ex_two_foreign f d :
  i_map (inodes ex_two 5) !! f = Some d -> foreign_block ex_two 3 d.
Proof.
  simpl. intros [_ <-]%lookup_singleton_Some. split.
  - intros f'. simpl. intros [_ H]%lookup_singleton_Some. discriminate H.
  - apply (bool_decide_unpack _). by vm_compute.
Qed.

(** ** The theorems at work on the example disk *)

Lemma fsRead_count_bytes_cursor_witness :
  exists buf' s',
    fsRead 512 ex_inum 3 10 (zeros 10) ex_read = Ok (6, buf') s'
    /\ g_oft s' 3 = 10.
Proof.
  destruct (fsRead_count_bytes_cursor 512 ex_inum eq_refl 3 10 (zeros 10)
              ex_read ex_read_wf eq_refl)
    as (buf' & s' & Hrun & _ & _ & Hc & _ & _).
  - by vm_compute.
  - by vm_compute.
  - exists buf', s'. split; [exact Hrun | exact Hc].
Defined.

Lemma write_seek_read_roundtrip_witness :
  exists s1 s2 s3,
    fsWrite 512 ex_inum 3 10 ex_digits ex_blank = Ok 0 s1
    /\ fsSeek ex_inum 3 0 SEEK_SET s1 = Ok 0 s2
    /\ fsRead 512 ex_inum 3 10 (zeros 10) s2 = Ok (10, ex_digits) s3.
Proof.
  destruct (write_seek_read_roundtrip 512 ex_inum eq_refl 3 10 ex_digits
              (zeros 10) ex_blank ex_blank_wf eq_refl)
    as (s1 & s2 & s3 & out & H1 & _ & H2 & H3 & ->).
  - by vm_compute.
  - by vm_compute.
  - reflexivity.
  - reflexivity.
  - exists s1, s2, s3. split; [exact H1|]. split; [exact H2 | exact H3].
Defined.

Lemma fsWrite_gap_fill_zeroes_below_size_witness :
  byte_at 512 ex_file 3 0 = "0"%byte
  /\ exists s',
      fsWrite 512 ex_inum 3 5 ex_letters ex_file = Ok 0 s'
      /\ byte_at 512 s' 3 0 = x00.
Proof.
  split; [reflexivity|].
  destruct (fsWrite_gap_fill_zeroes_below_size 512 ex_inum eq_refl 3 5
              ex_letters ex_file ex_file_wf eq_refl)
    as (s' & Hrun & _ & Hzero).
  - by vm_compute.
  - by vm_compute.
  - by vm_compute.
  - exists s'. split; [exact Hrun|].
    apply Hzero; by vm_compute.
Defined.

Lemma gap_fill_misses_block_of_cursor_witness :
  hole_inv 512 ex_unwritten ex_stale 3
  /\ exists s' s1 out s2,
      fsWrite 512 ex_inum 3 1 ex_letters ex_stale = Ok 0 s'
      /\ i_size (inodes ex_stale 3) <= 1024 < g_oft ex_stale 3
      /\ fsSeek ex_inum 3 1024 SEEK_SET s' = Ok 0 s1
      /\ fsRead 512 ex_inum 3 1 [x00] s1 = Ok (1, out) s2
      /\ nthZ out 0 = x77
      /\ ~ hole_inv 512
             (written_by ex_inum ex_stale 3 (CallWrite 1 ex_letters)
                ex_unwritten) s' 3.
Proof.
  split; [exact ex_stale_holes|].
  assert (Hrun : exists s',
    fsWrite 512 ex_inum 3 1 ex_letters ex_stale = Ok 0 s'
    /\ i_size (inodes s' 3) = 1026).
  { eexists. split; vm_compute; reflexivity. }
  destruct Hrun as (s' & Hrun & Hsize).
  destruct (gap_fill_misses_block_of_cursor 512 ex_inum eq_refl 3 1
              ex_letters ex_stale 0 s' ex_stale_wf eq_refl)
    with (p := 1024)
    as (_ & Hkeep & s1 & out & s2 & Hseek & Hread & Hout);
    [by vm_compute | by vm_compute | by vm_compute | by vm_compute
    | exact Hrun | by vm_compute |].
  exists s', s1, out, s2.
  split; [exact Hrun|]. split; [by vm_compute|].
  split; [exact Hseek|]. split; [exact Hread|]. split; [exact Hout|].
  intros [Hzero _].
  specialize (Hzero 1024). rewrite Hsize in Hzero.
  assert (Hbyte : byte_at 512 s' 3 1024 = x77) by exact Hkeep.
  rewrite Hbyte in Hzero. discriminate Hzero; [lia|].
  intros [[] | [Hin _]]. by vm_compute in Hin.
Defined.

Lemma fsWrite_size_and_cursor_witness :
  exists s',
    fsWrite 512 ex_inum 3 5 ex_letters ex_file = Ok 0 s'
    /\ i_size (inodes s' 3) = 1005 /\ g_oft s' 3 = 1005.
Proof.
  destruct (fsWrite_size_and_cursor 512 ex_inum eq_refl 3 5 ex_letters
              ex_file ex_file_wf eq_refl) as [Hok Hrun].
  - by vm_compute.
  - destruct Hrun as [s' Hrun].
    + by vm_compute.
    + by vm_compute.
    + exists s'. split; [exact Hrun|].
      destruct (Hok 0 s' Hrun) as (_ & Hs & Hc).
      split; [exact Hs | exact Hc].
Defined.

Lemma file_size_monotone_witness :
  exists s',
    final_state (fsWrite 512 ex_inum 3 5 ex_letters ex_file) = Some s'
    /\ (i_size (inodes s' 3) = 10
        \/ (10 < 1005 /\ i_size (inodes s' 3) = 1005)).
Proof.
  assert (Hfin : exists s',
    final_state (fsWrite 512 ex_inum 3 5 ex_letters ex_file) = Some s').
  { eexists. vm_compute. reflexivity. }
  destruct Hfin as [s' Hfin]. exists s'. split; [exact Hfin|].
  destruct (file_size_monotone 512 ex_inum 3 ex_file)
    as (_ & _ & _ & Hw & _).
  apply (Hw 5 ex_letters s'); [|exact Hfin].
  by vm_compute.
Defined.

Lemma block_transfers_per_call_witness :
  (exists r s' ops,
      fsRead 512 ex_inum 3 5 ex_letters ex_read = Ok r s'
      /\ biolog s' = biolog ex_read ++ ops
      /\ forall d, (reads_of d ops <= 1)%nat /\ writes_of d ops = 0%nat)
  /\ (exists s' opsg opsw,
      fsWrite 512 ex_inum 3 5 ex_letters ex_read = Ok 0 s'
      /\ biolog s' = biolog ex_read ++ opsg ++ opsw
      /\ forall d, (reads_of d (opsg ++ opsw) <= 1)%nat
                   /\ (writes_of d (opsg ++ opsw) <= 2)%nat).
Proof.
  destruct (block_transfers_per_call 512 ex_inum eq_refl 3 5 ex_letters
              ex_read ex_read_wf eq_refl) as [Hrd Hwr].
  - by vm_compute.
  - by vm_compute.
  - split; [exact Hrd|].
    assert (Hrun : exists s',
      fsWrite 512 ex_inum 3 5 ex_letters ex_read = Ok 0 s').
    { eexists. vm_compute. reflexivity. }
    destruct Hrun as [s' Hrun].
    destruct (Hwr 0 s' Hrun) as (opsg & opsw & Hlog & Hcount).
    exists s', opsg, opsw. split; [exact Hrun|]. split; [exact Hlog|].
    intros d. destruct (Hcount d) as (_ & _ & _ & _ & H1 & H2). by split.
Defined.

Lemma fsSeek_negative_and_end_witness :
  fsSeek ex_inum 3 (-1) SEEK_SET ex_file = Fatal EBADCURS ex_file
  /\ fsSeek ex_inum 3 (-1001) SEEK_CUR ex_file = Fatal EBADCURS ex_file
  /\ (exists s',
      fsSeek ex_inum 3 5 SEEK_CUR ex_file = Ok 0 s' /\ g_oft s' 3 = 1005)
  /\ (exists s',
      fsSeek ex_inum 3 INT_MAX SEEK_CUR ex_file = Ok 0 s'
      /\ g_oft s' 3 = -2147482649)
  /\ exists s',
      fsSeek ex_inum 3 0 SEEK_END ex_file = Ok 0 s' /\ g_oft s' 3 = 10.
Proof.
  destruct (fsSeek_negative_and_end 512 ex_inum 3 ex_file ex_file_wf)
    as (Hoff & Hpos & Hend & _).
  split; [by apply Hoff|].
  split; [by apply Hoff|].
  split; [|split; [|exact Hend]].
  - destruct (Hpos 5 SEEK_CUR) as (s' & Hrun & _ & Hin & _);
      [by vm_compute | right; left; reflexivity |].
    exists s'. split; [exact Hrun|]. apply Hin. by vm_compute.
  - destruct (Hpos INT_MAX SEEK_CUR) as (s' & Hrun & _ & _ & Hout);
      [by vm_compute | right; left; reflexivity |].
    exists s'. split; [exact Hrun|]. apply Hout. by vm_compute.
Defined.

Lemma nonpositive_length_rejected_witness :
  fsRead 512 ex_inum 3 0 ex_letters ex_file = Fatal ENEGNUMB ex_file
  /\ fsWrite 512 ex_inum 3 0 ex_letters ex_file = Fatal ENEGNUMB ex_file.
Proof.
  apply (nonpositive_length_rejected 512 ex_inum 3 0). lia.
Defined.

Lemma fsSeek_rejects_negative_offsets_witness :
  fsSeek ex_inum 3 (-5) SEEK_CUR ex_file = Fatal EBADCURS ex_file
  /\ fsSeek ex_inum 3 (-5) SEEK_END ex_file = Fatal EBADCURS ex_file
  /\ (exists s',
      fsSeek ex_inum 3 5 SEEK_CUR ex_file = Ok 0 s'
      /\ g_oft ex_file 3 <= g_oft s' 3)
  /\ exists s',
      fsSeek ex_inum 3 INT_MAX SEEK_CUR ex_file = Ok 0 s'
      /\ g_oft s' 3 = -2147482649 /\ g_oft s' 3 < g_oft ex_file 3.
Proof.
  split; [|split; [|split]].
  - apply (fsSeek_rejects_negative_offsets ex_inum 3 (-5) SEEK_CUR ex_file).
    lia.
  - apply (fsSeek_rejects_negative_offsets ex_inum 3 (-5) SEEK_END ex_file).
    lia.
  - assert (Hrun : exists s',
      fsSeek ex_inum 3 5 SEEK_CUR ex_file = Ok 0 s').
    { eexists. vm_compute. reflexivity. }
    destruct Hrun as [s' Hrun]. exists s'. split; [exact Hrun|].
    apply (fsSeek_rejects_negative_offsets ex_inum 3 5 SEEK_CUR ex_file)
      with (r := 0); [reflexivity | by vm_compute | exact Hrun | by vm_compute].
  - assert (Hrun : exists s',
      fsSeek ex_inum 3 INT_MAX SEEK_CUR ex_file = Ok 0 s').
    { eexists. vm_compute. reflexivity. }
    destruct Hrun as [s' Hrun]. exists s'. split; [exact Hrun|].
    apply (fsSeek_rejects_negative_offsets ex_inum 3 INT_MAX SEEK_CUR
             ex_file) with (r := 0);
      [reflexivity | by vm_compute | exact Hrun | by vm_compute
      | by vm_compute | by vm_compute].
Defined.

(** ** Where the claims fail *)

(** C2 as stated fails: after the write, the seek by [-10] relative to the
    cursor aborts, so the sequence write, seek, read does not succeed. *)
Lemma roundtrip_relative_seek_fails :
  ~ exists s1 s2 s3 out,
      fsWrite 512 ex_inum 3 10 ex_digits ex_blank = Ok 0 s1
      /\ fsSeek ex_inum 3 (-10) SEEK_CUR s1 = Ok 0 s2
      /\ fsRead 512 ex_inum 3 10 (zeros 10) s2 = Ok (10, out) s3
      /\ out = ex_digits.
Proof.
  intros (s1 & s2 & s3 & out & _ & Hseek & _). discriminate Hseek.
Qed.

(** C7 as stated fails: the write of five bytes at cursor 1000 of the
    ten-byte file transfers disk block 101 three times: the gap fill writes
    it, the loop over the requested range reads it and writes it again. *)
Lemma block_transferred_three_times :
  ~ forall s' ops,
      fsWrite 512 ex_inum 3 5 ex_letters ex_file = Ok 0 s' ->
      biolog s' = biolog ex_file ++ ops ->
      forall d, (reads_of d ops + writes_of d ops <= 1)%nat.
Proof.
  intros H.
  assert (Hrun : exists s',
    fsWrite 512 ex_inum 3 5 ex_letters ex_file = Ok 0 s'
    /\ biolog s' = biolog ex_file
         ++ [BioWrite 100; BioWrite 101; BioRead 101; BioWrite 101]).
  { eexists. split; [vm_compute; reflexivity|]. reflexivity. }
  destruct Hrun as (s' & Hrun & Hlog).
  specialize (H s' _ Hrun Hlog 101). vm_compute in H. lia.
Qed.

(** C8 as stated fails in its second part: on the example file, cursor
    1000, a seek relative to the cursor by [INT_MAX] computes the [i32]
    cursor -2147482649, a negative one, and succeeds. *)
Lemma seek_past_int_max_stores_negative_cursor :
  ~ forall offset whence,
      seek_cursor ex_inum ex_file 3 offset whence < 0 ->
      exists e s', fsSeek ex_inum 3 offset whence ex_file = Fatal e s'.
Proof.
  intros H. destruct (H INT_MAX SEEK_CUR) as (e & s' & Hrun).
  - by vm_compute.
  - by vm_compute in Hrun.
Qed.

(** C10 as stated fails in its last part: an absolute seek to offset 0 moves
    the cursor of the example file back from 1000 to 0. *)
Lemma absolute_seek_moves_cursor_back :
  ~ forall offset whence r s',
      fsSeek ex_inum 3 offset whence ex_file = Ok r s' ->
      g_oft ex_file 3 <= g_oft s' 3.
Proof.
  intros H. specialize (H 0 SEEK_SET 0 _ eq_refl). by vm_compute in H.
Qed.

(** ** The further properties on the example disk *)

Lemma fsSeek_outcomes_witness :
  fsSeek ex_inum 3 (-1) 7 ex_file = Fatal EBADCURS ex_file
  /\ fsSeek ex_inum 3 0 7 ex_file = Fatal EBADWHENCE ex_file
  /\ exists s', fsSeek ex_inum 3 5 SEEK_CUR ex_file = Ok 0 s'.
Proof.
  split; [|split].
  - apply (fsSeek_outcomes ex_inum 3 (-1) 7 ex_file). lia.
  - apply (fsSeek_outcomes ex_inum 3 0 7 ex_file); [lia | done | done | done].
  - apply (fsSeek_outcomes ex_inum 3 5 SEEK_CUR ex_file).
    split; [lia | right; left; reflexivity].
Defined.

Lemma fsSeek_then_fsTell_witness :
  exists s',
    fsSeek ex_inum 3 5 SEEK_CUR ex_file = Ok 0 s'
    /\ fsTell ex_inum 3 s' = Ok 1005 s'.
Proof.
  assert (Hrun : exists s',
    fsSeek ex_inum 3 5 SEEK_CUR ex_file = Ok 0 s').
  { eexists. vm_compute. reflexivity. }
  destruct Hrun as [s' Hrun]. exists s'. split; [exact Hrun|].
  destruct (fsSeek_then_fsTell ex_inum 3 5 SEEK_CUR 0 ex_file s')
    as [Ht _]; [by vm_compute | by vm_compute | by vm_compute | exact Hrun |].
  exact Ht.
Defined.

Lemma fsRead_changes_only_cursor_witness :
  exists s',
    final_state (fsRead 512 ex_inum 3 10 (zeros 10) ex_read) = Some s'
    /\ inodes s' = inodes ex_read /\ disk s' = disk ex_read.
Proof.
  assert (Hfin : exists s',
    final_state (fsRead 512 ex_inum 3 10 (zeros 10) ex_read) = Some s').
  { eexists. vm_compute. reflexivity. }
  destruct Hfin as [s' Hfin]. exists s'. split; [exact Hfin|].
  destruct (fsRead_changes_only_cursor 512 ex_inum 3 10 (zeros 10)
              ex_read s' Hfin) as (Hi & Hd & _).
  split; [exact Hi | exact Hd].
Defined.

Lemma fsWrite_within_file_frame_witness :
  exists s',
    fsWrite 512 ex_inum 3 5 ex_letters ex_read = Ok 0 s'
    /\ byte_at 512 s' 3 4 = "A"%byte
    /\ byte_at 512 s' 3 0 = "0"%byte.
Proof.
  assert (Hrun : exists s',
    fsWrite 512 ex_inum 3 5 ex_letters ex_read = Ok 0 s').
  { eexists. vm_compute. reflexivity. }
  destruct Hrun as [s' Hrun]. exists s'. split; [exact Hrun|].
  destruct (fsWrite_within_file_frame 512 ex_inum eq_refl 3 5 ex_letters
              ex_read 0 s' ex_read_wf eq_refl)
    as [Hin Hout];
    [by vm_compute | by vm_compute | by vm_compute | exact Hrun |].
  split.
  - apply (Hin 4). by vm_compute.
  - transitivity (byte_at 512 ex_read 3 0); [|reflexivity].
    apply (Hout 0). intros [Hlo _]. by vm_compute in Hlo.
Defined.

Lemma aborted_calls_keep_cursor_witness :
  exists s',
    fsWrite 512 ex_inum 3 600 (zeros 600) ex_full = Fatal EDISKFULL s'
    /\ g_oft s' = g_oft ex_full.
Proof.
  assert (Hrun : exists s',
    fsWrite 512 ex_inum 3 600 (zeros 600) ex_full = Fatal EDISKFULL s').
  { eexists. vm_compute. reflexivity. }
  destruct Hrun as [s' Hrun]. exists s'. split; [exact Hrun|].
  apply (aborted_calls_keep_cursor 512 ex_inum 3 600 (zeros 600) ex_full
           EDISKFULL s').
  exact Hrun.
Defined.

Lemma consecutive_reads_witness :
  exists b1 s1 k b2 s2 b s12,
    fsRead 512 ex_inum 3 2 (zeros 2) ex_read = Ok (2, b1) s1
    /\ fsRead 512 ex_inum 3 3 (zeros 3) s1 = Ok (k, b2) s2
    /\ fsRead 512 ex_inum 3 (2 + 3) (zeros 5) ex_read = Ok (2 + k, b) s12
    /\ g_oft s2 3 = g_oft s12 3.
Proof.
  destruct (consecutive_reads 512 ex_inum eq_refl 3 2 (zeros 2) 3 (zeros 3)
              (zeros 5) ex_read ex_read_wf eq_refl eq_refl)
    as (b1 & s1 & k & b2 & s2 & b & s12 & H1 & H2 & H12 & Hc & _);
    [by vm_compute | by vm_compute | by vm_compute | by vm_compute
    | by vm_compute |].
  exists b1, s1, k, b2, s2, b, s12.
  split; [exact H1|]. split; [exact H2|]. split; [exact H12 | exact Hc].
Defined.

Lemma consecutive_writes_witness :
  exists s1 s2 s',
    fsWrite 512 ex_inum 3 5 ex_letters ex_blank = Ok 0 s1
    /\ fsWrite 512 ex_inum 3 10 ex_digits s1 = Ok 0 s2
    /\ fsWrite 512 ex_inum 3 (5 + 10) (ex_letters ++ ex_digits) ex_blank
       = Ok 0 s'
    /\ i_size (inodes s2 3) = i_size (inodes s' 3)
    /\ g_oft s2 3 = g_oft s' 3.
Proof.
  assert (Hrun : exists s1 s2 s',
    fsWrite 512 ex_inum 3 5 ex_letters ex_blank = Ok 0 s1
    /\ fsWrite 512 ex_inum 3 10 ex_digits s1 = Ok 0 s2
    /\ fsWrite 512 ex_inum 3 (5 + 10) (ex_letters ++ ex_digits) ex_blank
       = Ok 0 s').
  { eexists _, _, _. split; [vm_compute; reflexivity|].
    split; vm_compute; reflexivity. }
  destruct Hrun as (s1 & s2 & s' & H1 & H2 & H12).
  exists s1, s2, s'.
  split; [exact H1|]. split; [exact H2|]. split; [exact H12|].
  destruct (consecutive_writes 512 ex_inum eq_refl 3 5 ex_letters 10
              ex_digits ex_blank 0 s1 0 s2 0 s' ex_blank_wf eq_refl eq_refl)
    as (_ & Hs & Hc);
    [by vm_compute | reflexivity | reflexivity | exact H1 | exact H2
    | exact H12 |].
  split; [exact Hs | exact Hc].
Defined.

Lemma fsWrite_keeps_dense_witness :
  exists s',
    fsWrite 512 ex_inum 3 5 ex_letters ex_file = Ok 0 s'
    /\ blocks_dense 512 s' 3.
Proof.
  assert (Hrun : exists s',
    fsWrite 512 ex_inum 3 5 ex_letters ex_file = Ok 0 s').
  { eexists. vm_compute. reflexivity. }
  destruct Hrun as [s' Hrun]. exists s'. split; [exact Hrun|].
  apply (fsWrite_keeps_dense 512 ex_inum eq_refl 3 5 ex_letters ex_file 0 s'
           ex_file_wf eq_refl);
    [by vm_compute | by vm_compute | exact ex_file_dense | exact Hrun].
Defined.

Lemma fsRead_one_transfer_per_block_witness :
  exists buf' s',
    fsRead 512 ex_inum 3 10 (zeros 10) ex_read = Ok (6, buf') s'
    /\ Z.of_nat (length (biolog s'))
       = Z.of_nat (length (biolog ex_read)) + 1.
Proof.
  destruct (fsRead_one_transfer_per_block 512 ex_inum eq_refl 3 10
              (zeros 10) ex_read ex_read_wf ex_file_dense eq_refl)
    as (buf' & s' & Hrun & Hlen);
    [by vm_compute | by vm_compute | by vm_compute |].
  exists buf', s'. split; [exact Hrun | exact Hlen].
Defined.

Lemma fsWrite_inside_needs_no_block_witness :
  exists s',
    fsWrite 512 ex_inum 3 5 ex_letters ex_full = Ok 0 s'
    /\ freelist s' = [] /\ inodes s' = inodes ex_full.
Proof.
  destruct (fsWrite_inside_needs_no_block 512 ex_inum eq_refl 3 5 ex_letters
              ex_full ex_full_wf ex_file_dense eq_refl)
    as (s' & Hrun & Hfl & Hi); [by vm_compute | by vm_compute |].
  exists s'. split; [exact Hrun|]. split; [exact Hfl | exact Hi].
Defined.

Lemma fsWrite_whole_blocks_never_reads_witness :
  exists s' ops,
    final_state (fsWrite 512 ex_inum 3 1024 (zeros 1024) ex_blank) = Some s'
    /\ biolog s' = biolog ex_blank ++ ops
    /\ forall d, reads_of d ops = 0%nat.
Proof.
  assert (Hfin : exists s',
    final_state (fsWrite 512 ex_inum 3 1024 (zeros 1024) ex_blank)
    = Some s').
  { eexists. vm_compute. reflexivity. }
  destruct Hfin as [s' Hfin].
  destruct (fsWrite_whole_blocks_never_reads 512 ex_inum eq_refl 3 1024
              (zeros 1024) ex_blank s')
    as (ops & Hlog & Hreads);
    [by vm_compute | reflexivity | by vm_compute | reflexivity | reflexivity
    | exact Hfin |].
  exists s', ops. split; [exact Hfin|]. split; [exact Hlog | exact Hreads].
Defined.

Lemma fsWrite_touches_own_blocks_witness :
  exists s',
    final_state (fsWrite 512 ex_inum 3 5 ex_letters ex_two) = Some s'
    /\ inodes s' 5 = inodes ex_two 5
    /\ byte_at 512 s' 5 0 = "A"%byte.
Proof.
  assert (Hfin : exists s',
    final_state (fsWrite 512 ex_inum 3 5 ex_letters ex_two) = Some s').
  { eexists. vm_compute. reflexivity. }
  destruct Hfin as [s' Hfin]. exists s'. split; [exact Hfin|].
  destruct (fsWrite_touches_own_blocks 512 ex_inum 3 5 ex_letters ex_two s'
              Hfin) as (Hi & _ & Hb).
  split.
  - apply (Hi 5). discriminate.
  - rewrite (Hb 5 0); [reflexivity | discriminate | exact ex_two_foreign].
Defined.

Lemma abort_codes_witness :
  exists s',
    fsWrite 512 ex_inum 3 5 ex_letters (set_freelist [] ex_file)
    = Fatal EDISKFULL s'
    /\ freelist s' = [].
Proof.
  assert (Hrun : exists s',
    fsWrite 512 ex_inum 3 5 ex_letters (set_freelist [] ex_file)
    = Fatal EDISKFULL s').
  { eexists. vm_compute. reflexivity. }
  destruct Hrun as [s' Hrun]. exists s'. split; [exact Hrun|].
  destruct (abort_codes 512 ex_inum 3 5 ex_letters (set_freelist [] ex_file)
              EDISKFULL s') as [_ Hw].
  destruct (Hw Hrun) as [(He & _)|(_ & _ & Hfl)]; [discriminate He|].
  exact Hfl.
Defined.

Lemma fsRead_stops_at_end_witness :
  exists buf' s',
    fsRead 512 ex_inum 3 10 (zeros 10) ex_read = Ok (6, buf') s'
    /\ fsTell ex_inum 3 s' = Ok 10 s'
    /\ fsSize ex_inum 3 s' = Ok 10 s'
    /\ fsRead 512 ex_inum 3 7 ex_letters s' = Ok (0, ex_letters) s'.
Proof.
  destruct (fsRead_stops_at_end 512 ex_inum eq_refl 3 10 (zeros 10) ex_read
              ex_read_wf eq_refl)
    as (buf' & s' & Hrun & Ht & Hs & Hnext);
    [by vm_compute | by vm_compute | by vm_compute |].
  exists buf', s'. split; [exact Hrun|]. split; [exact Ht|].
  split; [exact Hs|]. apply Hnext; [lia | by vm_compute].
Defined.

Lemma hole_filling_with_lazy_allocation_witness :
  byte_at 512 ex_tail 3 10 = x77
  /\ exists s1 s2 out s3,
      fsWrite 512 ex_inum 3 5 ex_letters (set_curs 3 1000 ex_tail) = Ok 0 s1
      /\ fsSeek ex_inum 3 10 SEEK_SET s1 = Ok 0 s2
      /\ fsRead 512 ex_inum 3 990 (zeros 990) s2 = Ok (990, out) s3
      /\ forall i, 0 <= i < 990 -> nthZ out i = x00.
Proof.
  split; [reflexivity|].
  assert (Hruns : runs 512 ex_inum 3 ex_written ex_tail ex_written
                    (set_curs 3 1000 ex_tail)).
  { apply (runs_call 512 ex_inum 3 ex_written ex_tail
             (CallSeek 1000 SEEK_SET) (set_curs 3 1000 ex_tail));
      [by vm_compute | reflexivity | apply runs_done]. }
  destruct (hole_filling_with_lazy_allocation 512 ex_inum eq_refl 3
              ex_written ex_tail ex_written (set_curs 3 1000 ex_tail)
              ex_tail_wf ex_tail_holes ex_tail_below Hruns)
    as (_ & _ & _ & _ & Hgap).
  assert (Hrun : exists s1,
    fsWrite 512 ex_inum 3 5 ex_letters (set_curs 3 1000 ex_tail) = Ok 0 s1).
  { eexists. vm_compute. reflexivity. }
  destruct Hrun as [s1 Hrun].
  destruct (Hgap 5 ex_letters 0 s1 10 990 (zeros 990))
    as (s2 & out & s3 & Hseek & Hread & Hzero);
    [reflexivity | by vm_compute | by vm_compute | exact Hrun | by vm_compute
    | reflexivity | by vm_compute | by vm_compute |].
  exists s1, s2, out, s3.
  split; [exact Hrun|]. split; [exact Hseek|].
  split; [exact Hread | exact Hzero].
Defined.

(** ** The gap fill after an eager extension

    When the block service binds the blocks of an extension at once, on a
    disk whose free blocks are not blank, the block of the cursor is bound
    before the gap fill runs and the gap fill does not reach it: after a
    write of 500 bytes to the empty file and a write of one byte at 1025,
    the gap position 1024 reads 0x77. *)

Lemma eager_extension_leaves_gap_byte :
  exists s',
    (do! fsWrite_with 512 ex_inum bfsExtend_eager 3 500 (zeros 500) in
     do! fsSeek ex_inum 3 1025 SEEK_SET in
     do! fsWrite_with 512 ex_inum bfsExtend_eager 3 1 ex_letters in
     do! fsSeek ex_inum 3 1024 SEEK_SET in
     fsRead 512 ex_inum 3 1 [x00]) ex_dirty
    = Ok (1, [x77]) s'.
Proof. eexists. vm_compute. reflexivity. Qed.
